(** * AI Architect (index.tsx): response parser, file-list merge, preview
      assembly, transport encoder and GitHub synchronizer.

    The development embeds the logic of [src/index.tsx] shallowly:
    JavaScript strings are sequences of UTF-16 code units, the two regular
    expression literals are terms of a small regex syntax run by a
    backtracking matcher that follows the ECMAScript matcher semantics
    (continuations, greedy and lazy repetition, capture groups), and the
    network loop is a function of an explicit remote service. *)

From Stdlib Require Import String Ascii ZArith Arith Bool Lia List.
Import ListNotations.
Local Open Scope Z_scope.

(* ================================================================= *)
(** ** JavaScript strings *)

(** A JavaScript string is a finite sequence of 16-bit code units. *)
Definition jsstring := list Z.

(** An ASCII literal of the source, as code units. *)
Definition lit (s : string) : jsstring :=
  map (fun a => Z.of_N (N_of_ascii a)) (list_ascii_of_string s).

Fixpoint jseqb (a b : jsstring) : bool :=
  match a, b with
  | [], [] => true
  | x :: a', y :: b' => (x =? y) && jseqb a' b'
  | _, _ => false
  end.

(** WhiteSpace and LineTerminator code points: what [\s] matches and what
    [String.prototype.trim] strips. *)
Definition isWhiteSpace (u : Z) : bool :=
  ((9 <=? u) && (u <=? 13)) || (u =? 32) || (u =? 160) || (u =? 5760)
  || ((8192 <=? u) && (u <=? 8202)) || (u =? 8232) || (u =? 8233)
  || (u =? 8239) || (u =? 8287) || (u =? 12288) || (u =? 65279).

Fixpoint trimStart (s : jsstring) : jsstring :=
  match s with
  | u :: s' => if isWhiteSpace u then trimStart s' else s
  | [] => []
  end.

Definition trimEnd (s : jsstring) : jsstring := rev (trimStart (rev s)).

Definition trim (s : jsstring) : jsstring := trimEnd (trimStart s).

(** [String.prototype.toLowerCase] on the Basic Latin range.  File names
    only come out of the parser's class [[\w\.\/\-]], so every name the
    program compares lies in this range. *)
Definition lowerUnit (u : Z) : Z :=
  if (65 <=? u) && (u <=? 90) then u + 32 else u.

Definition toLowerCase (s : jsstring) : jsstring := map lowerUnit s.

(** [Canonicalize] of a case-insensitive, non-unicode regex: the upper-case
    mapping, which never sends a code unit of 128 or more below 128.  All
    pattern characters of the source are below 128, so only this range is
    ever compared against. *)
Definition Canonicalize (u : Z) : Z :=
  if (97 <=? u) && (u <=? 122) then u - 32 else u.

Fixpoint isPrefix (p s : jsstring) : bool :=
  match p, s with
  | [], _ => true
  | x :: p', y :: s' => (x =? y) && isPrefix p' s'
  | _ :: _, [] => false
  end.

Definition endsWith (s suffix : jsstring) : bool :=
  isPrefix (rev suffix) (rev s).

(* ================================================================= *)
(** ** Regular expressions: syntax and backtracking matcher *)

Inductive regex : Type :=
| Eps
| Chr (p : Z -> bool)                 (* one code unit of a class *)
| Seq (r1 r2 : regex)
| Star (greedy : bool) (r : regex)    (* r* and r*? *)
| Opt (r : regex)                     (* r? *)
| Group (i : nat) (r : regex).        (* i-th capturing parentheses *)

Definition Plus (r : regex) : regex := Seq r (Star true r).

(** A literal pattern character under the [i] flag. *)
Definition chI (c : Z) : regex :=
  Chr (fun u => Canonicalize u =? Canonicalize c).

Fixpoint litI (s : jsstring) : regex :=
  match s with
  | [] => Eps
  | c :: s' => Seq (chI c) (litI s')
  end.

Record MatchState := mkState {
  rest : jsstring;                       (* input from endIndex on *)
  captures : list (option jsstring)      (* captures 1, 2, ... *)
}.

Definition Continuation := MatchState -> option MatchState.

Fixpoint setCapture (i : nat) (v : option jsstring) (cs : list (option jsstring))
  : list (option jsstring) :=
  match i, cs with
  | _, [] => []
  | O, c :: cs' => c :: cs'
  | S O, _ :: cs' => v :: cs'
  | S i', c :: cs' => c :: setCapture i' v cs'
  end.

Fixpoint groupsOf (r : regex) : list nat :=
  match r with
  | Eps | Chr _ => []
  | Seq r1 r2 => groupsOf r1 ++ groupsOf r2
  | Star _ r1 | Opt r1 => groupsOf r1
  | Group i r1 => i :: groupsOf r1
  end.

Definition clearCaptures (gs : list nat) (x : MatchState) : MatchState :=
  mkState (rest x) (fold_left (fun cs i => setCapture i None cs) gs (captures x)).

(** Same end index: the repetition made no progress. *)
Definition sameEnd (x y : MatchState) : bool :=
  (length (rest y) =? length (rest x))%nat.

(** RepeatMatcher for min = 0, max = infinity.  [fuel] bounds the number of
    iterations; an iteration that consumes nothing fails, so
    [S (length (rest x))] iterations always suffice. *)
Fixpoint RepeatMatcher (mr : MatchState -> Continuation -> option MatchState)
    (greedy : bool) (parens : list nat) (fuel : nat)
    (x : MatchState) (c : Continuation) : option MatchState :=
  match fuel with
  | O => c x
  | S fuel' =>
      let d := fun y => if sameEnd x y then None
                        else RepeatMatcher mr greedy parens fuel' y c in
      let xr := clearCaptures parens x in
      if greedy then
        match mr xr d with
        | Some z => Some z
        | None => c x
        end
      else
        match c x with
        | Some z => Some z
        | None => mr xr d
        end
  end.

Fixpoint matcher (r : regex) (x : MatchState) (c : Continuation)
  : option MatchState :=
  match r with
  | Eps => c x
  | Chr p =>
      match rest x with
      | ch :: tl => if p ch then c (mkState tl (captures x)) else None
      | [] => None
      end
  | Seq r1 r2 => matcher r1 x (fun y => matcher r2 y c)
  | Star greedy r1 =>
      RepeatMatcher (matcher r1) greedy (groupsOf r1) (S (length (rest x))) x c
  | Opt r1 =>
      let d := fun y => if sameEnd x y then None else c y in
      match matcher r1 (clearCaptures (groupsOf r1) x) d with
      | Some z => Some z
      | None => c x
      end
  | Group i r1 =>
      matcher r1 x (fun y =>
        let consumed := firstn (length (rest x) - length (rest y)) (rest x) in
        c (mkState (rest y) (setCapture i (Some consumed) (captures y))))
  end.

(** One successful match: the index where it starts, the matched text
    [m[0]], the captures [m[1]], [m[2]], ... and the input after it. *)
Record Match := mkMatch {
  index : nat;
  m0 : jsstring;
  groups : list (option jsstring);
  after : jsstring
}.

Definition cap (m : Match) (i : nat) : option jsstring :=
  nth (pred i) (groups m) None.

(** RegExpBuiltinExec from position [i] of the input whose remainder is
    [s]: the leftmost position at which the pattern matches. *)
Fixpoint exec (r : regex) (ncap : nat) (i : nat) (s : jsstring) : option Match :=
  match matcher r (mkState s (repeat None ncap)) (fun y => Some y) with
  | Some y =>
      Some (mkMatch i (firstn (length s - length (rest y)) s) (captures y) (rest y))
  | None =>
      match s with
      | [] => None
      | _ :: s' => exec r ncap (S i) s'
      end
  end.

(** [String.prototype.matchAll] with a global regex: successive [exec]
    calls, each resuming at the end of the previous match (one code unit
    further after an empty match). *)
Fixpoint matchAllFrom (fuel : nat) (r : regex) (ncap : nat) (i : nat)
    (s : jsstring) : list Match :=
  match fuel with
  | O => []
  | S fuel' =>
      match exec r ncap i s with
      | None => []
      | Some m =>
          let e := (index m + length (m0 m))%nat in
          m :: match m0 m, after m with
               | [], [] => []
               | [], _ :: s' => matchAllFrom fuel' r ncap (S e) s'
               | _ :: _, s' => matchAllFrom fuel' r ncap e s'
               end
      end
  end.

Definition matchAll (r : regex) (ncap : nat) (s : jsstring) : list Match :=
  matchAllFrom (S (length s)) r ncap 0 s.

(** [String.prototype.match] with a non-global regex: the first match. *)
Definition matchFirst (r : regex) (ncap : nat) (s : jsstring) : option Match :=
  exec r ncap 0 s.

(* ================================================================= *)
(** ** String.prototype.replace with a string pattern *)

(** Splits [s] around the first occurrence of [pat]. *)
Fixpoint splitFirst (pat s : jsstring) : option (jsstring * jsstring) :=
  if isPrefix pat s then Some ([], skipn (length pat) s)
  else match s with
       | [] => None
       | u :: s' =>
           match splitFirst pat s' with
           | Some (before, behind) => Some (u :: before, behind)
           | None => None
           end
       end.

(** GetSubstitution for a string pattern (no captures): [$$], [$&],
    [$`] and [$'] are expanded, every other code unit is copied. *)
Fixpoint GetSubstitution (matched before behind repl : jsstring) : jsstring :=
  match repl with
  | [] => []
  | u :: r =>
      if u =? 36 then
        match r with
        | [] => [u]
        | v :: r' =>
            if v =? 36 then 36 :: GetSubstitution matched before behind r'
            else if v =? 38 then matched ++ GetSubstitution matched before behind r'
            else if v =? 96 then before ++ GetSubstitution matched before behind r'
            else if v =? 39 then behind ++ GetSubstitution matched before behind r'
            else u :: GetSubstitution matched before behind r
        end
      else u :: GetSubstitution matched before behind r
  end.

Definition replace (s pat repl : jsstring) : jsstring :=
  match splitFirst pat s with
  | None => s
  | Some (before, behind) =>
      before ++ GetSubstitution pat before behind repl ++ behind
  end.

(* ================================================================= *)
(** ** Data model *)

Record ProjectFile := mkFile {
  id : jsstring;
  name : jsstring;
  language : jsstring;
  content : jsstring
}.

(* ================================================================= *)
(** ** Response parser: [extractFiles] *)

(** The class [\w]. *)
Definition isWord (u : Z) : bool :=
  ((48 <=? u) && (u <=? 57)) || ((65 <=? u) && (u <=? 90))
  || (u =? 95) || ((97 <=? u) && (u <=? 122)).

(** The class [[\w\.\/\-]]. *)
Definition isPathChar (u : Z) : bool :=
  isWord u || (u =? 46) || (u =? 47) || (u =? 45).

(** The class [[\n\r]]. *)
Definition isNewline (u : Z) : bool := (u =? 10) || (u =? 13).

(** The class [[\s\S]]. *)
Definition anyUnit (u : Z) : bool := isWhiteSpace u || negb (isWhiteSpace u).

Definition backticks : jsstring := [96; 96; 96].

(** [/\[FILE:\s*([\w\.\/\-]+)\]\s*[\n\r]*```(\w+)?\s*[\n\r]([\s\S]*?)```/gi] *)
Definition fileRegex : regex :=
  Seq (litI (lit "[FILE:"))
  (Seq (Star true (Chr isWhiteSpace))
  (Seq (Group 1 (Plus (Chr isPathChar)))
  (Seq (chI 93)
  (Seq (Star true (Chr isWhiteSpace))
  (Seq (Star true (Chr isNewline))
  (Seq (litI backticks)
  (Seq (Opt (Group 2 (Plus (Chr isWord))))
  (Seq (Star true (Chr isWhiteSpace))
  (Seq (Chr isNewline)
  (Seq (Group 3 (Star false (Chr anyUnit)))
       (litI backticks))))))))))).

(** [m[i]] where the source reads it as a string. *)
Definition capStr (m : Match) (i : nat) : jsstring :=
  match cap m i with
  | Some s => s
  | None => []
  end.

(** [m[2] || 'text']: an unset or empty capture gives the default. *)
Definition capOr (m : Match) (i : nat) (dflt : jsstring) : jsstring :=
  match cap m i with
  | Some (u :: s) => u :: s
  | _ => dflt
  end.

(** The replacement notice, a template literal around [m[1]]. *)
Definition notice (m1 : jsstring) : jsstring :=
  [10; 10; 62; 32; 55357; 56513; 32; 42; 42] ++ lit "File Updated: `"
  ++ m1 ++ lit "`**" ++ [10].

Definition fileOfMatch (newId : jsstring) (m : Match) : ProjectFile :=
  mkFile newId (trim (capStr m 1)) (trim (capOr m 2 (lit "text")))
         (trim (capStr m 3)).

(** The [forEach] over the matches; [rnd k] is the identifier drawn from
    [Math.random] for the match of rank [k]. *)
Fixpoint extractLoop (rnd : nat -> jsstring) (k : nat) (ms : list Match)
    (newFiles : list ProjectFile) (cleanText : jsstring)
  : list ProjectFile * jsstring :=
  match ms with
  | [] => (newFiles, cleanText)
  | m :: ms' =>
      extractLoop rnd (S k) ms'
        (newFiles ++ [fileOfMatch (rnd k) m])
        (replace cleanText (m0 m) (notice (capStr m 1)))
  end.

Definition extractFiles (rnd : nat -> jsstring) (text : jsstring)
  : list ProjectFile * jsstring :=
  extractLoop rnd 0 (matchAll fileRegex 3 text) [] text.

(* ================================================================= *)
(** ** File-list merge and active selection: [handleSendMessage] *)

(** [Array.prototype.findIndex]: the first index whose element satisfies
    [p], or [-1]. *)
Fixpoint findIndex {A : Type} (p : A -> bool) (l : list A) : Z :=
  match l with
  | [] => -1
  | a :: l' => if p a then 0
               else let i := findIndex p l' in
                    if i >? -1 then i + 1 else -1
  end.

Fixpoint updateAt {A : Type} (i : nat) (g : A -> A) (l : list A) : list A :=
  match i, l with
  | _, [] => []
  | O, a :: l' => g a :: l'
  | S i', a :: l' => a :: updateAt i' g l'
  end.

Definition sameName (a b : ProjectFile) : bool :=
  jseqb (toLowerCase (name a)) (toLowerCase (name b)).

(** [updated[idx].content = nf.content]: only the content field is
    assigned. *)
Definition setContent (c : jsstring) (f : ProjectFile) : ProjectFile :=
  mkFile (id f) (name f) (language f) c.

(** The body of [newFiles.forEach] inside the [setProjectFiles] updater. *)
Definition mergeStep (updated : list ProjectFile) (nf : ProjectFile)
  : list ProjectFile :=
  let idx := findIndex (fun f => sameName f nf) updated in
  if idx >? -1 then updateAt (Z.to_nat idx) (setContent (content nf)) updated
  else updated ++ [nf].

Definition mergeFiles (prev newFiles : list ProjectFile) : list ProjectFile :=
  fold_left mergeStep newFiles prev.

Inductive Role := user | model.

Record Message := mkMessage { role : Role; cleanText : jsstring }.

Record AppState := mkApp {
  messages : list Message;
  projectFiles : list ProjectFile;
  activeFileId : option jsstring
}.

(** The part of [handleSendMessage] that follows a successful model call
    whose reply is [text]. *)
Definition handleResponse (rnd : nat -> jsstring) (text : jsstring)
    (st : AppState) : AppState :=
  let '(newFiles, clean) := extractFiles rnd text in
  let st1 :=
    match newFiles with
    | [] => st
    | first :: _ =>
        mkApp (messages st) (mergeFiles (projectFiles st) newFiles)
              (Some (id first))
    end in
  mkApp (messages st1 ++ [mkMessage model clean]) (projectFiles st1)
        (activeFileId st1).

(** [activeFileId ? projectFiles.find(f => f.id === activeFileId) : ...]:
    the entry shown in the code pane.  A null identifier and the empty
    string are falsy: the pane then shows its placeholder. *)
Definition activeFile (st : AppState) : option ProjectFile :=
  match activeFileId st with
  | None => None
  | Some [] => None
  | Some (u :: a) => find (fun f => jseqb (id f) (u :: a)) (projectFiles st)
  end.

(* ================================================================= *)
(** ** Preview assembly: [previewDoc] *)

(** The class [[^>]]. *)
Definition notGt (u : Z) : bool := negb (u =? 62).

(** The literal [/<body[^>]*>(B)<\/body>/i] whose group [B] is the greedy
    repetition [[\s\S]*]. *)
Definition bodyRegex : regex :=
  Seq (litI (lit "<body"))
  (Seq (Star true (Chr notGt))
  (Seq (chI 62)
  (Seq (Group 1 (Star true (Chr anyUnit)))
       (litI (lit "</body>"))))).

(** [bodyMatch ? bodyMatch[1] : htmlFile.content] *)
Definition bodyContent (html : jsstring) : jsstring :=
  match matchFirst bodyRegex 1 html with
  | Some m => capStr m 1
  | None => html
  end.

Definition hasExt (ext : string) (f : ProjectFile) : bool :=
  endsWith (toLowerCase (name f)) (lit ext).

(** The double-quote code unit. *)
Definition dq : jsstring := [34].

(** [Array.prototype.join]. *)
Fixpoint join (sep : jsstring) (l : list jsstring) : jsstring :=
  match l with
  | [] => []
  | [a] => a
  | a :: l' => a ++ sep ++ join sep l'
  end.

Definition previewDoc (files : list ProjectFile) : option jsstring :=
  match find (hasExt ".html") files with
  | None => None
  | Some htmlFile =>
      let css := join [10] (map (fun f => lit "<style>" ++ content f ++ lit "</style>")
                                (filter (hasExt ".css") files)) in
      let js := join [10] (map (fun f => lit "<script type=" ++ dq ++ lit "module" ++ dq ++ lit ">" ++ content f
                                         ++ lit "</script>")
                               (filter (hasExt ".js") files)) in
      Some (lit "<!DOCTYPE html><html><head><meta charset=" ++ dq ++ lit "UTF-8"
            ++ dq ++ lit "><meta name=" ++ dq ++ lit "viewport" ++ dq
            ++ lit " content=" ++ dq
            ++ lit "width=device-width, initial-scale=1.0" ++ dq
            ++ lit "><script src=" ++ dq ++ lit "https://cdn.tailwindcss.com"
            ++ dq ++ lit "></script>"
            ++ css ++ lit "</head><body>" ++ bodyContent (content htmlFile) ++ js
            ++ lit "</body></html>")
  end.

(* ================================================================= *)
(** ** Exceptions and effects *)

(** The result of an expression that may throw; an exception is kept as
    its [message]. *)
Inductive outcome (A : Type) : Type :=
| Returns (a : A)
| Throws (msg : jsstring).
Arguments Returns {A} a.
Arguments Throws {A} msg.

Definition obind {A B : Type} (m : outcome A) (k : A -> outcome B) : outcome B :=
  match m with
  | Returns a => k a
  | Throws e => Throws e
  end.

(** [try { m } catch (e) { h e }] on pure code. *)
Definition tryCatch {A : Type} (m : outcome A) (h : jsstring -> outcome A)
  : outcome A :=
  match m with
  | Returns a => Returns a
  | Throws e => h e
  end.

Inductive Method := GET | PUT.

(** The JSON body of a write request; [shaRef = None] is the omitted
    [sha: undefined]. *)
Record PutBody := mkPutBody {
  commitMessage : jsstring;
  content64 : jsstring;
  shaRef : option jsstring
}.

Record Request := mkRequest {
  method : Method;
  url : jsstring;
  authorization : jsstring;
  body : option PutBody
}.

(** The two fields the program reads from a response body. *)
Record JsonData := mkJson {
  json_sha : option jsstring;
  json_message : option jsstring
}.

(** A response: its [ok] flag and what [await response.json()] gives
    (it may reject). *)
Record Response := mkResponse {
  ok : bool;
  json : outcome JsonData
}.

(** What the program can observe and change while syncing. *)
Record World := mkWorld {
  netlog : list Request;         (* every [fetch] issued, in order *)
  alerts : list jsstring;        (* every [alert] shown, in order *)
  showSettings : bool;
  isPushing : bool
}.

Definition IO (A : Type) : Type := World -> outcome A * World.

Definition ret {A : Type} (a : A) : IO A := fun w => (Returns a, w).

Definition bind {A B : Type} (m : IO A) (k : A -> IO B) : IO B :=
  fun w => match m w with
           | (Returns a, w') => k a w'
           | (Throws e, w') => (Throws e, w')
           end.

Definition throw {A : Type} (e : jsstring) : IO A := fun w => (Throws e, w).

Definition liftO {A : Type} (m : outcome A) : IO A := fun w => (m, w).

Definition tryCatchIO {A : Type} (m : IO A) (h : jsstring -> IO A) : IO A :=
  fun w => match m w with
           | (Returns a, w') => (Returns a, w')
           | (Throws e, w') => h e w'
           end.

Definition tryFinally {A : Type} (m : IO A) (fin : IO unit) : IO A :=
  fun w => match m w with
           | (r, w') => match fin w' with
                        | (Returns _, w'') => (r, w'')
                        | (Throws e, w'') => (Throws e, w'')
                        end
           end.

Notation "x <- m ;; k" := (bind m (fun x => k))
  (at level 61, m at next level, right associativity).
Notation "m ;;; k" := (bind m (fun _ => k))
  (at level 61, right associativity).

Definition alert (msg : jsstring) : IO unit :=
  fun w => (Returns tt,
            mkWorld (netlog w) (alerts w ++ [msg]) (showSettings w) (isPushing w)).

Definition setShowSettings (b : bool) : IO unit :=
  fun w => (Returns tt, mkWorld (netlog w) (alerts w) b (isPushing w)).

Definition setIsPushing (b : bool) : IO unit :=
  fun w => (Returns tt, mkWorld (netlog w) (alerts w) (showSettings w) b).

(** [for (const x of l) body(x)]. *)
Fixpoint forOf {A : Type} (l : list A) (loopBody : A -> IO unit) : IO unit :=
  match l with
  | [] => ret tt
  | a :: l' => loopBody a ;;; forOf l' loopBody
  end.

(** Truthiness of an optional string field: [undefined] and the empty
    string are falsy. *)
Definition truthy (v : option jsstring) : option jsstring :=
  match v with
  | Some (u :: s) => Some (u :: s)
  | _ => None
  end.

Definition isEmpty (s : jsstring) : bool :=
  match s with [] => true | _ => false end.

(* ================================================================= *)
(** ** Transport encoder and repository synchronizer *)

Section Platform.

(** The host functions: [new TextEncoder().encode], [btoa], and the
    remote service behind [fetch], which answers a request knowing the
    requests issued before it (or rejects). *)
Variable TextEncoder_encode : jsstring -> outcome (list Z).
Variable btoa : jsstring -> outcome jsstring.
Variable remote : list Request -> Request -> outcome Response.

(** [String.fromCharCode]. *)
Definition fromCharCode (b : Z) : Z := b mod 65536.

(** The [try] block of [toBase64]. *)
Definition toBase64_try (str : jsstring) : outcome jsstring :=
  obind (TextEncoder_encode str) (fun bytes =>
    let binString :=
      fold_left (fun acc b => acc ++ [fromCharCode b]) bytes [] in
    btoa binString).

Definition toBase64 (str : jsstring) : outcome jsstring :=
  tryCatch (toBase64_try str) (fun _ => Returns []).

Definition fetch (req : Request) : IO Response :=
  fun w => (remote (netlog w) req,
            mkWorld (netlog w ++ [req]) (alerts w) (showSettings w)
                    (isPushing w)).

Definition fileUrl (repoName : jsstring) (file : ProjectFile) : jsstring :=
  lit "https://api.github.com/repos/" ++ repoName ++ lit "/contents/"
  ++ name file.

Definition authHeader (githubToken : jsstring) : jsstring :=
  lit "token " ++ githubToken.

Definition getRequest (githubToken repoName : jsstring) (file : ProjectFile)
  : Request :=
  mkRequest GET (fileUrl repoName file) (authHeader githubToken) None.

Definition putRequest (githubToken repoName : jsstring) (file : ProjectFile)
    (encoded : jsstring) (sha : option jsstring) : Request :=
  mkRequest PUT (fileUrl repoName file) (authHeader githubToken)
    (Some (mkPutBody (lit "Update via AI Studio: " ++ name file) encoded
                     (truthy sha))).

(** The lookup, with its own [try]/[catch] that swallows every failure. *)
Definition lookupSha (githubToken repoName : jsstring) (file : ProjectFile)
  : IO (option jsstring) :=
  tryCatchIO
    (check <- fetch (getRequest githubToken repoName file) ;;
     if ok check then
       data <- liftO (json check) ;;
       ret (json_sha data)
     else ret None)
    (fun _ => ret None).

Definition pushFailure (file : ProjectFile) (errData : JsonData) : jsstring :=
  match truthy (json_message errData) with
  | Some m => m
  | None => lit "Gagal push " ++ name file
  end.

(** The body of the [for] loop of [syncToGithub]. *)
Definition pushFile (githubToken repoName : jsstring) (file : ProjectFile)
  : IO unit :=
  sha <- lookupSha githubToken repoName file ;;
  encoded <- liftO (toBase64 (content file)) ;;
  push <- fetch (putRequest githubToken repoName file encoded sha) ;;
  if negb (ok push) then
    errData <- liftO (json push) ;;
    throw (pushFailure file errData)
  else ret tt.

Definition nothingToSend : jsstring := lit "Belum ada file untuk dikirim.".

Definition successNotice : jsstring :=
  [9989; 32] ++ lit "Berhasil! Semua file telah disinkronkan ke GitHub.".

Definition errorNotice (e : jsstring) : jsstring :=
  [10060; 32] ++ lit "GitHub Error: " ++ e.

Definition syncToGithub (githubToken repoName : jsstring)
    (files : list ProjectFile) : IO unit :=
  if isEmpty githubToken || isEmpty repoName then setShowSettings true
  else
    setIsPushing true ;;;
    tryFinally
      (tryCatchIO
         ((if (length files =? 0)%nat then throw nothingToSend else ret tt) ;;;
          forOf files (pushFile githubToken repoName) ;;;
          alert successNotice)
         (fun e => alert (errorNotice e)))
      (setIsPushing false).

(** What the write request of a file carries as content: the encoder's
    result, the empty string after a failure inside it. *)
Definition encodedContent (str : jsstring) : jsstring :=
match toBase64_try str with
| Returns s => s
| Throws _ => []
end.

(** The hash reference a lookup answer yields: present only when the
    lookup resolved, reported [ok], its body could be read and held a
    non-empty [sha]. *)
Definition capturedSha (answer : outcome Response) : option jsstring :=
match answer with
| Returns check =>
    if ok check then
      match json check with
      | Returns data =>
          match json_sha data with
          | Some (u :: s) => Some (u :: s)
          | _ => None
          end
      | Throws _ => None
      end
    else None
| Throws _ => None
end.

(** The verdict of the loop body on the answer to the write request. *)
Definition writeVerdict (file : ProjectFile) (answer : outcome Response)
: outcome unit :=
match answer with
| Throws e => Throws e
| Returns push =>
    if ok push then Returns tt
    else match json push with
         | Throws e => Throws e
         | Returns errData => Throws (pushFailure file errData)
         end
end.

(** The world after further requests. *)
Definition logged (w : World) (reqs : list Request) : World :=
mkWorld (netlog w ++ reqs) (alerts w) (showSettings w) (isPushing w).

(** The world once [setIsPushing(true)] has run. *)
Definition pushing (w : World) : World :=
mkWorld (netlog w) (alerts w) (showSettings w) true.

(** The write request the loop issues for [file] in world [w]. *)
Definition writeOf (githubToken repoName : jsstring) (file : ProjectFile)
  (w : World) : Request :=
putRequest githubToken repoName file (encodedContent (content file))
  (capturedSha (remote (netlog w) (getRequest githubToken repoName file))).

(** The requests a run over [files] issues from world [w], as long as
    every write succeeds. *)
Fixpoint requestsOf (githubToken repoName : jsstring)
  (files : list ProjectFile) (w : World) : list Request :=
match files with
| [] => []
| f :: files' =>
    getRequest githubToken repoName f :: writeOf githubToken repoName f w
    :: requestsOf githubToken repoName files'
         (logged w [getRequest githubToken repoName f;
                    writeOf githubToken repoName f w])
end.

End Platform.

(* ================================================================= *)
(** ** The host encoders: [TextEncoder] and [btoa] *)

Definition isHighSurrogate (u : Z) : bool := (55296 <=? u) && (u <=? 56319).
Definition isLowSurrogate (u : Z) : bool := (56320 <=? u) && (u <=? 57343).

(** Conversion of a JavaScript string to scalar values, as [TextEncoder]
    does before encoding: a surrogate pair is one code point, an unpaired
    surrogate becomes U+FFFD. *)
Fixpoint toScalars (s : jsstring) : list Z :=
  match s with
  | [] => []
  | u :: s' =>
      if isHighSurrogate u then
        match s' with
        | v :: s'' =>
            if isLowSurrogate v then
              (65536 + Z.shiftl (u - 55296) 10 + (v - 56320)) :: toScalars s''
            else 65533 :: toScalars s'
        | [] => [65533]
        end
      else if isLowSurrogate u then 65533 :: toScalars s'
      else u :: toScalars s'
  end.

(** The UTF-8 bytes of one scalar value. *)
Definition utf8Bytes (cp : Z) : list Z :=
  if cp <? 128 then [cp]
  else if cp <? 2048 then
    [Z.lor 192 (Z.shiftr cp 6); Z.lor 128 (Z.land cp 63)]
  else if cp <? 65536 then
    [Z.lor 224 (Z.shiftr cp 12); Z.lor 128 (Z.land (Z.shiftr cp 6) 63);
     Z.lor 128 (Z.land cp 63)]
  else
    [Z.lor 240 (Z.shiftr cp 18); Z.lor 128 (Z.land (Z.shiftr cp 12) 63);
     Z.lor 128 (Z.land (Z.shiftr cp 6) 63); Z.lor 128 (Z.land cp 63)].

(** [new TextEncoder().encode(str)]; it never throws. *)
Definition TextEncoder_encode (s : jsstring) : outcome (list Z) :=
  Returns (flat_map utf8Bytes (toScalars s)).

Definition b64Alphabet : jsstring :=
  lit "ABCDEFGHIJKLMNOPQRSTUVWXYZabcdefghijklmnopqrstuvwxyz0123456789+/".

Definition b64Char (i : Z) : Z := nth (Z.to_nat i) b64Alphabet 0.

Fixpoint b64Encode (bs : list Z) : jsstring :=
  match bs with
  | [] => []
  | [a] =>
      [b64Char (Z.shiftr a 2); b64Char (Z.shiftl (Z.land a 3) 4); 61; 61]
  | [a; b] =>
      [b64Char (Z.shiftr a 2);
       b64Char (Z.lor (Z.shiftl (Z.land a 3) 4) (Z.shiftr b 4));
       b64Char (Z.shiftl (Z.land b 15) 2); 61]
  | a :: b :: c :: bs' =>
      [b64Char (Z.shiftr a 2);
       b64Char (Z.lor (Z.shiftl (Z.land a 3) 4) (Z.shiftr b 4));
       b64Char (Z.lor (Z.shiftl (Z.land b 15) 2) (Z.shiftr c 6));
       b64Char (Z.land c 63)] ++ b64Encode bs'
  end.

(** [btoa]: throws InvalidCharacterError when a code unit exceeds 255. *)
Definition btoa (binString : jsstring) : outcome jsstring :=
  if forallb (fun u => u <=? 255) binString then Returns (b64Encode binString)
  else Throws (lit "The string to be encoded contains characters outside of the Latin1 range.").

(* ================================================================= *)
(** ** The reading side named by the specification

    The program has no decoder; the round-trip property is stated against
    the standard inverse transformations: base64 decoding (RFC 4648) and
    UTF-8 decoding (RFC 3629) back to a JavaScript string. *)

Definition b64Index (c : Z) : option Z :=
  if (65 <=? c) && (c <=? 90) then Some (c - 65)
  else if (97 <=? c) && (c <=? 122) then Some (c - 71)
  else if (48 <=? c) && (c <=? 57) then Some (c + 4)
  else if c =? 43 then Some 62
  else if c =? 47 then Some 63
  else None.

Fixpoint b64Decode (s : jsstring) : option (list Z) :=
  match s with
  | [] => Some []
  | c1 :: c2 :: c3 :: c4 :: s' =>
      match b64Index c1, b64Index c2 with
      | Some i1, Some i2 =>
          let b1 := Z.lor (Z.shiftl i1 2) (Z.shiftr i2 4) in
          if c4 =? 61 then
            match s' with
            | [] =>
                if c3 =? 61 then Some [b1]
                else match b64Index c3 with
                     | Some i3 =>
                         Some [b1; Z.lor (Z.shiftl (Z.land i2 15) 4) (Z.shiftr i3 2)]
                     | None => None
                     end
            | _ :: _ => None
            end
          else
            match b64Index c3, b64Index c4, b64Decode s' with
            | Some i3, Some i4, Some bs =>
                Some (b1 :: Z.lor (Z.shiftl (Z.land i2 15) 4) (Z.shiftr i3 2)
                         :: Z.lor (Z.shiftl (Z.land i3 3) 6) i4 :: bs)
            | _, _, _ => None
            end
      | _, _ => None
      end
  | _ => None
  end.

Definition isCont (b : Z) : bool := (128 <=? b) && (b <=? 191).

(** Strict UTF-8 decoding to scalar values: overlong forms, surrogates and
    values above U+10FFFF are rejected. *)
Fixpoint utf8Decode (bs : list Z) : option (list Z) :=
  match bs with
  | [] => Some []
  | b0 :: r0 =>
      if (0 <=? b0) && (b0 <? 128) then option_map (cons b0) (utf8Decode r0)
      else
        match r0 with
        | [] => None
        | b1 :: r1 =>
            if (192 <=? b0) && (b0 <? 224) then
              let cp := Z.lor (Z.shiftl (Z.land b0 31) 6) (Z.land b1 63) in
              if isCont b1 && (128 <=? cp)
              then option_map (cons cp) (utf8Decode r1) else None
            else
              match r1 with
              | [] => None
              | b2 :: r2 =>
                  if (224 <=? b0) && (b0 <? 240) then
                    let cp := Z.lor (Z.shiftl (Z.land b0 15) 12)
                                (Z.lor (Z.shiftl (Z.land b1 63) 6) (Z.land b2 63)) in
                    if isCont b1 && isCont b2 && (2048 <=? cp)
                       && negb ((55296 <=? cp) && (cp <=? 57343))
                    then option_map (cons cp) (utf8Decode r2) else None
                  else
                    match r2 with
                    | [] => None
                    | b3 :: r3 =>
                        if (240 <=? b0) && (b0 <? 248) then
                          let cp := Z.lor (Z.shiftl (Z.land b0 7) 18)
                                      (Z.lor (Z.shiftl (Z.land b1 63) 12)
                                         (Z.lor (Z.shiftl (Z.land b2 63) 6)
                                                (Z.land b3 63))) in
                          if isCont b1 && isCont b2 && isCont b3
                             && (65536 <=? cp) && (cp <=? 1114111)
                          then option_map (cons cp) (utf8Decode r3) else None
                        else None
                    end
              end
        end
  end.

(** The UTF-16 code units of one scalar value. *)
Definition utf16Units (cp : Z) : jsstring :=
  if cp <? 65536 then [cp]
  else [55296 + Z.shiftr (cp - 65536) 10; 56320 + Z.land (cp - 65536) 1023].

Definition decodeTransport (encoded : jsstring) : option jsstring :=
  match b64Decode encoded with
  | Some bytes =>
      match utf8Decode bytes with
      | Some cps => Some (flat_map utf16Units cps)
      | None => None
      end
  | None => None
  end.

(** A well-formed UTF-16 string: code units in range, every surrogate part
    of a high-low pair. *)
Fixpoint wellFormed (s : jsstring) : bool :=
  match s with
  | [] => true
  | u :: s' =>
      (0 <=? u) && (u <? 65536) &&
      if isHighSurrogate u then
        match s' with
        | v :: s'' => isLowSurrogate v && wellFormed s''
        | [] => false
        end
      else negb (isLowSurrogate u) && wellFormed s'
  end.

(** [String.prototype.toWellFormed]: every unpaired surrogate becomes
    U+FFFD, everything else stays. *)
Fixpoint toWellFormed (s : jsstring) : jsstring :=
  match s with
  | [] => []
  | u :: s' =>
      if isHighSurrogate u then
        match s' with
        | v :: s'' =>
            if isLowSurrogate v then u :: v :: toWellFormed s''
            else 65533 :: toWellFormed s'
        | [] => [65533]
        end
      else if isLowSurrogate u then 65533 :: toWellFormed s'
      else u :: toWellFormed s'
  end.

(** [s] occurs in [t]. *)
Fixpoint occursIn (s t : jsstring) : bool :=
  isPrefix s t ||
  match t with
  | [] => false
  | _ :: t' => occursIn s t'
  end.

(* ================================================================= *)
(** ** Notions used in the statements *)

(** What identifies a request in a trace: its method and its URL. *)
Definition requestKey (r : Request) : Method * jsstring := (method r, url r).

(** The key of the upsert: the lower-cased name. *)
Definition nameKey (f : ProjectFile) : jsstring := toLowerCase (name f).

(** What a merge never changes in an entry. *)
Definition identity (f : ProjectFile) : jsstring * jsstring * jsstring :=
  (id f, name f, language f).

Definition uniqueNames (l : list ProjectFile) : Prop := NoDup (map nameKey l).

(** The last file of [batch] that bears the name of [f], up to case. *)
Definition lastNamed (f : ProjectFile) (batch : list ProjectFile)
  : option ProjectFile :=
  find (fun g => jseqb (nameKey g) (nameKey f)) (rev batch).

(** What an upsert makes of an entry: the content is that of the last
    batch file of its name, when there is one; identifier, name and
    language stay. *)
Definition refreshed (batch : list ProjectFile) (f : ProjectFile)
  : ProjectFile :=
  match lastNamed f batch with
  | Some g => mkFile (id f) (name f) (language f) (content g)
  | None => f
  end.

(** The batch files that bring a name not met so far, neither in [known]
    nor earlier in the batch, in batch order. *)
Fixpoint newcomers (known batch : list ProjectFile) : list ProjectFile :=
  match batch with
  | [] => []
  | g :: batch' =>
      if existsb (fun f => jseqb (nameKey f) (nameKey g)) known
      then newcomers known batch'
      else g :: newcomers (known ++ [g]) batch'
  end.

(** [p] is a prefix of [s] up to case. *)
Fixpoint prefixI (p s : jsstring) : bool :=
  match p, s with
  | [], _ => true
  | x :: p', y :: s' => (Canonicalize y =? Canonicalize x) && prefixI p' s'
  | _ :: _, [] => false
  end.

(** Index of the first occurrence of [p] in [s], up to case. *)
Fixpoint firstOccI (p s : jsstring) : option nat :=
  if prefixI p s then Some O
  else match s with
       | [] => None
       | _ :: s' => option_map S (firstOccI p s')
       end.

(** Index of the last occurrence of [p] in [s], up to case. *)
Fixpoint lastOccI (p s : jsstring) : option nat :=
  match s with
  | [] => if prefixI p [] then Some O else None
  | _ :: s' =>
      match lastOccI p s' with
      | Some i => Some (S i)
      | None => if prefixI p s then Some O else None
      end
  end.

(** What a greedy repetition of a class computes: the continuation is
    tried after the longest run of class members first, then after ever
    shorter ones. *)
Fixpoint greedyClass (p : Z -> bool) (c : Continuation)
    (cs : list (option jsstring)) (s : jsstring) : option MatchState :=
  match s with
  | u :: s' =>
      if p u then
        match greedyClass p c cs s' with
        | Some z => Some z
        | None => c (mkState s cs)
        end
      else c (mkState s cs)
  | [] => c (mkState [] cs)
  end.

(** What a lazy repetition of a class computes: the continuation is tried
    at once, then after one more class member, and so on. *)
Fixpoint lazyClass (p : Z -> bool) (c : Continuation)
    (cs : list (option jsstring)) (s : jsstring) : option MatchState :=
  match c (mkState s cs) with
  | Some z => Some z
  | None =>
      match s with
      | u :: s' => if p u then lazyClass p c cs s' else None
      | [] => None
      end
  end.

(** The two tag openings [bodyRegex] looks for. *)
Definition openTag : jsstring := lit "<body".
Definition closeTag : jsstring := lit "</body>".

Definition isByte (b : Z) : Prop := 0 <= b < 256.

Definition isScalar (cp : Z) : Prop :=
  0 <= cp < 55296 \/ 57344 <= cp <= 1114111.

(** The text in which every matched span, located by its index, is
    replaced by the notice of its file; [pos] is the index at which [text]
    starts. *)
Fixpoint spansReplaced (pos : nat) (text : jsstring) (ms : list Match)
  : jsstring :=
  match ms with
  | [] => text
  | m :: ms' =>
      let gap := (index m - pos)%nat in
      firstn gap text ++ notice (capStr m 1)
      ++ spansReplaced (index m + length (m0 m))
           (skipn (gap + length (m0 m)) text) ms'
  end.

(** [p] occurs in [s] up to case. *)
Fixpoint occursI (p s : jsstring) : bool :=
  prefixI p s ||
  match s with
  | [] => false
  | _ :: s' => occursI p s'
  end.

(** The marker keyword of [fileRegex]. *)
Definition marker : jsstring := lit "[FILE:".

(** Whitespace that is not a line break of the class [[\n\r]]. *)
Definition isBlank (u : Z) : bool := isWhiteSpace u && negb (isNewline u).

Definition headNot (p : Z -> bool) (s : jsstring) : bool :=
  match s with
  | [] => true
  | u :: _ => negb (p u)
  end.

(** The pieces of one file block, in order of appearance: the marker
    keyword, whitespace, the path, "]", whitespace, the opening fence, the
    language tag, whitespace ending in a line break, then the indentation
    of the first code line, the code and the closing fence. *)
Record Block := mkBlock {
  keyword : jsstring;
  gap1 : jsstring;
  path : jsstring;
  gap2 : jsstring;
  tag : jsstring;
  gap3 : jsstring;
  eol : Z;
  indent : jsstring;
  code : jsstring
}.

Definition blockText (b : Block) : jsstring :=
  keyword b ++ gap1 b ++ path b ++ [93] ++ gap2 b ++ backticks ++ tag b
  ++ gap3 b ++ [eol b] ++ indent b ++ code b ++ backticks.

Definition closesAt (body : jsstring) : bool :=
  match firstOccI backticks (body ++ backticks) with
  | Some i => (i =? length body)%nat
  | None => false
  end.

Definition wellFormedBlock (b : Block) : bool :=
  jseqb (map Canonicalize (keyword b)) (map Canonicalize marker)
  && forallb isWhiteSpace (gap1 b)
  && negb (isEmpty (path b)) && forallb isPathChar (path b)
  && forallb isWhiteSpace (gap2 b)
  && forallb isWord (tag b)
  && forallb isWhiteSpace (gap3 b) && isNewline (eol b)
  && forallb isBlank (indent b) && headNot isWhiteSpace (code b)
  && closesAt (indent b ++ code b).

Definition tagCapture (b : Block) : option jsstring :=
  match tag b with
  | [] => None
  | _ :: _ => Some (tag b)
  end.

(** Prose in which the marker keyword does not occur. *)
Definition plain (p : jsstring) : bool := negb (occursI marker p).

(** A reply: blocks, each preceded by prose, and the prose after the last
    block. *)
Fixpoint render (parts : list (jsstring * Block)) (closing : jsstring)
  : jsstring :=
  match parts with
  | [] => closing
  | (p, b) :: ps => p ++ blockText b ++ render ps closing
  end.

Fixpoint wellFormedReply (parts : list (jsstring * Block)) (closing : jsstring)
  : bool :=
  match parts with
  | [] => plain closing
  | (p, b) :: ps => plain p && wellFormedBlock b && wellFormedReply ps closing
  end.

(** The file expected for a block: the path trimmed, the tag or "text",
    the body trimmed. *)
Definition fileOfBlock (newId : jsstring) (b : Block) : ProjectFile :=
  mkFile newId (trim (path b))
         (trim (match tag b with [] => lit "text" | _ :: _ => tag b end))
         (trim (indent b ++ code b)).

Fixpoint filesOf (rnd : nat -> jsstring) (k : nat)
    (parts : list (jsstring * Block)) : list ProjectFile :=
  match parts with
  | [] => []
  | (_, b) :: ps => fileOfBlock (rnd k) b :: filesOf rnd (S k) ps
  end.

(** The reply with every block replaced by its notice. *)
Fixpoint cleanOf (parts : list (jsstring * Block)) (closing : jsstring)
  : jsstring :=
  match parts with
  | [] => closing
  | (p, b) :: ps => p ++ notice (path b) ++ cleanOf ps closing
  end.

Definition matchOfBlock (i : nat) (b : Block) (more : jsstring) : Match :=
  mkMatch i (blockText b)
          [Some (path b); tagCapture b; Some (indent b ++ code b)] more.

Fixpoint matchesOf (i : nat) (parts : list (jsstring * Block))
    (closing : jsstring) : list Match :=
  match parts with
  | [] => []
  | (p, b) :: ps =>
      matchOfBlock (i + length p) b (render ps closing)
      :: matchesOf (i + length p + length (blockText b)) ps closing
  end.

(** A code unit that could continue the keyword after its bracket. *)
Definition continuesMarker (u : Z) : bool :=
  let c := Canonicalize u in
  (c =? 70) || (c =? 73) || (c =? 76) || (c =? 69) || (c =? 58).

(** No occurrence of the keyword starts inside [done] when [t] follows. *)
Definition noStart (done t : jsstring) : Prop :=
  forall a y, done = a ++ y -> y <> [] -> prefixI marker (y ++ t) = false.

(* ================================================================= *)
(** ** Concrete inputs *)

Definition exFileA : ProjectFile :=
  mkFile (lit "k3j9x0a1b") (lit "a.js") (lit "js") (lit "let a = 1;").
Definition exFileB : ProjectFile :=
  mkFile (lit "p0o9i8u7y") (lit "b.css") (lit "css") (lit "body { margin: 0 }").
Definition exFileC : ProjectFile :=
  mkFile (lit "z1x2c3v4b") (lit "index.html") (lit "html") (lit "<body>Hello</body>").

(** A remote that knows no object, accepts the first write and refuses
    every later one with a message. *)
Definition exRemote (log : list Request) (req : Request) : outcome Response :=
  match method req with
  | GET => Returns (mkResponse false (Returns (mkJson None (Some (lit "Not Found")))))
  | PUT =>
      if (length log <? 2)%nat
      then Returns (mkResponse true (Returns (mkJson (Some (lit "95b966ae")) None)))
      else Returns (mkResponse false
                      (Returns (mkJson None (Some (lit "Bad credentials")))))
  end.

Definition exToken : jsstring := lit "ghp_0123456789".
Definition exRepo : jsstring := lit "octo/demo".
Definition exWorld : World := mkWorld [] [] false false.


Definition exRedeclared : ProjectFile :=
  mkFile (lit "q7w8e9r0t") (lit "A.JS") (lit "javascript") (lit "let a = 2;").

Definition exIds (k : nat) : jsstring := lit "q7w8e9r0" ++ [48 + Z.of_nat k].

Definition exReply : jsstring :=
  lit "Updated. [FILE: A.JS]" ++ [10] ++ lit "```javascript" ++ [10]
  ++ lit "let a = 2;" ++ [10] ++ lit "```".

Definition exApp : AppState := mkApp [] [exFileA] None.

Definition exHtml : jsstring := lit "<html><BODY class=app>Hello</body><p>x</p></Body></html>".

(** "e-acute, euro sign, U+1F4C1, A": one, two, three and four byte forms
    of UTF-8 are met. *)
Definition exUnicode : jsstring := [233; 8364; 55357; 56513; 65].

(** A reply with two well-formed blocks, [a.js] then [b.js], after a
    marker that no fence line follows; the body of the second block quotes
    an update notice. *)
Definition exStray : jsstring :=
  lit "[FILE: b.js]```"
  ++ lit "[FILE: a.js]" ++ [10] ++ lit "```js" ++ [10] ++ lit "one" ++ [10]
  ++ lit "```"
  ++ lit "[FILE: b.js]```" ++ notice (lit "a.js") ++ lit "[FILE: b.js]```".

Definition exBlockA : Block :=
  mkBlock (lit "[FILE:") (lit " ") (lit "src/app.js") [] (lit "js") [] 10
          (lit "  ") (lit "let a = 1;" ++ [10]).
Definition exBlockB : Block :=
  mkBlock (lit "[file:") [] (lit "style.css") [10] [] (lit " " ++ [13]) 10
          [] (lit "body { margin: 0 }").

(* ================================================================= *)
(** ** Sending a prompt: [handleSendMessage] and the chat events *)

(** The chat state the handler reads and writes: the working set with the
    transcript, the text of the input box and the in-flight flag. *)
Record Session := mkSession {
  appState : AppState;
  inputText : jsstring;
  isGenerating : bool
}.

(** The message appended by the [catch] block, a template literal around
    [e.message]. *)
Definition errorReply (e : jsstring) : jsstring :=
  [55357; 57041; 32] ++ lit "**Error:** " ++ e.

(** [setMessages(prev => [...prev, msg])] *)
Definition pushMessage (msg : Message) (st : AppState) : AppState :=
  mkApp (messages st ++ [msg]) (projectFiles st) (activeFileId st).

(** [handleSendMessage] up to its [await]: the guard, then the user
    message, the cleared input and the raised flag.  The result is the
    prompt handed to the model, or nothing when the guard returns. *)
Definition sendStart (s : Session) : option (jsstring * Session) :=
  if isEmpty (trim (inputText s)) || isGenerating s then None
  else
    let prompt := inputText s in
    Some (prompt,
          mkSession (pushMessage (mkMessage user prompt) (appState s)) [] true).

(** [response.text || ""]: the text may be undefined. *)
Definition textOf (t : option jsstring) : jsstring :=
  match t with
  | Some s => s
  | None => []
  end.

(** [handleSendMessage] from its [await] on, run on the state of that
    moment: the rest of the [try] when the call resolved, the [catch]
    when it rejected, the [finally] in both cases. *)
Definition sendFinish (rnd : nat -> jsstring)
    (result : outcome (option jsstring)) (s : Session) : Session :=
  match result with
  | Returns t =>
      mkSession (handleResponse rnd (textOf t) (appState s)) (inputText s) false
  | Throws e =>
      mkSession (pushMessage (mkMessage model (errorReply e)) (appState s))
                (inputText s) false
  end.

(** A send during which nothing else happens; [generate] is the call to
    the model. *)
Definition handleSendMessage (rnd : nat -> jsstring)
    (generate : jsstring -> outcome (option jsstring)) (s : Session)
  : Session :=
  match sendStart s with
  | None => s
  | Some (prompt, s1) => sendFinish rnd (generate prompt) s1
  end.

(** What can happen to the chat: the input box changes, the send button
    or Enter is pressed, the call in flight settles (with the identifiers
    the parser then draws), an entry of the sidebar is clicked.  Each
    event finds the state as the one before left it. *)
Inductive Event :=
| Typed (text : jsstring)
| SendPressed
| Settled (rnd : nat -> jsstring) (result : outcome (option jsstring))
| Selected (i : nat).

Definition step (s : Session) (e : Event) : Session :=
  match e with
  | Typed text => mkSession (appState s) text (isGenerating s)
  | SendPressed =>
      match sendStart s with
      | Some (_, s1) => s1
      | None => s
      end
  | Settled rnd result =>
      if isGenerating s then sendFinish rnd result s else s
  | Selected i =>
      match nth_error (projectFiles (appState s)) i with
      | Some f =>
          mkSession (mkApp (messages (appState s)) (projectFiles (appState s))
                           (Some (id f)))
                    (inputText s) (isGenerating s)
      | None => s
      end
  end.

Definition run (s : Session) (es : list Event) : Session := fold_left step es s.

(** The prompts a run hands to the model, in order. *)
Fixpoint prompts (s : Session) (es : list Event) : list jsstring :=
  match es with
  | [] => []
  | e :: es' =>
      match e, sendStart s with
      | SendPressed, Some (p, _) => p :: prompts (step s e) es'
      | _, _ => prompts (step s e) es'
      end
  end.

Definition isSettled (e : Event) : bool :=
  match e with
  | Settled _ _ => true
  | _ => false
  end.

(** The message set by the mount effect. *)
Definition welcome : jsstring :=
  lit "### " ++ [55357; 56960] ++ lit " AI Studio v6.6 Stabilized" ++ [10; 10]
  ++ lit "Selamat datang! Gunakan tab **Chat** untuk mendesain aplikasi Anda. File yang dihasilkan dapat disinkronkan ke GitHub melalui tab **Code**."
  ++ [10; 10] ++ lit "**Pengaturan GitHub:**" ++ [10] ++ lit "Klik ikon "
  ++ [9881; 65039]
  ++ lit " di pojok kanan atas untuk memasukkan Token & Nama Repo.".

(** The state once the component is mounted: the initial values of the
    hooks, and the welcome message the mount effect sets on the empty
    transcript. *)
Definition initialSession : Session :=
  mkSession (mkApp [mkMessage model welcome] [] None) [] false.

(** The names of a working set are pairwise distinct up to case, none is
    empty and all are made of path characters. *)
Definition wellNamed (l : list ProjectFile) : Prop :=
  uniqueNames l
  /\ Forall (fun f => name f <> [] /\ forallb isPathChar (name f) = true) l.

(* ================================================================= *)
(** ** Message rendering: [safeMarkdown] *)

(** [String.prototype.replace] with a global regex without capture groups
    and a replacement string: every match of the scan is replaced, the
    text between the matches is kept.  [whole] is the text scanned and
    [pos] the index at which [text] starts. *)
Fixpoint replaceMatches (whole : jsstring) (pos : nat) (text : jsstring)
    (ms : list Match) (repl : jsstring) : jsstring :=
  match ms with
  | [] => text
  | m :: ms' =>
      let gap := (index m - pos)%nat in
      firstn gap text
      ++ GetSubstitution (m0 m) (firstn (index m) whole) (after m) repl
      ++ replaceMatches whole (index m + length (m0 m))
           (skipn (gap + length (m0 m)) text) ms' repl
  end.

Definition replaceAllRegex (r : regex) (text repl : jsstring) : jsstring :=
  replaceMatches text 0 text (matchAll r 0 text) repl.

(** The literal [/\n/g]. *)
Definition lineFeed : regex := Chr (fun u => u =? 10).

(** [window.marked] is [None] when the library is not loaded; its [parse]
    may throw. *)
Definition safeMarkdown (marked : option (jsstring -> outcome jsstring))
    (text : jsstring) : jsstring :=
  match marked with
  | Some parse =>
      match parse text with
      | Returns html => html
      | Throws _ => replaceAllRegex lineFeed text (lit "<br/>")
      end
  | None => replaceAllRegex lineFeed text (lit "<br/>")
  end.

(** One code unit of the fallback rendering. *)
Definition lineBreak (u : Z) : jsstring :=
  if u =? 10 then lit "<br/>" else [u].

(* ================================================================= *)
(** ** Stored credentials: the [localStorage] hooks *)

(** [localStorage]: a map from keys to strings. *)
Definition Storage := jsstring -> option jsstring.

Definition getItem (key : jsstring) (st : Storage) : option jsstring := st key.

Definition setItem (key value : jsstring) (st : Storage) : Storage :=
  fun k => if jseqb k key then Some value else st k.

(** [localStorage.getItem(key) || ''] *)
Definition storedOr (key : jsstring) (st : Storage) : jsstring :=
  match getItem key st with
  | Some (u :: s) => u :: s
  | _ => []
  end.

(** The initial values of [githubToken] and [repoName]. *)
Definition initialCredentials (st : Storage) : jsstring * jsstring :=
  (storedOr (lit "gh_token") st, storedOr (lit "gh_repo") st).

(** The effect that runs when one of the two changes. *)
Definition persistCredentials (githubToken repoName : jsstring) (st : Storage)
  : Storage :=
  setItem (lit "gh_repo") repoName (setItem (lit "gh_token") githubToken st).

(* ================================================================= *)
(** ** Notions used in the statements on the scan of a text *)

(** The state [y] lies at or after the state [x] in the input. *)
Definition reaches (x y : MatchState) : Prop :=
  exists consumed, rest x = consumed ++ rest y.

(** The match [m] is where it says in [text]: [m0 m] is the text at
    [index m] and [after m] what follows it. *)
Definition located (text : jsstring) (m : Match) : Prop :=
  firstn (length (m0 m)) (skipn (index m) text) = m0 m
  /\ skipn (index m + length (m0 m)) text = after m.

(** The matches start at or after [pos], each at or after the end of the
    one before. *)
Fixpoint ordered (pos : nat) (ms : list Match) : bool :=
  match ms with
  | [] => true
  | m :: ms' =>
      (pos <=? index m)%nat && ordered (index m + length (m0 m)) ms'
  end.

(** Position [j] is the start of the match [m] or lies inside it. *)
Definition covers (m : Match) (j : nat) : Prop :=
  (index m <= j)%nat /\ ((j < index m + length (m0 m))%nat \/ j = index m).

(** The files the [forEach] of [extractFiles] builds from the matches,
    the first with the identifier of rank [k]. *)
Fixpoint filesFrom (rnd : nat -> jsstring) (k : nat) (ms : list Match)
  : list ProjectFile :=
  match ms with
  | [] => []
  | m :: ms' => fileOfMatch (rnd k) m :: filesFrom rnd (S k) ms'
  end.

(** What the parser guarantees of every file it returns. *)
Definition tidyFile (f : ProjectFile) : Prop :=
  name f <> [] /\ forallb isPathChar (name f) = true
  /\ language f <> [] /\ forallb isWord (language f) = true
  /\ trim (content f) = content f.

(** The match [m] is a well-formed block [b] with its captures. *)
Definition isBlockMatch (m : Match) : Prop :=
  exists b, wellFormedBlock b = true /\ m0 m = blockText b
            /\ groups m = [Some (path b); tagCapture b; Some (indent b ++ code b)].

(** No well-formed block starts anywhere in [text]. *)
Definition noBlock (text : jsstring) : Prop :=
  forall j b more, skipn j text = blockText b ++ more -> wellFormedBlock b = false.

(* ================================================================= *)
(** ** Notions used in the statements on the merge *)

(** The entry a lookup by the name of [nf] finds: the first one whose
    lower-cased name is that of [nf]. *)
Definition entryFor (nf : ProjectFile) (l : list ProjectFile)
  : option ProjectFile :=
  find (fun f => sameName f nf) l.

(** [f] bears the name of no entry of [batch]. *)
Definition untouched (batch : list ProjectFile) (f : ProjectFile) : bool :=
  negb (existsb (fun g => sameName f g) batch).

(** What a merge step does when the name is known: the first entry of
    that name takes the content of [nf]. *)
Fixpoint overwrite (nf : ProjectFile) (l : list ProjectFile)
  : list ProjectFile :=
  match l with
  | [] => []
  | f :: l' =>
      if sameName f nf then setContent (content nf) f :: l'
      else f :: overwrite nf l'
  end.

(* ================================================================= *)
(** ** Notions used in the statements on the synchronizer and encoder *)


(** What the reader of a write request recovers of its content. *)
Definition decodedContent (r : Request) : option jsstring :=
  match body r with
  | Some b => decodeTransport (content64 b)
  | None => None
  end.

(** Code units of a JavaScript string. *)
Definition isCodeUnit (u : Z) : Prop := 0 <= u < 65536.

(** A character of the base64 alphabet, or the padding sign. *)
Definition isBase64Char (c : Z) : Prop := b64Index c <> None \/ c = 61.

(* ================================================================= *)
(** ** Notions used in the statements on the preview *)

(** The files the preview reads besides the HTML file. *)
Definition isAsset (f : ProjectFile) : bool :=
  hasExt ".css" f || hasExt ".js" f.

(* ================================================================= *)
(** ** Further concrete inputs *)

(** The letters h and i followed by an unpaired high surrogate. *)
Definition exLone : jsstring := [104; 105; 55296].

(** The block of [exReply]. *)
Definition exBlockReply : Block :=
  mkBlock (lit "[FILE:") (lit " ") (lit "A.JS") [10] (lit "javascript") [] 10
          [] (lit "let a = 2;" ++ [10]).

(* ================================================================= *)
(** * Properties *)

(** ** Strings *)

Lemma jseqb_spec (a b : jsstring) : jseqb a b = true <-> a = b.
Proof.
  revert b; induction a as [|x a IH]; intros [|y b]; simpl; split;
    try congruence; try reflexivity.
  - rewrite andb_true_iff, Z.eqb_eq, IH. intros [-> ->]; reflexivity.
  - intros [= -> ->]. rewrite andb_true_iff, Z.eqb_eq, IH. auto.
Qed.

Lemma jseqb_refl (a : jsstring) : jseqb a a = true.
Proof. apply jseqb_spec; reflexivity. Qed.

(** ** Transport encoder: the [try]/[catch] wrapper *)

Section EncoderFacts.

Variable encode : jsstring -> outcome (list Z).
Variable b2a : jsstring -> outcome jsstring.

Lemma toBase64_returns (str : jsstring) :
  toBase64 encode b2a str = Returns (encodedContent encode b2a str).
Proof.
  unfold toBase64, encodedContent, tryCatch.
  destruct (toBase64_try encode b2a str); reflexivity.
Qed.


End EncoderFacts.

(** ** Repository synchronizer *)

Section SyncFacts.

Variable encode : jsstring -> outcome (list Z).
Variable b2a : jsstring -> outcome jsstring.
Variable remote : list Request -> Request -> outcome Response.
Variables githubToken repoName : jsstring.

Local Abbreviation getReq := (getRequest githubToken repoName).
Local Abbreviation putReq := (putRequest githubToken repoName).
Local Abbreviation pushOne := (pushFile encode b2a remote githubToken repoName).
Local Abbreviation writeFor := (writeOf encode b2a remote githubToken repoName).
Local Abbreviation requestsFor :=
  (requestsOf encode b2a remote githubToken repoName).

Lemma truthy_idem (v : option jsstring) : truthy (truthy v) = truthy v.
Proof. destruct v as [[|u s]|]; reflexivity. Qed.

Lemma putRequest_truthy (file : ProjectFile) (c : jsstring) (v : option jsstring) :
  putReq file c (truthy v) = putReq file c v.
Proof. unfold putRequest. rewrite truthy_idem. reflexivity. Qed.

(** The lookup never throws and adds nothing but its request. *)
Lemma lookupSha_run (file : ProjectFile) (w : World) :
  exists sha,
    lookupSha remote githubToken repoName file w
      = (Returns sha, logged w [getReq file])
    /\ truthy sha = capturedSha (remote (netlog w) (getReq file)).
Proof.
  unfold lookupSha, tryCatchIO, bind, fetch, liftO, ret, capturedSha, logged.
  simpl.
  destruct (remote (netlog w) (getReq file)) as [check|e]; simpl.
  - destruct (ok check); simpl.
    + destruct (json check) as [data|e]; simpl; eauto.
    + eauto.
  - eauto.
Qed.

(** One iteration: exactly a lookup and a write are issued; the verdict
    is that of the write alone. *)
Lemma pushFile_run (file : ProjectFile) (w : World) :
  pushOne file w =
    (writeVerdict file (remote (netlog w ++ [getReq file]) (writeFor file w)),
     logged w [getReq file; writeFor file w]).
Proof.
  destruct (lookupSha_run file w) as [sha [Hrun Hsha]].
  unfold pushFile, bind at 1. rewrite Hrun.
  unfold bind at 1, liftO. rewrite toBase64_returns.
  unfold writeOf. rewrite <- Hsha, putRequest_truthy.
  unfold bind, fetch, logged, writeVerdict, throw, ret, liftO; simpl.
  rewrite <- app_assoc; simpl.
  destruct (remote (netlog w ++ _) _) as [push|e]; simpl; [|reflexivity].
  destruct (ok push); simpl; [reflexivity|].
  destruct (json push); reflexivity.
Qed.

Lemma logged_logged (w : World) (a b : list Request) :
  logged (logged w a) b = logged w (a ++ b).
Proof. unfold logged; simpl. rewrite app_assoc. reflexivity. Qed.

Lemma logged_nil (w : World) : logged w [] = w.
Proof. destruct w; unfold logged; simpl. rewrite app_nil_r. reflexivity. Qed.

Lemma forOf_ok_log (files : list ProjectFile) (w w1 : World) :
  forOf files pushOne w = (Returns tt, w1) ->
  w1 = logged w (requestsFor files w).
Proof.
  revert w. induction files as [|f files IH]; intros w H; simpl in *.
  - unfold ret in H. injection H as <-. symmetry. apply logged_nil.
  - unfold bind in H. rewrite pushFile_run in H.
    destruct (writeVerdict _ _); [|discriminate].
    apply IH in H. rewrite H, logged_logged. reflexivity.
Qed.

Lemma forOf_app (pre post : list ProjectFile) (w w1 : World) :
  forOf pre pushOne w = (Returns tt, w1) ->
  forOf (pre ++ post) pushOne w = forOf post pushOne w1.
Proof.
  revert w. induction pre as [|f pre IH]; intros w H; simpl in *.
  - unfold ret in H. injection H as <-. reflexivity.
  - unfold bind in *. destruct (pushOne f w) as [[[]|e] w']; [|discriminate].
    apply IH. exact H.
Qed.

(** The loop stops at the first write whose verdict is an exception. *)
Lemma forOf_abort (pre post : list ProjectFile) (f : ProjectFile)
    (w w1 : World) (e : jsstring) :
  forOf pre pushOne w = (Returns tt, w1) ->
  writeVerdict f (remote (netlog w1 ++ [getReq f]) (writeFor f w1)) = Throws e ->
  forOf (pre ++ f :: post) pushOne w
    = (Throws e, logged w1 [getReq f; writeFor f w1]).
Proof.
  intros Hpre Hf. rewrite (forOf_app pre (f :: post) w w1 Hpre). simpl.
  unfold bind. rewrite pushFile_run, Hf. reflexivity.
Qed.

Lemma sync_nonempty (files : list ProjectFile) (w : World) :
  isEmpty githubToken = false -> isEmpty repoName = false ->
  files <> [] ->
  syncToGithub encode b2a remote githubToken repoName files w =
    match forOf files pushOne (pushing w) with
    | (Returns _, w') =>
        (Returns tt, mkWorld (netlog w') (alerts w' ++ [successNotice])
                             (showSettings w') false)
    | (Throws e, w') =>
        (Returns tt, mkWorld (netlog w') (alerts w' ++ [errorNotice e])
                             (showSettings w') false)
    end.
Proof.
  intros Ht Hr Hf. unfold syncToGithub. rewrite Ht, Hr. simpl.
  destruct files as [|f files]; [congruence|].
  unfold bind at 1, setIsPushing at 1. fold (pushing w).
  unfold tryFinally, tryCatchIO. simpl length. simpl Nat.eqb. cbv iota.
  unfold bind at 1, ret at 1. unfold bind at 1.
  destruct (forOf (f :: files) pushOne (pushing w)) as [[[]|e] w']; reflexivity.
Qed.

(** A run in which the write of [f] is the first to fail. *)
Lemma sync_abort_run (pre post : list ProjectFile) (f : ProjectFile)
    (w w1 : World) (e : jsstring) :
  isEmpty githubToken = false -> isEmpty repoName = false ->
  forOf pre pushOne (pushing w) = (Returns tt, w1) ->
  writeVerdict f (remote (netlog w1 ++ [getReq f]) (writeFor f w1)) = Throws e ->
  syncToGithub encode b2a remote githubToken repoName (pre ++ f :: post) w =
    (Returns tt,
     mkWorld (netlog w ++ requestsFor pre (pushing w) ++ [getReq f; writeFor f w1])
             (alerts w ++ [errorNotice e]) (showSettings w) false).
Proof.
  intros Ht Hr Hpre Hf.
  rewrite sync_nonempty by (auto; destruct pre; discriminate).
  rewrite (forOf_abort pre post f (pushing w) w1 e Hpre Hf).
  apply forOf_ok_log in Hpre. subst w1. unfold logged, pushing; simpl.
  rewrite <- app_assoc. reflexivity.
Qed.

End SyncFacts.

Lemma isPrefix_app (s t : jsstring) : isPrefix s (s ++ t) = true.
Proof.
  induction s as [|u s IH]; simpl; [reflexivity|].
  rewrite Z.eqb_refl. exact IH.
Qed.

Lemma occursIn_app (s a b : jsstring) : occursIn s (a ++ s ++ b) = true.
Proof.
  induction a as [|u a IH]; simpl.
  - destruct (s ++ b) eqn:E; simpl.
    + destruct s; [reflexivity|discriminate].
    + rewrite <- E, isPrefix_app. reflexivity.
  - rewrite IH. apply orb_true_r.
Qed.

Lemma requestsOf_keys encode b2a remote githubToken repoName
    (files : list ProjectFile) (w : World) :
  map requestKey (requestsOf encode b2a remote githubToken repoName files w)
  = flat_map (fun g => [(GET, fileUrl repoName g); (PUT, fileUrl repoName g)])
             files.
Proof.
  revert w. induction files as [|f files IH]; intros w; simpl; [reflexivity|].
  rewrite IH. reflexivity.
Qed.

Lemma capturedSha_Some (answer : outcome Response) (s : jsstring) :
  capturedSha answer = Some s <->
  exists check data,
    answer = Returns check /\ ok check = true /\ json check = Returns data
    /\ json_sha data = Some s /\ s <> [].
Proof.
  unfold capturedSha. split.
  - destruct answer as [check|e]; [|discriminate].
    destruct (ok check) eqn:Hok; [|discriminate].
    destruct (json check) as [data|e] eqn:Hj; [|discriminate].
    destruct (json_sha data) as [[|u t]|] eqn:Hs; simpl; try discriminate.
    intros [= <-]. exists check, data. repeat split; auto. discriminate.
  - intros [check [data [-> [Hok [Hj [Hs Hne]]]]]].
    rewrite Hok, Hj, Hs. destruct s; [congruence|reflexivity].
Qed.

Lemma truthy_capturedSha (answer : outcome Response) :
  truthy (capturedSha answer) = capturedSha answer.
Proof.
  unfold capturedSha. destruct answer as [check|e]; [|reflexivity].
  destruct (ok check); [|reflexivity].
  destruct (json check); [|reflexivity]. apply truthy_idem.
Qed.

(** C9: with an empty token or an empty repository identifier the sync
    issues no request and only opens the settings prompt; with both set and
    an empty working set it issues no request and surfaces the
    nothing-to-send error, whose text differs from the write-failure
    fallback of any file. *)
Theorem sync_guards encode b2a remote (tok repo : jsstring) (u v : Z)
    (files : list ProjectFile) (file : ProjectFile) (w : World) :
  syncToGithub encode b2a remote [] repo files w
    = (Returns tt, mkWorld (netlog w) (alerts w) true (isPushing w))
  /\ syncToGithub encode b2a remote tok [] files w
    = (Returns tt, mkWorld (netlog w) (alerts w) true (isPushing w))
  /\ syncToGithub encode b2a remote (u :: tok) (v :: repo) [] w
    = (Returns tt, mkWorld (netlog w) (alerts w ++ [errorNotice nothingToSend])
                           (showSettings w) false)
  /\ jseqb nothingToSend (lit "Gagal push " ++ name file) = false.
Proof.
  split; [reflexivity|]. split; [|split; reflexivity].
  unfold syncToGithub. destruct tok; reflexivity.
Qed.

(** C7: whatever the lookup does, it yields a value, throws nothing and
    leaves the alerts untouched; the loop body then issues the write to
    the same URL, and this write carries a hash exactly when the lookup
    resolved, reported [ok], had a readable body and the body held a
    non-empty [sha]: then it carries this [sha], and in every other case
    (rejected lookup, answer not [ok], unreadable body, [sha] missing or
    empty) it carries none.  The verdict of the iteration is that of the
    write alone. *)
Theorem lookup_swallowed encode b2a remote (tok repo : jsstring)
    (file : ProjectFile) (w : World) :
  let lookup := getRequest tok repo file in
  let carried : option jsstring :=
    match remote (netlog w) lookup with
    | Returns check =>
        if ok check then
          match json check with
          | Returns data =>
              match json_sha data with
              | Some (u :: s) => Some (u :: s)
              | _ => None
              end
          | Throws _ => None
          end
        else None
    | Throws _ => None
    end in
  (exists sha,
     lookupSha remote tok repo file w
     = (Returns sha,
        mkWorld (netlog w ++ [lookup]) (alerts w) (showSettings w) (isPushing w)))
  /\ exists write,
       pushFile encode b2a remote tok repo file w
       = (writeVerdict file (remote (netlog w ++ [lookup]) write),
          mkWorld (netlog w ++ [lookup; write]) (alerts w) (showSettings w)
                  (isPushing w))
       /\ method write = PUT /\ url write = url lookup
       /\ option_map shaRef (body write) = Some carried.
Proof.
  intros lookup carried. split.
  - destruct (lookupSha_run remote tok repo file w) as [sha [Hrun _]].
    exists sha. exact Hrun.
  - exists (writeOf encode b2a remote tok repo file w).
    split; [apply pushFile_run|]. split; [reflexivity|]. split; [reflexivity|].
    unfold writeOf, putRequest. cbn [body option_map shaRef]. f_equal.
    fold lookup. unfold carried, truthy, capturedSha.
    destruct (remote (netlog w) lookup) as [check|e]; [|reflexivity].
    destruct (ok check); [|reflexivity].
    destruct (json check) as [data|e]; [|reflexivity].
    destruct (json_sha data) as [[|u s]|]; reflexivity.
Qed.

(** C6: when the writes of the files before [f] succeed and the write of
    [f] fails, the sync has issued one lookup and one write per file up to
    and including [f], in order, nothing for the files after [f], no
    request undoing an earlier write, and it leaves behind only the error
    alert and the cleared in-flight flag. *)
Theorem sync_fail_fast encode b2a remote (tok repo : jsstring)
    (pre post : list ProjectFile) (f : ProjectFile) (w w1 : World)
    (e : jsstring) :
  isEmpty tok = false -> isEmpty repo = false ->
  forOf pre (pushFile encode b2a remote tok repo) (pushing w) = (Returns tt, w1) ->
  writeVerdict f (remote (netlog w1 ++ [getRequest tok repo f])
                         (writeOf encode b2a remote tok repo f w1)) = Throws e ->
  exists reqs,
    syncToGithub encode b2a remote tok repo (pre ++ f :: post) w
      = (Returns tt, mkWorld (netlog w ++ reqs) (alerts w ++ [errorNotice e])
                             (showSettings w) false)
    /\ map requestKey reqs
       = flat_map (fun g => [(GET, fileUrl repo g); (PUT, fileUrl repo g)])
                  (pre ++ [f]).
Proof.
  intros Ht Hr Hpre Hf.
  exists (requestsOf encode b2a remote tok repo pre (pushing w)
          ++ [getRequest tok repo f; writeOf encode b2a remote tok repo f w1]).
  split.
  - apply sync_abort_run; assumption.
  - rewrite map_app, requestsOf_keys, flat_map_app. reflexivity.
Qed.

(** C4 (amended): when the write of [f] is answered not-ok, the sync stops
    there and the alert carries the remote message alone when the body has
    a non-empty one, the fallback naming [f] when it has none, and the
    reading failure when the body cannot be read. *)
Theorem write_failure_message encode b2a remote (tok repo : jsstring)
    (pre post : list ProjectFile) (f : ProjectFile) (w w1 : World)
    (push : Response) :
  isEmpty tok = false -> isEmpty repo = false ->
  forOf pre (pushFile encode b2a remote tok repo) (pushing w) = (Returns tt, w1) ->
  remote (netlog w1 ++ [getRequest tok repo f])
         (writeOf encode b2a remote tok repo f w1) = Returns push ->
  ok push = false ->
  let surfaced :=
    match json push with
    | Returns errData =>
        match json_message errData with
        | Some (u :: m) => u :: m
        | _ => lit "Gagal push " ++ name f
        end
    | Throws e => e
    end in
  syncToGithub encode b2a remote tok repo (pre ++ f :: post) w
    = (Returns tt,
       mkWorld (netlog w ++ requestsOf encode b2a remote tok repo pre (pushing w)
                  ++ [getRequest tok repo f; writeOf encode b2a remote tok repo f w1])
               (alerts w ++ [errorNotice surfaced]) (showSettings w) false)
  /\ occursIn (name f) (errorNotice (lit "Gagal push " ++ name f)) = true.
Proof.
  intros Ht Hr Hpre Hans Hok surfaced. split.
  - apply sync_abort_run; try assumption.
    rewrite Hans. unfold writeVerdict. rewrite Hok. unfold surfaced.
    destruct (json push) as [errData|e]; [|reflexivity].
    unfold pushFailure, truthy.
    destruct (json_message errData) as [[|u m]|]; reflexivity.
  - unfold errorNotice.
    rewrite <- (app_nil_r (name f)) at 2.
    rewrite !app_assoc, <- app_assoc. apply occursIn_app.
Qed.


(** *** A concrete run: three files, the second write refused *)

Lemma sync_fail_fast_witness :
  exists reqs,
    syncToGithub TextEncoder_encode btoa exRemote exToken exRepo
                 ([exFileA] ++ exFileB :: [exFileC]) exWorld
      = (Returns tt, mkWorld (netlog exWorld ++ reqs)
                       (alerts exWorld ++ [errorNotice (lit "Bad credentials")])
                       (showSettings exWorld) false)
    /\ map requestKey reqs
       = flat_map (fun g => [(GET, fileUrl exRepo g); (PUT, fileUrl exRepo g)])
                  ([exFileA] ++ [exFileB]).
Proof.
  apply (sync_fail_fast TextEncoder_encode btoa exRemote exToken exRepo
           [exFileA] [exFileC] exFileB exWorld
           (snd (forOf [exFileA]
                   (pushFile TextEncoder_encode btoa exRemote exToken exRepo)
                   (pushing exWorld)))
           (lit "Bad credentials")).
  - reflexivity.
  - reflexivity.
  - vm_compute. reflexivity.
  - vm_compute. reflexivity.
Defined.

Lemma write_failure_message_witness :
  syncToGithub TextEncoder_encode btoa exRemote exToken exRepo
               ([exFileA] ++ exFileB :: [exFileC]) exWorld
    = (Returns tt,
       mkWorld (netlog exWorld
                 ++ requestsOf TextEncoder_encode btoa exRemote exToken exRepo
                      [exFileA] (pushing exWorld)
                 ++ [getRequest exToken exRepo exFileB;
                     writeOf TextEncoder_encode btoa exRemote exToken exRepo exFileB
                       (snd (forOf [exFileA]
                          (pushFile TextEncoder_encode btoa exRemote exToken exRepo)
                          (pushing exWorld)))])
               (alerts exWorld ++ [errorNotice (lit "Bad credentials")])
               (showSettings exWorld) false)
  /\ occursIn (name exFileB) (errorNotice (lit "Gagal push " ++ name exFileB)) = true.
Proof.
  apply (write_failure_message TextEncoder_encode btoa exRemote exToken exRepo
           [exFileA] [exFileC] exFileB exWorld
           (snd (forOf [exFileA]
                   (pushFile TextEncoder_encode btoa exRemote exToken exRepo)
                   (pushing exWorld)))
           (mkResponse false (Returns (mkJson None (Some (lit "Bad credentials")))))).
  - reflexivity.
  - reflexivity.
  - vm_compute. reflexivity.
  - vm_compute. reflexivity.
  - reflexivity.
Defined.

(** C4, as stated, fails: the remote message is present and the surfaced
    error consists of it alone, without the name of the failing file. *)
Lemma write_failure_not_named :
  alerts (snd (syncToGithub TextEncoder_encode btoa exRemote exToken exRepo
                 [exFileA; exFileB; exFileC] exWorld))
    = [errorNotice (lit "Bad credentials")]
  /\ occursIn (name exFileB) (errorNotice (lit "Bad credentials")) = false.
Proof. split; vm_compute; reflexivity. Qed.


(** ** File-list merge *)

Lemma sameName_key (a b : ProjectFile) :
  sameName a b = true <-> nameKey a = nameKey b.
Proof. apply jseqb_spec. Qed.

Lemma findIndex_range {A : Type} (p : A -> bool) (l : list A) :
  findIndex p l = -1 \/ 0 <= findIndex p l < Z.of_nat (length l).
Proof.
  induction l as [|a l IH]; simpl; [left; reflexivity|].
  destruct (p a); [right; lia|].
  destruct IH as [-> | IH]; [left; reflexivity|].
  destruct (Z.gtb_spec (findIndex p l) (-1)); [right|left]; lia.
Qed.

Lemma findIndex_absent {A : Type} (p : A -> bool) (l : list A) :
  findIndex p l = -1 <-> forall a, In a l -> p a = false.
Proof.
  induction l as [|a l IH]; simpl.
  - split; [intros _ b []|reflexivity].
  - destruct (p a) eqn:Hp.
    + split; [discriminate|]. intros Hall.
      rewrite (Hall a) in Hp by auto. discriminate.
    + destruct (findIndex_range p l) as [E|E].
      * rewrite E. simpl. split; [|reflexivity].
        intros _ b [<-|Hb]; [exact Hp|]. apply IH; assumption.
      * destruct (Z.gtb_spec (findIndex p l) (-1)); [|lia].
        split; [lia|]. intros Hall.
        assert (findIndex p l = -1) by (apply IH; auto). lia.
Qed.

Lemma findIndex_found {A : Type} (p : A -> bool) (l : list A) (i : nat) :
  findIndex p l = Z.of_nat i ->
  exists a, nth_error l i = Some a /\ p a = true
            /\ forall j b, (j < i)%nat -> nth_error l j = Some b -> p b = false.
Proof.
  revert i. induction l as [|a l IH]; intros i; simpl.
  - lia.
  - destruct (p a) eqn:Hp.
    + intros Hi. assert (i = O) by lia. subst i. exists a.
      split; [reflexivity|]. split; [exact Hp|]. intros j b Hj. lia.
    + destruct (Z.gtb_spec (findIndex p l) (-1)); [|lia].
      intros Hi. destruct i as [|i]; [lia|].
      destruct (IH i) as [b [Hn [Hb Hlt]]]; [lia|].
      exists b. split; [exact Hn|]. split; [exact Hb|].
      intros [|j] c Hj Hc; simpl in Hc.
      * injection Hc as <-. exact Hp.
      * apply (Hlt j); [lia|exact Hc].
Qed.

Lemma updateAt_split {A : Type} (g : A -> A) (l : list A) (i : nat) (a : A) :
  nth_error l i = Some a ->
  updateAt i g l = firstn i l ++ g a :: skipn (S i) l.
Proof.
  revert i. induction l as [|b l IH]; intros [|i] H; simpl in *; try discriminate.
  - injection H as ->. reflexivity.
  - rewrite (IH i H). reflexivity.
Qed.

Lemma updateAt_map {A B : Type} (h : A -> B) (g : A -> A) (l : list A) (i : nat) :
  (forall a, h (g a) = h a) -> map h (updateAt i g l) = map h l.
Proof.
  intros Hg. revert i. induction l as [|b l IH]; intros [|i]; simpl;
    try reflexivity.
  - rewrite Hg. reflexivity.
  - rewrite IH. reflexivity.
Qed.

(** One step either rewrites in place or appends; it never touches the
    identity of an entry. *)
Lemma mergeStep_cases (updated : list ProjectFile) (nf : ProjectFile) :
  (findIndex (fun f => sameName f nf) updated > -1
   /\ map identity (mergeStep updated nf) = map identity updated
   /\ map nameKey (mergeStep updated nf) = map nameKey updated)
  \/ (findIndex (fun f => sameName f nf) updated = -1
      /\ mergeStep updated nf = updated ++ [nf]).
Proof.
  unfold mergeStep.
  destruct (findIndex_range (fun f => sameName f nf) updated) as [E|E].
  - right. rewrite E. auto.
  - left. destruct (Z.gtb_spec (findIndex (fun f => sameName f nf) updated) (-1));
      [|lia].
    split; [lia|]. split; apply updateAt_map; reflexivity.
Qed.

Lemma mergeStep_unique (updated : list ProjectFile) (nf : ProjectFile) :
  uniqueNames updated -> uniqueNames (mergeStep updated nf).
Proof.
  unfold uniqueNames. intros H.
  destruct (mergeStep_cases updated nf) as [[_ [_ ->]]|[E ->]]; [exact H|].
  rewrite map_app. simpl.
  assert (Hnot : ~ In (nameKey nf) (map nameKey updated)).
  { intros Hin. apply in_map_iff in Hin. destruct Hin as [g [Hk Hg]].
    pose proof (proj1 (findIndex_absent _ _) E g Hg) as Hs. simpl in Hs.
    apply sameName_key in Hk. congruence. }
  clear E. induction (map nameKey updated) as [|k ks IH]; simpl.
  - constructor; [intros []|constructor].
  - inversion H as [|? ? Hk Hks]; subst. constructor.
    + rewrite in_app_iff. intros [Hin|[Heq|[]]]; [auto|].
      apply Hnot. left. symmetry. exact Heq.
    + apply IH; [exact Hks|]. intros Hin. apply Hnot. right. exact Hin.
Qed.

Lemma mergeFiles_unique (prev batch : list ProjectFile) :
  uniqueNames prev -> uniqueNames (mergeFiles prev batch).
Proof.
  unfold mergeFiles. revert prev.
  induction batch as [|nf batch IH]; intros prev H; simpl; [exact H|].
  apply IH, mergeStep_unique, H.
Qed.

Lemma mergeFiles_identity (prev batch : list ProjectFile) :
  exists added,
    (forall f, In f added -> In f batch)
    /\ map identity (mergeFiles prev batch)
       = map identity prev ++ map identity added.
Proof.
  unfold mergeFiles. revert prev.
  induction batch as [|nf batch IH]; intros prev; simpl.
  - exists []. split; [intros f []|]. rewrite app_nil_r. reflexivity.
  - destruct (IH (mergeStep prev nf)) as [added [Hin Heq]].
    destruct (mergeStep_cases prev nf) as [[_ [Hid _]]|[_ Happ]].
    + exists added. split; [auto|]. rewrite Heq, Hid. reflexivity.
    + exists (nf :: added). split.
      * intros f [<-|Hf]; auto.
      * rewrite Heq, Happ, map_app, <- app_assoc. reflexivity.
Qed.

(** C1, as stated, fails: the entry matched by a redeclared name has its
    content replaced but keeps its own language tag. *)
Lemma merge_keeps_language :
  mergeFiles [exFileA] [exRedeclared]
    = [mkFile (id exFileA) (name exFileA) (language exFileA) (content exRedeclared)]
  /\ jseqb (language exFileA) (language exRedeclared) = false.
Proof. split; vm_compute; reflexivity. Qed.

(** ** Active selection *)

Lemma handleResponse_active (rnd : nat -> jsstring) (text : jsstring)
    (st : AppState) (first : ProjectFile) (more : list ProjectFile)
    (clean : jsstring) :
  extractFiles rnd text = (first :: more, clean) ->
  activeFileId (handleResponse rnd text st) = Some (id first)
  /\ projectFiles (handleResponse rnd text st)
     = mergeFiles (projectFiles st) (first :: more).
Proof. intros H. unfold handleResponse. rewrite H. split; reflexivity. Qed.

(** C5 at a reply that redeclares an existing file: the active identifier
    is the fresh id of the batch's first file, the entry that received the
    file keeps its old id, and no entry of the working set carries the
    active identifier. *)
Theorem active_after_redeclaration :
  let st := handleResponse exIds exReply exApp in
  activeFileId st = Some (exIds 0)
  /\ projectFiles st
     = [mkFile (id exFileA) (name exFileA) (language exFileA) (lit "let a = 2;")]
  /\ activeFile st = None.
Proof. vm_compute. repeat split. Qed.

(* ================================================================= *)
(** ** The matcher on classes and literals *)

Lemma matcher_litI (p s : jsstring) cs (c : Continuation) :
  matcher (litI p) (mkState s cs) c
  = if prefixI p s then c (mkState (skipn (length p) s) cs) else None.
Proof.
  revert s. induction p as [|x p IH]; intros s; simpl; [reflexivity|].
  destruct s as [|u s]; simpl; [reflexivity|].
  destruct (Canonicalize u =? Canonicalize x); simpl; [apply IH|reflexivity].
Qed.

Lemma sameEnd_cons (u : Z) (s : jsstring) cs cs' :
  sameEnd (mkState (u :: s) cs) (mkState s cs') = false.
Proof. unfold sameEnd; simpl. apply Nat.eqb_neq. lia. Qed.

Lemma repeat_greedy_class (p : Z -> bool) (fuel : nat) (s : jsstring) cs
    (c : Continuation) :
  (length s < fuel)%nat ->
  RepeatMatcher (matcher (Chr p)) true [] fuel (mkState s cs) c
  = greedyClass p c cs s.
Proof.
  revert s. induction fuel as [|fuel IH]; intros s Hlen; [lia|].
  destruct s as [|u s]; simpl; [reflexivity|].
  destruct (p u); [|reflexivity].
  rewrite sameEnd_cons. unfold clearCaptures; simpl.
  rewrite IH by (simpl in Hlen; lia). reflexivity.
Qed.

Lemma repeat_lazy_class (p : Z -> bool) (fuel : nat) (s : jsstring) cs
    (c : Continuation) :
  (length s < fuel)%nat ->
  RepeatMatcher (matcher (Chr p)) false [] fuel (mkState s cs) c
  = lazyClass p c cs s.
Proof.
  revert s. induction fuel as [|fuel IH]; intros s Hlen; [lia|].
  destruct s as [|u s]; simpl.
  - destruct (c (mkState [] cs)); reflexivity.
  - destruct (c (mkState (u :: s) cs)); [reflexivity|].
    destruct (p u); [|reflexivity].
    rewrite sameEnd_cons. apply IH. simpl in Hlen. lia.
Qed.

Lemma matcher_star_class (greedy : bool) (p : Z -> bool) (s : jsstring) cs
    (c : Continuation) :
  matcher (Star greedy (Chr p)) (mkState s cs) c
  = if greedy then greedyClass p c cs s else lazyClass p c cs s.
Proof.
  change (matcher (Star greedy (Chr p)) (mkState s cs) c)
    with (RepeatMatcher (matcher (Chr p)) greedy [] (S (length s))
            (mkState s cs) c).
  destruct greedy.
  - apply repeat_greedy_class. lia.
  - apply repeat_lazy_class. lia.
Qed.

(** A greedy class repetition stops at the first non-member when the
    continuation accepts there. *)
Lemma greedyClass_max (p : Z -> bool) (c : Continuation) cs
    (run r : jsstring) (z : MatchState) :
  forallb p run = true ->
  match r with [] => true | u :: _ => negb (p u) end = true ->
  c (mkState r cs) = Some z ->
  greedyClass p c cs (run ++ r) = Some z.
Proof.
  intros Hrun Hr Hc. induction run as [|u run IH]; simpl in *.
  - destruct r as [|v r]; simpl; [exact Hc|].
    destruct (p v); [discriminate|exact Hc].
  - apply andb_true_iff in Hrun. destruct Hrun as [-> Hrun].
    rewrite (IH Hrun). reflexivity.
Qed.

Lemma greedyClass_none (p : Z -> bool) (c : Continuation) cs (s : jsstring) :
  (forall j, c (mkState (skipn j s) cs) = None) ->
  greedyClass p c cs s = None.
Proof.
  induction s as [|u s IH]; intros H; simpl.
  - apply (H O).
  - rewrite IH by (intros j; apply (H (S j))).
    pose proof (H O) as H0. simpl in H0. rewrite H0.
    destruct (p u); reflexivity.
Qed.

(** Over the class of all code units the greedy repetition hands over at
    the last position where the continuation accepts. *)
Lemma greedyClass_last (p : Z -> bool) (c : Continuation) cs
    (a s : jsstring) (z : MatchState) :
  forallb p a = true ->
  c (mkState s cs) = Some z ->
  (forall j, c (mkState (skipn (S j) s) cs) = None) ->
  greedyClass p c cs (a ++ s) = Some z.
Proof.
  intros Ha Hc Hlater.
  assert (Hs : greedyClass p c cs s = Some z).
  { destruct s as [|u s]; simpl; [exact Hc|].
    rewrite (greedyClass_none p c cs s) by (intros j; apply (Hlater j)).
    rewrite Hc. destruct (p u); reflexivity. }
  induction a as [|u a IH]; simpl in *; [exact Hs|].
  apply andb_true_iff in Ha. destruct Ha as [-> Ha].
  rewrite (IH Ha). reflexivity.
Qed.

Lemma anyUnit_all (s : jsstring) : forallb anyUnit s = true.
Proof.
  induction s as [|u s IH]; simpl; [reflexivity|].
  rewrite IH. unfold anyUnit. rewrite orb_negb_r. reflexivity.
Qed.

Lemma firstOccI_skip (p pre t : jsstring) :
  firstOccI p (pre ++ t) = Some (length pre) ->
  prefixI p t = true
  /\ forall a b, pre = a ++ b -> b <> [] -> prefixI p (b ++ t) = false.
Proof.
  induction pre as [|u pre IH]; simpl.
  - intros H. split.
    + destruct t as [|v t]; simpl in H |- *.
      * destruct (prefixI p []); [reflexivity|discriminate].
      * destruct (prefixI p (v :: t)); [reflexivity|].
        destruct (firstOccI p t); discriminate.
    + intros a b Hab Hb. destruct a; destruct b; simpl in Hab; congruence.
  - destruct (prefixI p (u :: pre ++ t)) eqn:Hp; [discriminate|].
    destruct (firstOccI p (pre ++ t)) as [i|] eqn:Hocc; [|discriminate].
    simpl. intros [= Hi]. subst i. destruct (IH eq_refl) as [Ht Hpre].
    split; [exact Ht|].
    intros [|v a] b Hab Hb; simpl in Hab.
    + subst b. exact Hp.
    + injection Hab as -> Hab. apply (Hpre a b Hab Hb).
Qed.

Lemma firstOccI_none (p s : jsstring) :
  firstOccI p s = None -> forall j, prefixI p (skipn j s) = false.
Proof.
  induction s as [|u s IH]; simpl.
  - destruct (prefixI p []) eqn:E; [discriminate|].
    intros _ j. destruct j; exact E.
  - destruct (prefixI p (u :: s)) eqn:E; [discriminate|].
    destruct (firstOccI p s); [discriminate|].
    intros _ [|j]; [exact E|]. simpl. apply IH. reflexivity.
Qed.

Lemma lastOccI_none (p s : jsstring) :
  lastOccI p s = None -> forall j, prefixI p (skipn j s) = false.
Proof.
  induction s as [|u s IH]; simpl.
  - destruct (prefixI p []) eqn:E; [discriminate|].
    intros _ j. destruct j; exact E.
  - destruct (lastOccI p s); [discriminate|].
    destruct (prefixI p (u :: s)) eqn:E; [discriminate|].
    intros _ [|j]; [exact E|]. simpl. apply IH. reflexivity.
Qed.

Lemma lastOccI_at (p a s : jsstring) :
  p <> [] ->
  lastOccI p (a ++ s) = Some (length a) ->
  prefixI p s = true /\ forall j, prefixI p (skipn (S j) s) = false.
Proof.
  intros Hp. induction a as [|u a IH]; simpl.
  - destruct s as [|v s]; simpl.
    + destruct p; [congruence|discriminate].
    + destruct (lastOccI p s) eqn:E; [discriminate|].
      destruct (prefixI p (v :: s)) eqn:E'; [|discriminate].
      intros _. split; [reflexivity|].
      intros j. apply (lastOccI_none p s E j).
  - destruct (lastOccI p (a ++ s)) as [i|] eqn:E.
    + intros [= Hi]. subst i. apply IH. reflexivity.
    + destruct (prefixI p (u :: a ++ s)); discriminate.
Qed.

Lemma matcher_seq (r1 r2 : regex) (x : MatchState) (c : Continuation) :
  matcher (Seq r1 r2) x c = matcher r1 x (fun y => matcher r2 y c).
Proof. reflexivity. Qed.

Lemma matcher_chr (p : Z -> bool) (u : Z) (t : jsstring) cs (c : Continuation) :
  matcher (Chr p) (mkState (u :: t) cs) c
  = if p u then c (mkState t cs) else None.
Proof. reflexivity. Qed.

Lemma matcher_chr_nil (p : Z -> bool) cs (c : Continuation) :
  matcher (Chr p) (mkState [] cs) c = None.
Proof. reflexivity. Qed.

Lemma matcher_group (i : nat) (r : regex) (x : MatchState) (c : Continuation) :
  matcher (Group i r) x c
  = matcher r x (fun y =>
      c (mkState (rest y)
           (setCapture i
              (Some (firstn (length (rest x) - length (rest y)) (rest x)))
              (captures y)))).
Proof. reflexivity. Qed.

Lemma exec_unfold (r : regex) (ncap i : nat) (s : jsstring) :
  exec r ncap i s
  = match matcher r (mkState s (repeat None ncap)) (fun y => Some y) with
    | Some y =>
        Some (mkMatch i (firstn (length s - length (rest y)) s) (captures y)
                      (rest y))
    | None =>
        match s with
        | [] => None
        | _ :: s' => exec r ncap (S i) s'
        end
    end.
Proof. destruct s; reflexivity. Qed.

(** [exec] passes over a prefix at no position of which the pattern
    matches. *)
Lemma exec_skip (r : regex) (ncap i : nat) (pre t : jsstring) :
  (forall a b, pre = a ++ b -> b <> [] ->
     matcher r (mkState (b ++ t) (repeat None ncap)) (fun y => Some y) = None) ->
  exec r ncap i (pre ++ t) = exec r ncap (i + length pre) t.
Proof.
  revert i. induction pre as [|u pre IH]; intros i H.
  - simpl. rewrite Nat.add_0_r. reflexivity.
  - rewrite exec_unfold.
    rewrite (H [] (u :: pre) eq_refl) by discriminate.
    simpl. rewrite IH.
    + f_equal. lia.
    + intros a b Hab Hb. apply (H (u :: a) b); [|exact Hb].
      simpl. rewrite Hab. reflexivity.
Qed.

Lemma exec_none (r : regex) (ncap i : nat) (s : jsstring) :
  (forall j, matcher r (mkState (skipn j s) (repeat None ncap))
                       (fun y => Some y) = None) ->
  exec r ncap i s = None.
Proof.
  revert i. induction s as [|u s IH]; intros i H.
  - rewrite exec_unfold. pose proof (H O) as H0. simpl in H0. rewrite H0.
    reflexivity.
  - rewrite exec_unfold. pose proof (H O) as H0. simpl in H0. rewrite H0.
    apply IH. intros j. apply (H (S j)).
Qed.

Lemma skipn_exact {A : Type} (a b : list A) (n : nat) :
  length a = n -> skipn n (a ++ b) = b.
Proof.
  intros <-. induction a as [|x a IH]; simpl; [reflexivity|exact IH].
Qed.

Lemma firstn_consumed {A : Type} (a b : list A) :
  firstn (length (a ++ b) - length b) (a ++ b) = a.
Proof.
  rewrite length_app. replace (length a + length b - length b)%nat
    with (length a) by lia.
  induction a as [|x a IH]; simpl; [reflexivity|].
  rewrite IH. reflexivity.
Qed.

(** ** Preview assembly: the body substring *)

(** The matcher at an opening tag that is followed by a closing tag, the
    last one of the text. *)
Lemma bodyRegex_at_tag (opening attrs inner closing post : jsstring) :
  prefixI openTag (opening ++ attrs ++ 62 :: inner ++ closing ++ post) = true ->
  length opening = 5%nat ->
  forallb notGt attrs = true ->
  prefixI closeTag (closing ++ post) = true ->
  length closing = 7%nat ->
  (forall j, prefixI closeTag (skipn (S j) (closing ++ post)) = false) ->
  matcher bodyRegex
    (mkState (opening ++ attrs ++ 62 :: inner ++ closing ++ post) [None])
    (fun y => Some y)
  = Some (mkState post [Some inner]).
Proof.
  intros Hopen Hlen Hattrs Hclose Hlen' Hlast.
  unfold bodyRegex. fold openTag closeTag.
  rewrite matcher_seq, matcher_litI, Hopen.
  rewrite (skipn_exact opening _ (length openTag)) by exact Hlen.
  rewrite matcher_seq, matcher_star_class.
  apply greedyClass_max; [exact Hattrs|reflexivity|].
  rewrite matcher_seq. unfold chI. rewrite matcher_chr.
  change (Canonicalize 62 =? Canonicalize 62) with true. cbv iota.
  rewrite matcher_seq, matcher_group, matcher_star_class.
  apply greedyClass_last; [apply anyUnit_all| |].
  - cbn [rest captures]. rewrite firstn_consumed.
    rewrite matcher_litI, Hclose.
    rewrite (skipn_exact closing _ (length closeTag)) by exact Hlen'.
    reflexivity.
  - intros j. rewrite matcher_litI. cbn [rest]. rewrite Hlast. reflexivity.
Qed.

(** Without a closing tag further on the pattern matches nowhere. *)
Lemma bodyRegex_no_close (t : jsstring) cs :
  (forall j, prefixI closeTag (skipn j t) = false) ->
  matcher bodyRegex (mkState t cs) (fun y => Some y) = None.
Proof.
  intros Hfree. unfold bodyRegex. fold openTag closeTag.
  rewrite matcher_seq, matcher_litI.
  destruct (prefixI openTag t); [|reflexivity].
  rewrite matcher_seq, matcher_star_class.
  apply greedyClass_none. intros j. rewrite matcher_seq. rewrite skipn_skipn.
  destruct (skipn (j + length openTag) t) as [|u t2] eqn:Et.
  - apply matcher_chr_nil.
  - unfold chI. rewrite matcher_chr.
    destruct (Canonicalize u =? Canonicalize 62); [|reflexivity].
    rewrite matcher_seq, matcher_group, matcher_star_class.
    apply greedyClass_none. intros j2. rewrite matcher_litI. cbn [rest].
    replace (skipn j2 t2) with (skipn (j2 + S (j + length openTag)) t).
    + rewrite Hfree. reflexivity.
    + rewrite <- skipn_skipn. replace (S (j + length openTag)) with
        (1 + (j + length openTag))%nat by lia.
      rewrite <- (skipn_skipn 1 (j + length openTag)), Et. reflexivity.
Qed.

Lemma bodyRegex_no_open (t : jsstring) cs :
  prefixI openTag t = false ->
  matcher bodyRegex (mkState t cs) (fun y => Some y) = None.
Proof.
  intros H. unfold bodyRegex. fold openTag.
  rewrite matcher_seq, matcher_litI, H. reflexivity.
Qed.

(** C2 (amended): the body substring is the text between the end of the
    first opening body tag and the LAST closing body tag of the file
    (case-insensitive, greedy); a file without an opening tag or without a
    closing tag is used whole. *)
Theorem body_extraction (pre opening attrs inner closing post other : jsstring) :
  let html := pre ++ opening ++ attrs ++ 62 :: inner ++ closing ++ post in
  (firstOccI openTag html = Some (length pre) ->
   length opening = 5%nat ->
   forallb notGt attrs = true ->
   lastOccI closeTag html
     = Some (length (pre ++ opening ++ attrs ++ 62 :: inner)) ->
   length closing = 7%nat ->
   bodyContent html = inner)
  /\ (firstOccI openTag other = None \/ lastOccI closeTag other = None ->
      bodyContent other = other).
Proof.
  intros html. split.
  - intros Hfirst Hlen Hattrs Hlast Hlen'.
    destruct (firstOccI_skip _ _ _ Hfirst) as [Hopen Hpre].
    assert (Hhtml : html = (pre ++ opening ++ attrs ++ 62 :: inner)
                           ++ closing ++ post).
    { unfold html. repeat (rewrite <- app_assoc; simpl). reflexivity. }
    rewrite Hhtml in Hlast.
    destruct (lastOccI_at closeTag _ _ ltac:(discriminate) Hlast)
      as [Hclose Hlater].
    unfold bodyContent, matchFirst, html.
    rewrite exec_skip.
    + rewrite exec_unfold.
      change (repeat None 1) with [@None jsstring].
      rewrite (bodyRegex_at_tag opening attrs inner closing post)
        by assumption.
      reflexivity.
    + intros a b Hab Hb. apply bodyRegex_no_open. apply (Hpre a b Hab Hb).
  - intros Hnone. unfold bodyContent, matchFirst.
    rewrite exec_none; [reflexivity|].
    intros j. destruct Hnone as [Hnone|Hnone].
    + apply bodyRegex_no_open. apply firstOccI_none. exact Hnone.
    + apply bodyRegex_no_close. intros j2. rewrite skipn_skipn.
      apply lastOccI_none. exact Hnone.
Qed.

Lemma body_extraction_witness :
  bodyContent exHtml = lit "Hello</body><p>x</p>".
Proof.
  apply (proj1 (body_extraction (lit "<html>") (lit "<BODY") (lit " class=app")
                  (lit "Hello</body><p>x</p>") (lit "</Body>") (lit "</html>")
                  [])); reflexivity.
Defined.

(** C2, as stated, fails: with two closing tags the body substring runs to
    the last one, not to the first. *)
Lemma body_runs_to_last_close :
  bodyContent (lit "<body>a</body>b</body>") = lit "a</body>b"
  /\ firstOccI closeTag (lit "<body>a</body>b</body>") = Some 7%nat
  /\ jseqb (bodyContent (lit "<body>a</body>b</body>")) (lit "a") = false.
Proof. repeat split. Qed.

(** Without a file whose name ends in [.html] there is no preview. *)
Lemma previewDoc_none (files : list ProjectFile) :
  find (hasExt ".html") files = None -> previewDoc files = None.
Proof. intros H. unfold previewDoc. rewrite H. reflexivity. Qed.

(** An HTML file [<body>Hello</body>] and a style sheet [color:red;]: the
    body substring is [Hello], one style block, no script block. *)
Lemma previewDoc_example :
  previewDoc [exFileC; mkFile (lit "m4n5b6v7c") (lit "site.CSS") (lit "css")
                              (lit "color:red;")]
  = Some (lit "<!DOCTYPE html><html><head><meta charset=" ++ dq ++ lit "UTF-8"
          ++ dq ++ lit "><meta name=" ++ dq ++ lit "viewport" ++ dq
          ++ lit " content=" ++ dq
          ++ lit "width=device-width, initial-scale=1.0" ++ dq
          ++ lit "><script src=" ++ dq ++ lit "https://cdn.tailwindcss.com"
          ++ dq ++ lit "></script>"
          ++ lit "<style>color:red;</style>" ++ lit "</head><body>"
          ++ lit "Hello" ++ lit "</body></html>").
Proof. vm_compute. reflexivity. Qed.

(* ================================================================= *)
(** ** Transport encoding: round trip *)

Lemma lor_add_low (hi lo k n : Z) :
  k = 2 ^ n -> 0 <= n -> 0 <= lo < k -> hi mod k = 0 -> Z.lor hi lo = hi + lo.
Proof.
  intros -> Hn Hlo Hhi.
  rewrite <- Z.lxor_lor; [symmetry; apply Z.add_nocarry_lxor|].
  all: apply Z.bits_inj'; intros i Hi; rewrite Z.land_spec, Z.bits_0.
  all: destruct (Z.lt_ge_cases i n) as [Hlt|Hge].
  all: try (rewrite <- (Z.mod_pow2_bits_low hi n i) by lia;
            rewrite Hhi, Z.bits_0; reflexivity).
  all: rewrite <- (Z.mod_small lo (2 ^ n)) by lia;
       rewrite Z.mod_pow2_bits_high by lia; apply andb_false_r.
Qed.

Lemma shiftr_div (x n k : Z) : k = 2 ^ n -> 0 <= n -> Z.shiftr x n = x / k.
Proof. intros -> H. apply Z.shiftr_div_pow2; lia. Qed.

Lemma shiftl_mul (x n k : Z) : k = 2 ^ n -> 0 <= n -> Z.shiftl x n = x * k.
Proof. intros -> H. apply Z.shiftl_mul_pow2; lia. Qed.

Lemma land_mod (x m k n : Z) :
  k = 2 ^ n -> m = k - 1 -> 0 <= n -> Z.land x m = x mod k.
Proof.
  intros -> -> H. rewrite <- Z.land_ones by lia. f_equal.
  rewrite Z.ones_equiv. lia.
Qed.

Ltac divmod := Z.div_mod_to_equations; lia.
Ltac side := solve [reflexivity | lia | divmod].

(** *** Base64 *)

Lemma b64Index_char (i : Z) :
  0 <= i < 64 -> b64Index (b64Char i) = Some i /\ (b64Char i =? 61) = false.
Proof.
  intros H. unfold b64Char.
  assert (E : exists n, (n < 64)%nat /\ i = Z.of_nat n).
  { exists (Z.to_nat i). split; lia. }
  destruct E as [n [Hn ->]]. rewrite Nat2Z.id.
  do 64 (destruct n as [|n]; [split; reflexivity|]). lia.
Qed.

(** The four sextets of a full group and the bytes rebuilt from them. *)
Lemma sextets_bounds (a b c : Z) :
  isByte a -> isByte b -> isByte c ->
  Z.shiftr a 2 = a / 4
  /\ Z.lor (Z.shiftl (Z.land a 3) 4) (Z.shiftr b 4) = a mod 4 * 16 + b / 16
  /\ Z.lor (Z.shiftl (Z.land b 15) 2) (Z.shiftr c 6) = b mod 16 * 4 + c / 64
  /\ Z.land c 63 = c mod 64
  /\ Z.shiftl (Z.land a 3) 4 = a mod 4 * 16
  /\ Z.shiftl (Z.land b 15) 2 = b mod 16 * 4.
Proof.
  unfold isByte. intros Ha Hb Hc.
  rewrite (shiftr_div a 2 4), (shiftr_div b 4 16), (shiftr_div c 6 64) by side.
  rewrite (land_mod a 3 4 2), (land_mod b 15 16 4), (land_mod c 63 64 6) by side.
  rewrite (shiftl_mul _ 4 16), (shiftl_mul _ 2 4) by side.
  rewrite (lor_add_low _ (b / 16) 16 4) by side.
  rewrite (lor_add_low _ (c / 64) 4 2) by side.
  repeat split.
Qed.

Lemma bytes_rebuilt (i1 i2 i3 i4 : Z) :
  0 <= i1 < 64 -> 0 <= i2 < 64 -> 0 <= i3 < 64 -> 0 <= i4 < 64 ->
  Z.lor (Z.shiftl i1 2) (Z.shiftr i2 4) = i1 * 4 + i2 / 16
  /\ Z.lor (Z.shiftl (Z.land i2 15) 4) (Z.shiftr i3 2) = i2 mod 16 * 16 + i3 / 4
  /\ Z.lor (Z.shiftl (Z.land i3 3) 6) i4 = i3 mod 4 * 64 + i4.
Proof.
  intros H1 H2 H3 H4.
  rewrite (shiftr_div i2 4 16), (shiftr_div i3 2 4) by side.
  rewrite (land_mod i2 15 16 4), (land_mod i3 3 4 2) by side.
  rewrite (shiftl_mul _ 2 4), (shiftl_mul _ 4 16), (shiftl_mul _ 6 64) by side.
  rewrite (lor_add_low _ (i2 / 16) 4 2) by side.
  rewrite (lor_add_low _ (i3 / 4) 16 4) by side.
  rewrite (lor_add_low _ i4 64 6) by side.
  repeat split.
Qed.

Lemma b64Decode_group (a b c : Z) (bs : list Z) :
  isByte a -> isByte b -> isByte c ->
  b64Decode (b64Encode (a :: b :: c :: bs))
  = option_map (fun r => a :: b :: c :: r) (b64Decode (b64Encode bs)).
Proof.
  intros Ha Hb Hc.
  destruct (sextets_bounds a b c Ha Hb Hc) as [E1 [E2 [E3 [E4 _]]]].
  unfold isByte in *.
  change (b64Encode (a :: b :: c :: bs)) with
    (b64Char (Z.shiftr a 2)
     :: b64Char (Z.lor (Z.shiftl (Z.land a 3) 4) (Z.shiftr b 4))
     :: b64Char (Z.lor (Z.shiftl (Z.land b 15) 2) (Z.shiftr c 6))
     :: b64Char (Z.land c 63) :: b64Encode bs).
  rewrite E1, E2, E3, E4.
  assert (B1 : 0 <= a / 4 < 64) by divmod.
  assert (B2 : 0 <= a mod 4 * 16 + b / 16 < 64) by divmod.
  assert (B3 : 0 <= b mod 16 * 4 + c / 64 < 64) by divmod.
  assert (B4 : 0 <= c mod 64 < 64) by divmod.
  destruct (b64Index_char _ B1) as [I1 _].
  destruct (b64Index_char _ B2) as [I2 _].
  destruct (b64Index_char _ B3) as [I3 _].
  destruct (b64Index_char _ B4) as [I4 N4].
  cbn [b64Decode]. rewrite I1, I2, I3, I4, N4.
  destruct (bytes_rebuilt _ _ _ _ B1 B2 B3 B4) as [R1 [R2 R3]].
  rewrite R1, R2, R3.
  replace (a / 4 * 4 + (a mod 4 * 16 + b / 16) / 16) with a by divmod.
  replace ((a mod 4 * 16 + b / 16) mod 16 * 16 + (b mod 16 * 4 + c / 64) / 4)
    with b by divmod.
  replace ((b mod 16 * 4 + c / 64) mod 4 * 64 + c mod 64) with c by divmod.
  destruct (b64Decode (b64Encode bs)); reflexivity.
Qed.

Lemma b64Decode_two (a b : Z) :
  isByte a -> isByte b -> b64Decode (b64Encode [a; b]) = Some [a; b].
Proof.
  intros Ha Hb.
  destruct (sextets_bounds a b 0 Ha Hb ltac:(unfold isByte; lia))
    as [E1 [E2 [_ [_ [_ E6]]]]].
  unfold isByte in *.
  cbn [b64Encode]. rewrite E1, E2, E6.
  assert (B1 : 0 <= a / 4 < 64) by divmod.
  assert (B2 : 0 <= a mod 4 * 16 + b / 16 < 64) by divmod.
  assert (B3 : 0 <= b mod 16 * 4 < 64) by divmod.
  destruct (b64Index_char _ B1) as [I1 _].
  destruct (b64Index_char _ B2) as [I2 _].
  destruct (b64Index_char _ B3) as [I3 N3].
  cbn [b64Decode]. rewrite I1, I2, I3, N3. change (61 =? 61) with true. cbv iota.
  destruct (bytes_rebuilt _ _ _ 0 B1 B2 B3 ltac:(lia)) as [R1 [R2 _]].
  rewrite R1, R2. f_equal. f_equal; [divmod|]. f_equal. divmod.
Qed.

Lemma b64Decode_one (a : Z) :
  isByte a -> b64Decode (b64Encode [a]) = Some [a].
Proof.
  intros Ha.
  destruct (sextets_bounds a 0 0 Ha ltac:(unfold isByte; lia)
              ltac:(unfold isByte; lia)) as [E1 [_ [_ [_ [E5 _]]]]].
  unfold isByte in *.
  cbn [b64Encode]. rewrite E1, E5.
  assert (B1 : 0 <= a / 4 < 64) by divmod.
  assert (B2 : 0 <= a mod 4 * 16 < 64) by divmod.
  destruct (b64Index_char _ B1) as [I1 _].
  destruct (b64Index_char _ B2) as [I2 _].
  cbn [b64Decode]. rewrite I1, I2. change (61 =? 61) with true. cbv iota.
  destruct (bytes_rebuilt _ _ 0 0 B1 B2 ltac:(lia) ltac:(lia)) as [R1 _].
  rewrite R1. f_equal. f_equal. divmod.
Qed.

Lemma b64_roundtrip (bs : list Z) :
  Forall isByte bs -> b64Decode (b64Encode bs) = Some bs.
Proof.
  remember (length bs) as n eqn:Hn. revert bs Hn.
  induction n as [n IH] using lt_wf_ind. intros bs Hn Hall.
  destruct bs as [|a [|b [|c bs]]].
  - reflexivity.
  - inversion Hall; subst. apply b64Decode_one; assumption.
  - inversion Hall as [|? ? Ha Hall']; subst.
    inversion Hall' as [|? ? Hb _]; subst.
    apply b64Decode_two; assumption.
  - inversion Hall as [|? ? Ha Hall']; subst.
    inversion Hall' as [|? ? Hb Hall'']; subst.
    inversion Hall'' as [|? ? Hc Hrest]; subst.
    rewrite b64Decode_group by assumption.
    rewrite (IH (length bs)) by (simpl; auto; lia). reflexivity.
Qed.

(** *** UTF-8 *)

Ltac zbool :=
  repeat match goal with
    | |- context [?a <=? ?b] =>
        first [rewrite (proj2 (Z.leb_le a b)) by divmod
              |rewrite (proj2 (Z.leb_gt a b)) by divmod]
    | |- context [?a <? ?b] =>
        first [rewrite (proj2 (Z.ltb_lt a b)) by divmod
              |rewrite (proj2 (Z.ltb_ge a b)) by divmod]
    end.

(** The bytes of a scalar value, arithmetically. *)
Lemma utf8Bytes_arith (cp : Z) :
  0 <= cp <= 1114111 ->
  utf8Bytes cp =
    if cp <? 128 then [cp]
    else if cp <? 2048 then [192 + cp / 64; 128 + cp mod 64]
    else if cp <? 65536 then
      [224 + cp / 4096; 128 + cp / 64 mod 64; 128 + cp mod 64]
    else [240 + cp / 262144; 128 + cp / 4096 mod 64; 128 + cp / 64 mod 64;
          128 + cp mod 64].
Proof.
  intros H. unfold utf8Bytes.
  rewrite (shiftr_div cp 6 64), (shiftr_div cp 12 4096),
    (shiftr_div cp 18 262144) by side.
  rewrite !(land_mod _ 63 64 6) by side.
  rewrite !(lor_add_low 128 _ 128 7) by side.
  destruct (Z.ltb_spec cp 128); [reflexivity|].
  destruct (Z.ltb_spec cp 2048).
  { rewrite (lor_add_low 192 _ 64 6) by side. reflexivity. }
  destruct (Z.ltb_spec cp 65536).
  { rewrite (lor_add_low 224 _ 32 5) by side. reflexivity. }
  rewrite (lor_add_low 240 _ 16 4) by side. reflexivity.
Qed.

Lemma utf8Bytes_bytes (cp : Z) : isScalar cp -> Forall isByte (utf8Bytes cp).
Proof.
  intros H. rewrite utf8Bytes_arith by (destruct H; lia). unfold isByte.
  destruct (Z.ltb_spec cp 128); [repeat constructor; destruct H; lia|].
  destruct (Z.ltb_spec cp 2048); [repeat constructor; divmod|].
  destruct (Z.ltb_spec cp 65536); [repeat constructor; divmod|].
  assert (cp <= 1114111) by (destruct H; lia).
  repeat constructor; divmod.
Qed.

(** The code point a decoder rebuilds from lead and continuation bytes. *)
Lemma rebuilt2 (b0 b1 : Z) :
  Z.lor (Z.shiftl (Z.land b0 31) 6) (Z.land b1 63)
  = b0 mod 32 * 64 + b1 mod 64.
Proof.
  rewrite (land_mod b0 31 32 5), (land_mod b1 63 64 6) by side.
  rewrite (shiftl_mul _ 6 64) by side.
  apply (lor_add_low _ _ 64 6); side.
Qed.

Lemma rebuilt3 (b0 b1 b2 : Z) :
  Z.lor (Z.shiftl (Z.land b0 15) 12)
        (Z.lor (Z.shiftl (Z.land b1 63) 6) (Z.land b2 63))
  = b0 mod 16 * 4096 + b1 mod 64 * 64 + b2 mod 64.
Proof.
  rewrite (land_mod b0 15 16 4), !(land_mod _ 63 64 6) by side.
  rewrite (shiftl_mul _ 6 64), (shiftl_mul _ 12 4096) by side.
  rewrite (lor_add_low _ (b2 mod 64) 64 6) by side.
  rewrite (lor_add_low _ _ 4096 12) by side. lia.
Qed.

Lemma rebuilt4 (b0 b1 b2 b3 : Z) :
  Z.lor (Z.shiftl (Z.land b0 7) 18)
        (Z.lor (Z.shiftl (Z.land b1 63) 12)
               (Z.lor (Z.shiftl (Z.land b2 63) 6) (Z.land b3 63)))
  = b0 mod 8 * 262144 + b1 mod 64 * 4096 + b2 mod 64 * 64 + b3 mod 64.
Proof.
  rewrite (land_mod b0 7 8 3), !(land_mod _ 63 64 6) by side.
  rewrite (shiftl_mul _ 6 64), (shiftl_mul _ 12 4096),
    (shiftl_mul _ 18 262144) by side.
  rewrite (lor_add_low _ (b3 mod 64) 64 6) by side.
  rewrite (lor_add_low (b1 mod 64 * 4096) _ 4096 12) by side.
  rewrite (lor_add_low _ _ 262144 18) by side. lia.
Qed.

Lemma utf8Decode_bytes (cp : Z) (r : list Z) :
  isScalar cp ->
  utf8Decode (utf8Bytes cp ++ r) = option_map (cons cp) (utf8Decode r).
Proof.
  intros H. assert (Hr : 0 <= cp <= 1114111) by (destruct H; lia).
  rewrite utf8Bytes_arith by exact Hr.
  destruct (Z.ltb_spec cp 128).
  { cbn [app utf8Decode]. zbool. reflexivity. }
  destruct (Z.ltb_spec cp 2048).
  { cbn [app utf8Decode]. rewrite rebuilt2. unfold isCont. zbool.
    cbn [andb]. f_equal. f_equal. divmod. }
  destruct (Z.ltb_spec cp 65536).
  { cbn [app utf8Decode]. rewrite rebuilt3. unfold isCont.
    replace ((224 + cp / 4096) mod 16 * 4096 + (128 + cp / 64 mod 64) mod 64 * 64
             + (128 + cp mod 64) mod 64) with cp by divmod.
    zbool. cbn [andb].
    destruct ((55296 <=? cp) && (cp <=? 57343)) eqn:E.
    - apply andb_true_iff in E. destruct E as [E1 E2].
      apply Z.leb_le in E1, E2. destruct H; lia.
    - reflexivity. }
  cbn [app utf8Decode]. rewrite rebuilt4. unfold isCont.
  replace ((240 + cp / 262144) mod 8 * 262144
           + (128 + cp / 4096 mod 64) mod 64 * 4096
           + (128 + cp / 64 mod 64) mod 64 * 64 + (128 + cp mod 64) mod 64)
    with cp by divmod.
  zbool. reflexivity.
Qed.

Lemma utf8_roundtrip (cps : list Z) :
  Forall isScalar cps -> utf8Decode (flat_map utf8Bytes cps) = Some cps.
Proof.
  induction 1 as [|cp cps Hcp _ IH]; [reflexivity|].
  cbn [flat_map]. rewrite utf8Decode_bytes by exact Hcp.
  rewrite IH. reflexivity.
Qed.

Lemma utf8_bytes_all (cps : list Z) :
  Forall isScalar cps -> Forall isByte (flat_map utf8Bytes cps).
Proof.
  induction 1 as [|cp cps Hcp _ IH]; [constructor|].
  cbn [flat_map]. apply Forall_app. split; [apply utf8Bytes_bytes, Hcp|exact IH].
Qed.

(** *** UTF-16 *)

Lemma surrogate_pair (u v : Z) :
  isHighSurrogate u = true -> isLowSurrogate v = true ->
  isScalar (65536 + Z.shiftl (u - 55296) 10 + (v - 56320))
  /\ utf16Units (65536 + Z.shiftl (u - 55296) 10 + (v - 56320)) = [u; v].
Proof.
  unfold isHighSurrogate, isLowSurrogate. intros Hu Hv.
  apply andb_true_iff in Hu, Hv. destruct Hu as [Hu1 Hu2], Hv as [Hv1 Hv2].
  apply Z.leb_le in Hu1, Hu2, Hv1, Hv2.
  rewrite (shiftl_mul _ 10 1024) by side. split.
  - right. lia.
  - unfold utf16Units. zbool.
    rewrite (shiftr_div _ 10 1024), (land_mod _ 1023 1024 10) by side.
    f_equal; [divmod|]. f_equal. divmod.
Qed.

Lemma toScalars_roundtrip (s : jsstring) :
  wellFormed s = true ->
  Forall isScalar (toScalars s) /\ flat_map utf16Units (toScalars s) = s.
Proof.
  remember (length s) as n eqn:Hn. revert s Hn.
  induction n as [n IH] using lt_wf_ind. intros s Hn Hwf.
  destruct s as [|u s]; [split; [constructor|reflexivity]|].
  cbn [wellFormed] in Hwf. cbn [toScalars].
  apply andb_true_iff in Hwf. destruct Hwf as [Hrange Hwf].
  apply andb_true_iff in Hrange. destruct Hrange as [Hlo Hhi].
  apply Z.leb_le in Hlo. apply Z.ltb_lt in Hhi.
  destruct (isHighSurrogate u) eqn:Hhigh.
  - destruct s as [|v s]; [discriminate|].
    apply andb_true_iff in Hwf. destruct Hwf as [Hlow Hwf]. rewrite Hlow.
    destruct (surrogate_pair u v Hhigh Hlow) as [Hsc Hunits].
    destruct (IH (length s) ltac:(subst n; simpl; lia) s eq_refl Hwf)
      as [Hall Hback].
    split; [constructor; assumption|].
    cbn [flat_map]. rewrite Hunits, Hback. reflexivity.
  - apply andb_true_iff in Hwf. destruct Hwf as [Hlow Hwf].
    apply negb_true_iff in Hlow. rewrite Hlow.
    destruct (IH (length s) ltac:(subst n; simpl; lia) s eq_refl Hwf)
      as [Hall Hback].
    assert (Hsc : isScalar u).
    { unfold isHighSurrogate, isLowSurrogate in Hhigh, Hlow.
      unfold isScalar.
      destruct (Z.leb_spec 55296 u), (Z.leb_spec u 56319),
        (Z.leb_spec 56320 u), (Z.leb_spec u 57343);
        simpl in Hhigh, Hlow; try discriminate; lia. }
    split; [constructor; assumption|].
    cbn [flat_map]. rewrite Hback. unfold utf16Units.
    rewrite (proj2 (Z.ltb_lt u 65536)) by lia. reflexivity.
Qed.

(** *** The encoder of the program on the host functions *)

Lemma fold_left_snoc {A B : Type} (f : A -> B) (l : list A) (acc : list B) :
  fold_left (fun acc b => acc ++ [f b]) l acc = acc ++ map f l.
Proof.
  revert acc. induction l as [|a l IH]; intros acc; simpl.
  - rewrite app_nil_r. reflexivity.
  - rewrite IH, <- app_assoc. reflexivity.
Qed.

Lemma map_fromCharCode (bs : list Z) :
  Forall isByte bs ->
  map fromCharCode bs = bs /\ forallb (fun u => u <=? 255) bs = true.
Proof.
  induction 1 as [|b bs Hb _ [IH1 IH2]]; [split; reflexivity|].
  unfold isByte in Hb. simpl. rewrite IH1, IH2. split.
  - unfold fromCharCode. rewrite Z.mod_small by lia. reflexivity.
  - rewrite (proj2 (Z.leb_le b 255)) by lia. reflexivity.
Qed.

Lemma toBase64_host (s : jsstring) :
  Forall isScalar (toScalars s) ->
  toBase64 TextEncoder_encode btoa s
  = Returns (b64Encode (flat_map utf8Bytes (toScalars s))).
Proof.
  intros H. unfold toBase64, toBase64_try, TextEncoder_encode, obind, btoa.
  rewrite fold_left_snoc. cbn [app].
  destruct (map_fromCharCode _ (utf8_bytes_all _ H)) as [-> ->].
  reflexivity.
Qed.

(** C3 (amended): for every well-formed JavaScript string (code units in
    range, no unpaired surrogate) the transport encoder returns a text
    whose base64 decoding followed by UTF-8 decoding gives the string
    back. *)
Theorem transport_roundtrip (s : jsstring) :
  wellFormed s = true ->
  exists encoded,
    toBase64 TextEncoder_encode btoa s = Returns encoded
    /\ decodeTransport encoded = Some s.
Proof.
  intros Hwf. destruct (toScalars_roundtrip s Hwf) as [Hsc Hback].
  exists (b64Encode (flat_map utf8Bytes (toScalars s))). split.
  - apply toBase64_host, Hsc.
  - unfold decodeTransport.
    rewrite b64_roundtrip by (apply utf8_bytes_all, Hsc).
    rewrite utf8_roundtrip by exact Hsc.
    rewrite Hback. reflexivity.
Qed.

Lemma transport_roundtrip_witness :
  exists encoded,
    toBase64 TextEncoder_encode btoa exUnicode = Returns encoded
    /\ decodeTransport encoded = Some exUnicode.
Proof. apply (transport_roundtrip exUnicode). reflexivity. Defined.

(** C3, as stated, fails on a JavaScript string holding an unpaired
    surrogate: the encoder writes U+FFFD in its place. *)
Lemma transport_lone_surrogate :
  toBase64 TextEncoder_encode btoa [55296] = Returns (lit "77+9")
  /\ decodeTransport (lit "77+9") = Some [65533].
Proof. split; reflexivity. Qed.

(* ================================================================= *)
(** ** Response parser *)

(** *** Character classes *)

Lemma isWhiteSpace_spec (u : Z) :
  isWhiteSpace u = true <->
  9 <= u <= 13 \/ u = 32 \/ u = 160 \/ u = 5760 \/ 8192 <= u <= 8202
  \/ u = 8232 \/ u = 8233 \/ u = 8239 \/ u = 8287 \/ u = 12288 \/ u = 65279.
Proof.
  unfold isWhiteSpace.
  rewrite !orb_true_iff, !andb_true_iff, !Z.leb_le, !Z.eqb_eq. tauto.
Qed.

Lemma isWord_spec (u : Z) :
  isWord u = true <->
  48 <= u <= 57 \/ 65 <= u <= 90 \/ u = 95 \/ 97 <= u <= 122.
Proof.
  unfold isWord.
  rewrite !orb_true_iff, !andb_true_iff, !Z.leb_le, !Z.eqb_eq. tauto.
Qed.

Lemma isPathChar_spec (u : Z) :
  isPathChar u = true <-> isWord u = true \/ u = 46 \/ u = 47 \/ u = 45.
Proof.
  unfold isPathChar. rewrite !orb_true_iff, !Z.eqb_eq. tauto.
Qed.

Lemma pathChar_not_space (u : Z) :
  isPathChar u = true -> isWhiteSpace u = false.
Proof.
  intros H. destruct (isWhiteSpace u) eqn:E; [exfalso|reflexivity].
  apply isPathChar_spec in H. rewrite isWord_spec in H.
  apply isWhiteSpace_spec in E. lia.
Qed.

Lemma space_not_word (u : Z) : isWhiteSpace u = true -> isWord u = false.
Proof.
  intros H. destruct (isWord u) eqn:E; [exfalso|reflexivity].
  apply isWord_spec in E. apply isWhiteSpace_spec in H. lia.
Qed.

Lemma newline_is_space (u : Z) : isNewline u = true -> isWhiteSpace u = true.
Proof.
  unfold isNewline. rewrite orb_true_iff, !Z.eqb_eq.
  intros H. apply isWhiteSpace_spec. lia.
Qed.

Lemma pathChar_plain (u : Z) :
  isPathChar u = true -> u <> 91 /\ u <> 36 /\ u <> 93.
Proof.
  intros H. apply isPathChar_spec in H. rewrite isWord_spec in H. lia.
Qed.

(** The classes of the pattern are closed under [Canonicalize], so the
    [i] flag does not change what they match. *)
Lemma classes_ignore_case (u : Z) :
  isWhiteSpace (Canonicalize u) = isWhiteSpace u
  /\ isWord (Canonicalize u) = isWord u
  /\ isPathChar (Canonicalize u) = isPathChar u
  /\ isNewline (Canonicalize u) = isNewline u
  /\ notGt (Canonicalize u) = notGt u.
Proof.
  unfold Canonicalize.
  destruct ((97 <=? u) && (u <=? 122)) eqn:E; [|repeat split].
  apply andb_true_iff in E. destruct E as [E1 E2].
  apply Z.leb_le in E1, E2.
  assert (Hw : isWord (u - 32) = true /\ isWord u = true)
    by (rewrite !isWord_spec; lia).
  destruct Hw as [Hw1 Hw2].
  assert (Hs : isWhiteSpace (u - 32) = false /\ isWhiteSpace u = false).
  { split; apply pathChar_not_space, isPathChar_spec; auto. }
  destruct Hs as [Hs1 Hs2].
  unfold isPathChar, isNewline, notGt. rewrite Hw1, Hw2, Hs1, Hs2.
  repeat split.
  - rewrite !(proj2 (Z.eqb_neq _ _)) by lia. reflexivity.
  - rewrite !(proj2 (Z.eqb_neq _ _)) by lia. reflexivity.
Qed.

Lemma Canonicalize_bracket (u : Z) : Canonicalize u = 91 -> u = 91.
Proof.
  unfold Canonicalize.
  destruct ((97 <=? u) && (u <=? 122)) eqn:E; [|auto].
  apply andb_true_iff in E. destruct E as [E1 E2].
  apply Z.leb_le in E1, E2. lia.
Qed.

(** *** Prefixes up to case *)

Lemma prefixI_long (p y t : jsstring) :
  (length p <= length y)%nat -> prefixI p (y ++ t) = prefixI p y.
Proof.
  revert y. induction p as [|x p IH]; intros y H; [reflexivity|].
  destruct y as [|u y]; simpl in *; [lia|].
  rewrite IH by lia. reflexivity.
Qed.

Lemma prefixI_split (p y t : jsstring) :
  prefixI p (y ++ t) = true -> (length y <= length p)%nat ->
  prefixI (skipn (length y) p) t = true.
Proof.
  revert p. induction y as [|u y IH]; intros p H Hlen; [exact H|].
  destruct p as [|x p]; simpl in *; [lia|].
  apply andb_true_iff in H. destruct H as [_ H]. apply IH; [exact H|lia].
Qed.

Lemma occursI_suffix (p y a b : jsstring) :
  occursI p y = false -> y = a ++ b -> prefixI p b = false.
Proof.
  intros H ->. induction a as [|u a IH]; simpl in *.
  - destruct b; simpl in H; apply orb_false_iff in H; tauto.
  - apply orb_false_iff in H. destruct H as [_ H]. apply IH, H.
Qed.

Lemma prefixI_same (kw p s : jsstring) :
  map Canonicalize kw = map Canonicalize p ->
  isPrefix kw s = true -> prefixI p s = true.
Proof.
  revert p s. induction kw as [|x kw IH]; intros [|y p] s E H; simpl in *;
    try discriminate; [reflexivity|].
  destruct s as [|u s]; [discriminate|].
  injection E as Exy E. apply andb_true_iff in H. destruct H as [Hx H].
  apply Z.eqb_eq in Hx. subst u. rewrite Exy, Z.eqb_refl. simpl.
  apply IH; assumption.
Qed.

Lemma prefixI_self (kw p t : jsstring) :
  map Canonicalize kw = map Canonicalize p -> prefixI p (kw ++ t) = true.
Proof.
  intros E. apply (prefixI_same kw); [exact E|]. apply isPrefix_app.
Qed.

(** *** Repetitions that give back *)

Lemma greedyClass_fail_run (p : Z -> bool) (c : Continuation) cs
    (w r : jsstring) :
  forallb p w = true ->
  match r with [] => true | u :: _ => negb (p u) end = true ->
  (forall x y, w = x ++ y -> c (mkState (y ++ r) cs) = None) ->
  greedyClass p c cs (w ++ r) = None.
Proof.
  intros Hw Hr Hc. induction w as [|u w IH]; simpl in *.
  - pose proof (Hc [] [] eq_refl) as H0. simpl in H0.
    destruct r as [|v r]; simpl; [exact H0|].
    destruct (p v); [discriminate|exact H0].
  - apply andb_true_iff in Hw. destruct Hw as [-> Hw].
    rewrite IH; [|exact Hw|].
    + apply (Hc [] (u :: w) eq_refl).
    + intros x y E. apply (Hc (u :: x) y). simpl. rewrite E. reflexivity.
Qed.

(** A greedy class repetition gives back code units until the
    continuation accepts. *)
Lemma greedyClass_backtrack (p : Z -> bool) (c : Continuation) cs
    (a w r : jsstring) (n : Z) (z : MatchState) :
  forallb p a = true -> p n = true -> forallb p w = true ->
  match r with [] => true | u :: _ => negb (p u) end = true ->
  c (mkState (n :: w ++ r) cs) = Some z ->
  (forall x y, w = x ++ y -> c (mkState (y ++ r) cs) = None) ->
  greedyClass p c cs (a ++ n :: w ++ r) = Some z.
Proof.
  intros Ha Hn Hw Hr Hc Hfail.
  assert (Hs : greedyClass p c cs (n :: w ++ r) = Some z).
  { simpl. rewrite Hn, (greedyClass_fail_run p c cs w r Hw Hr Hfail).
    exact Hc. }
  induction a as [|u a IH]; simpl in *; [exact Hs|].
  apply andb_true_iff in Ha. destruct Ha as [-> Ha].
  rewrite (IH Ha). reflexivity.
Qed.

(** A lazy class repetition stops at the first position where the
    continuation accepts. *)
Lemma lazyClass_first (p : Z -> bool) (c : Continuation) cs
    (a s : jsstring) (z : MatchState) :
  forallb p a = true ->
  c (mkState s cs) = Some z ->
  (forall x y, a = x ++ y -> y <> [] -> c (mkState (y ++ s) cs) = None) ->
  lazyClass p c cs (a ++ s) = Some z.
Proof.
  intros Ha Hc Hfail. induction a as [|u a IH].
  - simpl. destruct s; simpl; rewrite Hc; reflexivity.
  - simpl in Ha. apply andb_true_iff in Ha. destruct Ha as [Hu Ha].
    pose proof (Hfail [] (u :: a) eq_refl ltac:(discriminate)) as H0.
    cbn [app] in H0. cbn [app lazyClass]. rewrite H0, Hu.
    apply IH; [exact Ha|].
    intros x y E Hy. apply (Hfail (u :: x) y); [|exact Hy].
    simpl. rewrite E. reflexivity.
Qed.

Lemma matcher_opt (r : regex) (x : MatchState) (c : Continuation) :
  matcher (Opt r) x c
  = match matcher r (clearCaptures (groupsOf r) x)
            (fun y => if sameEnd x y then None else c y) with
    | Some z => Some z
    | None => c x
    end.
Proof. reflexivity. Qed.

(** One or more members of a class, greedily, before a non-member. *)
Lemma matcher_plus_class (p : Z -> bool) (c : Continuation) cs
    (u : Z) (run r : jsstring) (z : MatchState) :
  p u = true -> forallb p run = true ->
  match r with [] => true | v :: _ => negb (p v) end = true ->
  c (mkState r cs) = Some z ->
  matcher (Plus (Chr p)) (mkState (u :: run ++ r) cs) c = Some z.
Proof.
  intros Hu Hrun Hr Hc. unfold Plus.
  rewrite matcher_seq, matcher_chr, Hu, matcher_star_class.
  apply greedyClass_max; assumption.
Qed.

(** *** Well-formed file blocks *)

Lemma sameEnd_shorter (x y : MatchState) :
  (length (rest y) < length (rest x))%nat -> sameEnd x y = false.
Proof. intros H. unfold sameEnd. apply Nat.eqb_neq. lia. Qed.

Lemma closesAt_first (body more : jsstring) :
  closesAt body = true ->
  forall x y, body = x ++ y -> y <> [] ->
    prefixI backticks (y ++ backticks ++ more) = false.
Proof.
  unfold closesAt. intros H x y E Hy.
  destruct (firstOccI backticks (body ++ backticks)) as [i|] eqn:Hocc;
    [|discriminate].
  apply Nat.eqb_eq in H. subst i.
  destruct (firstOccI_skip _ _ _ Hocc) as [_ Hpre].
  rewrite app_assoc, prefixI_long.
  - apply (Hpre x y E Hy).
  - rewrite length_app. simpl. lia.
Qed.

Lemma matcher_chr_reject (p : Z -> bool) (s : jsstring) cs (c : Continuation) :
  headNot p s = true -> matcher (Chr p) (mkState s cs) c = None.
Proof.
  destruct s as [|u s]; simpl; [reflexivity|].
  intros H. apply negb_true_iff in H. rewrite H. reflexivity.
Qed.

(** From the end of the language tag on: the whitespace, the line break,
    the body up to the first closing fence. *)
Lemma fence_tail (g3 ind cd more : jsstring) (nlc : Z) c1 c2 :
  forallb isWhiteSpace g3 = true -> isNewline nlc = true ->
  forallb isBlank ind = true -> headNot isWhiteSpace cd = true ->
  closesAt (ind ++ cd) = true ->
  matcher
    (Seq (Star true (Chr isWhiteSpace))
       (Seq (Chr isNewline)
          (Seq (Group 3 (Star false (Chr anyUnit))) (litI backticks))))
    (mkState (g3 ++ nlc :: ind ++ cd ++ backticks ++ more) [c1; c2; None])
    (fun y => Some y)
  = Some (mkState more [c1; c2; Some (ind ++ cd)]).
Proof.
  intros Hg3 Hnl Hind Hcd Hclose.
  assert (Hhead : headNot isWhiteSpace (cd ++ backticks ++ more) = true).
  { destruct cd as [|u cd]; [reflexivity|exact Hcd]. }
  assert (Hindws : forallb isWhiteSpace ind = true).
  { clear - Hind. induction ind as [|u ind IH]; simpl in *; [reflexivity|].
    apply andb_true_iff in Hind. destruct Hind as [Hu Hind].
    unfold isBlank in Hu. apply andb_true_iff in Hu.
    rewrite (proj1 Hu), (IH Hind). reflexivity. }
  rewrite matcher_seq, matcher_star_class.
  apply greedyClass_backtrack;
    [exact Hg3|apply newline_is_space, Hnl|exact Hindws|exact Hhead| |].
  - rewrite matcher_seq, matcher_chr, Hnl.
    rewrite matcher_seq, matcher_group, matcher_star_class.
    rewrite (app_assoc ind cd).
    apply lazyClass_first; [apply anyUnit_all| |].
    + cbn [rest captures]. rewrite firstn_consumed.
      rewrite matcher_litI, (prefixI_self backticks backticks more eq_refl).
      rewrite (skipn_exact backticks more (length backticks) eq_refl).
      reflexivity.
    + intros x y E Hy. rewrite matcher_litI. cbn [rest].
      rewrite (closesAt_first (ind ++ cd) more Hclose x y E Hy). reflexivity.
  - intros x y E. rewrite matcher_seq. apply matcher_chr_reject.
    destruct y as [|v y]; cbn [app].
    + destruct (cd ++ backticks ++ more) as [|u t]; [reflexivity|].
      simpl in *. destruct (isNewline u) eqn:Hu; [|reflexivity].
      apply newline_is_space in Hu. rewrite Hu in Hhead. discriminate.
    + assert (Hv : isBlank v = true).
      { rewrite E in Hind. rewrite forallb_app in Hind.
        apply andb_true_iff in Hind. destruct Hind as [_ Hind].
        simpl in Hind. apply andb_true_iff in Hind. tauto. }
      unfold isBlank in Hv. apply andb_true_iff in Hv.
      destruct Hv as [_ Hv]. exact Hv.
Qed.

Lemma option_first {A : Type} (m : option A) (dflt : option A) (z : A) :
  m = Some z ->
  match m with Some z' => Some z' | None => dflt end = Some z.
Proof. intros ->. reflexivity. Qed.

(** The matcher at the start of a well-formed block consumes exactly the
    block and captures path, tag and body. *)
Lemma fileRegex_at_block (b : Block) (more : jsstring) :
  wellFormedBlock b = true ->
  matcher fileRegex (mkState (blockText b ++ more) [None; None; None])
          (fun y => Some y)
  = Some (mkState more
            [Some (path b); tagCapture b; Some (indent b ++ code b)]).
Proof.
  destruct b as [kw g1 pth g2 tg g3 nlc ind cd].
  unfold wellFormedBlock, blockText, tagCapture.
  cbn [keyword gap1 path gap2 tag gap3 eol indent code].
  intros H. repeat (apply andb_true_iff in H; destruct H as [H ?]).
  apply jseqb_spec in H.
  destruct pth as [|n1 pth]; [discriminate|].
  match goal with Hp : forallb isPathChar (n1 :: pth) = true |- _ =>
    simpl in Hp; apply andb_true_iff in Hp; destruct Hp as [Hn1 Hpth] end.
  repeat (rewrite <- app_assoc; cbn [app]).
  unfold fileRegex. fold marker.
  (* the keyword *)
  rewrite matcher_seq, matcher_litI, (prefixI_self kw marker _ H).
  rewrite (skipn_exact kw _ (length marker))
    by (rewrite <- (length_map Canonicalize kw), H, length_map; reflexivity).
  (* whitespace, then the path *)
  rewrite matcher_seq, matcher_star_class.
  apply greedyClass_max; [assumption| |].
  { simpl. rewrite (pathChar_not_space n1 Hn1). reflexivity. }
  rewrite matcher_seq, matcher_group.
  apply matcher_plus_class; [exact Hn1|exact Hpth|reflexivity|].
  cbn [rest captures].
  change (n1 :: pth ++ 93 :: ?t) with ((n1 :: pth) ++ 93 :: t).
  rewrite firstn_consumed. cbn [setCapture].
  (* the closing bracket, whitespace, the fence *)
  rewrite matcher_seq. unfold chI. rewrite matcher_chr.
  change (Canonicalize 93 =? Canonicalize 93) with true. cbv iota.
  rewrite matcher_seq, matcher_star_class.
  apply greedyClass_max; [assumption|reflexivity|].
  rewrite matcher_seq, matcher_star_class.
  apply (greedyClass_max isNewline _ _ []); [reflexivity|reflexivity|].
  cbn [app].
  change (96 :: 96 :: 96 :: ?t) with (backticks ++ t).
  rewrite matcher_seq, matcher_litI, (prefixI_self backticks backticks _ eq_refl).
  rewrite (skipn_exact backticks _ (length backticks) eq_refl).
  (* the optional language tag *)
  rewrite matcher_seq, matcher_opt.
  unfold clearCaptures, Plus.
  cbn [groupsOf fold_left rest captures app setCapture].
  assert (Hg3head : forall t, headNot isWord (g3 ++ nlc :: t) = true).
  { intros t. destruct g3 as [|g g3]; simpl.
    - rewrite space_not_word; [reflexivity|]. apply newline_is_space.
      assumption.
    - match goal with Hg : forallb isWhiteSpace (g :: g3) = true |- _ =>
        simpl in Hg; apply andb_true_iff in Hg; destruct Hg as [Hgw _] end.
      rewrite (space_not_word g Hgw). reflexivity. }
  destruct tg as [|t1 tg].
  - cbn [app]. rewrite matcher_group, matcher_seq.
    rewrite matcher_chr_reject by apply Hg3head.
    apply fence_tail; assumption.
  - match goal with Ht : forallb isWord (t1 :: tg) = true |- _ =>
      simpl in Ht; apply andb_true_iff in Ht; destruct Ht as [Ht1 Htg] end.
    apply option_first.
    rewrite matcher_group. fold (Plus (Chr isWord)).
    cbn [app]. apply matcher_plus_class; [exact Ht1|exact Htg|apply Hg3head|].
    cbn [rest captures].
    rewrite sameEnd_shorter
      by (cbn [rest length]; rewrite (length_app tg); lia).
    change (t1 :: tg ++ g3 ++ ?t) with ((t1 :: tg) ++ g3 ++ t).
    rewrite firstn_consumed. cbn [setCapture].
    apply fence_tail; assumption.
Qed.

(** *** Replies made of prose and well-formed blocks *)

Lemma noStart_app (x z t : jsstring) :
  noStart x (z ++ t) -> noStart z t -> noStart (x ++ z) t.
Proof.
  induction x as [|u x IH]; intros Hx Hz.
  - exact Hz.
  - assert (Hx' : noStart x (z ++ t)).
    { intros a' y' E' Hy'. apply (Hx (u :: a') y'); [|exact Hy'].
      simpl. rewrite E'. reflexivity. }
    intros [|v a] y E Hy; simpl in E.
    + subst y. pose proof (Hx [] (u :: x) eq_refl ltac:(discriminate)) as H.
      simpl in H |- *. rewrite <- app_assoc. exact H.
    + injection E as -> E. apply (IH Hx' Hz a y E Hy).
Qed.

Lemma marker_straddle (y t : jsstring) :
  y <> [] -> (length y < length marker)%nat -> headNot continuesMarker t = true ->
  prefixI marker (y ++ t) = false.
Proof.
  intros Hy Hlen Hsafe.
  destruct (prefixI marker (y ++ t)) eqn:E; [exfalso|reflexivity].
  apply prefixI_split in E; [|lia].
  destruct t as [|u t].
  - destruct y as [|y1 [|y2 [|y3 [|y4 [|y5 [|y6 y]]]]]]; simpl in *;
      try discriminate; try congruence; lia.
  - simpl in Hsafe. apply negb_true_iff in Hsafe.
    unfold continuesMarker in Hsafe.
    destruct y as [|y1 [|y2 [|y3 [|y4 [|y5 [|y6 y]]]]]];
      try congruence; try (simpl in Hlen; lia);
      cbn in E; apply andb_true_iff in E; destruct E as [E _];
      cbn in Hsafe; rewrite E in Hsafe; simpl in Hsafe;
      rewrite ?orb_true_r in Hsafe; discriminate.
Qed.

Lemma plain_noStart (p t : jsstring) :
  plain p = true -> headNot continuesMarker t = true -> noStart p t.
Proof.
  unfold plain. intros Hp Hsafe a y E Hy. apply negb_true_iff in Hp.
  destruct (Nat.le_gt_cases (length marker) (length y)) as [Hlong|Hshort].
  - rewrite prefixI_long by exact Hlong. apply (occursI_suffix marker p a y Hp E).
  - apply marker_straddle; assumption.
Qed.

Lemma bracketless_noStart (n t : jsstring) :
  forallb (fun u => negb (u =? 91)) n = true -> noStart n t.
Proof.
  intros Hn a y E Hy. destruct y as [|u y]; [congruence|].
  rewrite E, forallb_app in Hn. apply andb_true_iff in Hn.
  destruct Hn as [_ Hn]. simpl in Hn. apply andb_true_iff in Hn.
  destruct Hn as [Hu _]. apply negb_true_iff, Z.eqb_neq in Hu.
  cbn. destruct (Canonicalize u =? 91) eqn:Ec; [|reflexivity].
  apply Z.eqb_eq, Canonicalize_bracket in Ec. congruence.
Qed.

Lemma notice_plain (nm : jsstring) :
  forallb isPathChar nm = true ->
  forallb (fun u => negb (u =? 91)) (notice nm) = true
  /\ forallb (fun u => negb (u =? 36)) (notice nm) = true.
Proof.
  intros H. unfold notice. rewrite !forallb_app.
  assert (Hnm : forallb (fun u => negb (u =? 91)) nm = true
                /\ forallb (fun u => negb (u =? 36)) nm = true).
  { induction nm as [|u nm IH]; [split; reflexivity|].
    simpl in H. apply andb_true_iff in H. destruct H as [Hu H].
    destruct (IH H) as [IH1 IH2]. destruct (pathChar_plain u Hu) as [N1 [N2 _]].
    simpl. rewrite IH1, IH2.
    rewrite (proj2 (Z.eqb_neq u 91) N1), (proj2 (Z.eqb_neq u 36) N2).
    split; reflexivity. }
  destruct Hnm as [-> ->]. split; reflexivity.
Qed.

Lemma block_head (b : Block) (more : jsstring) :
  wellFormedBlock b = true ->
  exists kw, map Canonicalize kw = map Canonicalize marker
    /\ exists x, blockText b = kw ++ x
    /\ exists k t, blockText b = k :: t
    /\ headNot continuesMarker (blockText b ++ more) = true.
Proof.
  destruct b as [kw g1 pth g2 tg g3 nlc ind cd].
  unfold wellFormedBlock, blockText.
  cbn [keyword gap1 path gap2 tag gap3 eol indent code].
  intros H. repeat (apply andb_true_iff in H; destruct H as [H ?]).
  apply jseqb_spec in H. exists kw. split; [exact H|].
  eexists. split; [reflexivity|].
  destruct kw as [|k kw]; [discriminate|].
  exists k. eexists. split; [reflexivity|].
  cbn in H. injection H as Hk _. apply Canonicalize_bracket in Hk. subst k.
  reflexivity.
Qed.

Lemma fileRegex_no_marker (s : jsstring) cs :
  prefixI marker s = false ->
  matcher fileRegex (mkState s cs) (fun y => Some y) = None.
Proof.
  intros H. unfold fileRegex. fold marker.
  rewrite matcher_seq, matcher_litI, H. reflexivity.
Qed.

Lemma exec_at_block (i : nat) (p : jsstring) (b : Block) (more : jsstring) :
  plain p = true -> wellFormedBlock b = true ->
  exec fileRegex 3 i (p ++ blockText b ++ more)
  = Some (matchOfBlock (i + length p) b more).
Proof.
  intros Hp Hb.
  destruct (block_head b more Hb) as [kw [_ [_ [_ [_ [_ [_ Hsafe]]]]]]].
  rewrite exec_skip.
  - rewrite exec_unfold. change (repeat None 3) with [@None jsstring; None; None].
    rewrite (fileRegex_at_block b more Hb). cbn [rest captures].
    rewrite firstn_consumed. reflexivity.
  - intros a y E Hy. apply fileRegex_no_marker.
    apply (plain_noStart p _ Hp Hsafe a y E Hy).
Qed.

Lemma occursI_skipn (p s : jsstring) (j : nat) :
  occursI p s = false -> prefixI p (skipn j s) = false.
Proof.
  revert j. induction s as [|u s IH]; intros j H; simpl in H.
  - destruct j; simpl; apply orb_false_iff in H; tauto.
  - apply orb_false_iff in H. destruct H as [H1 H2].
    destruct j; [exact H1|]. simpl. apply IH, H2.
Qed.

Lemma exec_plain (i : nat) (p : jsstring) :
  plain p = true -> exec fileRegex 3 i p = None.
Proof.
  unfold plain. intros Hp. apply negb_true_iff in Hp.
  apply exec_none. intros j. apply fileRegex_no_marker, occursI_skipn, Hp.
Qed.

(** [matchAll] finds the blocks of a well-formed reply, all of them and in
    order, whatever fuel above the length of the text it is given. *)
Lemma matchAllFrom_render (parts : list (jsstring * Block)) (closing : jsstring) :
  wellFormedReply parts closing = true ->
  forall fuel i,
    (length (render parts closing) < fuel)%nat ->
    matchAllFrom fuel fileRegex 3 i (render parts closing)
    = matchesOf i parts closing.
Proof.
  induction parts as [|[p b] ps IH]; intros Hwf fuel i Hfuel;
    (destruct fuel as [|fuel]; [lia|]); cbn [render matchesOf matchAllFrom].
  - simpl in Hwf. rewrite (exec_plain i closing Hwf). reflexivity.
  - cbn [wellFormedReply] in Hwf. apply andb_true_iff in Hwf.
    destruct Hwf as [Hwf Hps]. apply andb_true_iff in Hwf.
    destruct Hwf as [Hp Hb].
    rewrite (exec_at_block i p b _ Hp Hb).
    destruct (block_head b [] Hb) as [_ [_ [_ [_ [k [t [Ek _]]]]]]].
    cbn [matchOfBlock m0 after index]. f_equal.
    cbn [render] in Hfuel. rewrite !length_app in Hfuel.
    rewrite Ek at 1. rewrite IH; [reflexivity|exact Hps|].
    rewrite Ek in Hfuel. simpl in Hfuel. lia.
Qed.

(** *** The replacement of each block by its notice *)

Lemma splitFirst_at (pat pre post : jsstring) :
  (forall a y, pre = a ++ y -> y <> [] -> isPrefix pat (y ++ pat ++ post) = false) ->
  splitFirst pat (pre ++ pat ++ post) = Some (pre, post).
Proof.
  induction pre as [|u pre IH]; intros H.
  - cbn [app]. destruct (pat ++ post) as [|v s] eqn:E.
    + destruct pat; [|discriminate]. simpl in E. subst post. reflexivity.
    + cbn [splitFirst]. rewrite <- E, isPrefix_app.
      rewrite (skipn_exact pat post (length pat) eq_refl). reflexivity.
  - cbn [app splitFirst].
    pose proof (H [] (u :: pre) eq_refl ltac:(discriminate)) as H0.
    cbn [app] in H0. rewrite H0, IH; [reflexivity|].
    intros a y E Hy. apply (H (u :: a) y); [|exact Hy].
    simpl. rewrite E. reflexivity.
Qed.

Lemma GetSubstitution_plain (matched before behind repl : jsstring) :
  forallb (fun u => negb (u =? 36)) repl = true ->
  GetSubstitution matched before behind repl = repl.
Proof.
  induction repl as [|u r IH]; intros H; [reflexivity|].
  simpl in H. apply andb_true_iff in H. destruct H as [Hu H].
  apply negb_true_iff in Hu. cbn [GetSubstitution]. rewrite Hu, (IH H).
  reflexivity.
Qed.

Lemma isPrefix_app_l (a x s : jsstring) :
  isPrefix (a ++ x) s = true -> isPrefix a s = true.
Proof.
  revert s. induction a as [|u a IH]; intros s H; [reflexivity|].
  destruct s as [|v s]; simpl in *; [discriminate|].
  apply andb_true_iff in H. destruct H as [-> H]. apply IH, H.
Qed.

Lemma replace_block (done p more : jsstring) (b : Block) :
  (forall t, noStart done t) -> plain p = true -> wellFormedBlock b = true ->
  replace (done ++ p ++ blockText b ++ more) (blockText b) (notice (path b))
  = (done ++ p ++ notice (path b)) ++ more.
Proof.
  intros Hdone Hp Hb.
  destruct (block_head b more Hb) as [kw [Hkw [x [Ex [_ [_ [_ Hsafe]]]]]]].
  assert (Hpath : forallb isPathChar (path b) = true).
  { unfold wellFormedBlock in Hb.
    repeat (apply andb_true_iff in Hb; destruct Hb as [Hb ?]). assumption. }
  destruct (notice_plain (path b) Hpath) as [_ Hdollar].
  unfold replace. rewrite (app_assoc done p).
  rewrite splitFirst_at.
  - rewrite (GetSubstitution_plain _ _ _ _ Hdollar).
    rewrite <- !app_assoc. reflexivity.
  - intros a y E Hy.
    destruct (isPrefix (blockText b) (y ++ blockText b ++ more)) eqn:Ep;
      [exfalso|reflexivity].
    rewrite Ex in Ep at 1. apply isPrefix_app_l in Ep.
    apply (prefixI_same kw marker _ Hkw) in Ep.
    assert (Hns : noStart (done ++ p) (blockText b ++ more)).
    { apply noStart_app; [apply Hdone|].
      apply plain_noStart; assumption. }
    rewrite (Hns a y E Hy) in Ep. discriminate.
Qed.

Lemma fileOfMatch_block (newId : jsstring) (i : nat) (b : Block)
    (more : jsstring) :
  fileOfMatch newId (matchOfBlock i b more) = fileOfBlock newId b
  /\ capStr (matchOfBlock i b more) 1 = path b.
Proof.
  unfold fileOfMatch, fileOfBlock, matchOfBlock, capStr, capOr, cap, tagCapture.
  destruct (tag b); split; reflexivity.
Qed.

Lemma extractLoop_render (rnd : nat -> jsstring)
    (parts : list (jsstring * Block)) (closing : jsstring) :
  wellFormedReply parts closing = true ->
  forall k i files done,
    (forall t, noStart done t) ->
    extractLoop rnd k (matchesOf i parts closing) files
                (done ++ render parts closing)
    = (files ++ filesOf rnd k parts, done ++ cleanOf parts closing).
Proof.
  induction parts as [|[p b] ps IH]; intros Hwf k i files done Hdone;
    cbn [matchesOf extractLoop render filesOf cleanOf].
  - rewrite app_nil_r. reflexivity.
  - cbn [wellFormedReply] in Hwf. apply andb_true_iff in Hwf.
    destruct Hwf as [Hwf Hps]. apply andb_true_iff in Hwf.
    destruct Hwf as [Hp Hb].
    destruct (fileOfMatch_block (rnd k) (i + length p) b (render ps closing))
      as [-> Hcap].
    cbn [m0 matchOfBlock]. fold (matchOfBlock (i + length p) b (render ps closing)).
    rewrite Hcap, (replace_block done p _ b Hdone Hp Hb).
    rewrite (IH Hps).
    + rewrite <- !app_assoc. reflexivity.
    + intros t.
      assert (Hpath : forallb isPathChar (path b) = true).
      { unfold wellFormedBlock in Hb.
        repeat (apply andb_true_iff in Hb; destruct Hb as [Hb ?]). assumption. }
      destruct (notice_plain (path b) Hpath) as [Hbr _].
      apply noStart_app; [apply Hdone|].
      apply noStart_app; [|apply bracketless_noStart, Hbr].
      apply plain_noStart; [exact Hp|reflexivity].
Qed.

(** *** What trimming leaves of the captures *)

Lemma trimStart_head (s : jsstring) :
  headNot isWhiteSpace s = true -> trimStart s = s.
Proof.
  destruct s as [|u s]; simpl; [reflexivity|].
  intros H. apply negb_true_iff in H. rewrite H. reflexivity.
Qed.

Lemma trim_solid (s : jsstring) :
  forallb (fun u => negb (isWhiteSpace u)) s = true -> trim s = s.
Proof.
  intros H. unfold trim, trimEnd.
  assert (Hhead : forall t, forallb (fun u => negb (isWhiteSpace u)) t = true ->
                            headNot isWhiteSpace t = true).
  { intros [|u t] Ht; [reflexivity|]. simpl in Ht.
    apply andb_true_iff in Ht. apply Ht. }
  rewrite (trimStart_head s (Hhead s H)).
  rewrite trimStart_head; [apply rev_involutive|].
  apply Hhead. apply forallb_forall. intros u Hu. apply in_rev in Hu.
  apply (proj1 (forallb_forall _ s) H u Hu).
Qed.

(** The name of an extracted file is the path as written, and its language
    the tag as written or "text": both captures hold no whitespace. *)
Lemma fileOfBlock_fields (newId : jsstring) (b : Block) :
  wellFormedBlock b = true ->
  name (fileOfBlock newId b) = path b
  /\ forallb isPathChar (name (fileOfBlock newId b)) = true
  /\ language (fileOfBlock newId b)
     = match tag b with [] => lit "text" | _ :: _ => tag b end.
Proof.
  unfold wellFormedBlock. intros H.
  repeat (apply andb_true_iff in H; destruct H as [H ?]).
  assert (Hpath : forallb isPathChar (path b) = true) by assumption.
  assert (Htag : forallb isWord (tag b) = true) by assumption.
  assert (Hname : trim (path b) = path b).
  { apply trim_solid, forallb_forall. intros u Hu.
    apply negb_true_iff, pathChar_not_space.
    apply (proj1 (forallb_forall _ _) Hpath u Hu). }
  unfold fileOfBlock. cbn [name language]. rewrite Hname.
  split; [reflexivity|]. split; [exact Hpath|].
  destruct (tag b) as [|t1 tg] eqn:Et; [reflexivity|].
  apply trim_solid, forallb_forall. intros u Hu.
  apply negb_true_iff, pathChar_not_space, isPathChar_spec. left.
  apply (proj1 (forallb_forall _ _) Htag u Hu).
Qed.

Lemma extractFiles_render (rnd : nat -> jsstring)
    (parts : list (jsstring * Block)) (closing : jsstring) :
  wellFormedReply parts closing = true ->
  extractFiles rnd (render parts closing)
  = (filesOf rnd 0 parts, cleanOf parts closing).
Proof.
  intros Hwf. unfold extractFiles, matchAll.
  rewrite (matchAllFrom_render parts closing Hwf) by lia.
  apply (extractLoop_render rnd parts closing Hwf 0%nat 0%nat [] []).
  intros t a y E Hy. destruct a; destruct y; simpl in E; congruence.
Qed.

Lemma filesOf_length (rnd : nat -> jsstring) (k : nat)
    (parts : list (jsstring * Block)) :
  length (filesOf rnd k parts) = length parts.
Proof.
  revert k. induction parts as [|[p b] ps IH]; intros k; [reflexivity|].
  simpl. rewrite IH. reflexivity.
Qed.

Lemma extractFiles_no_marker (rnd : nat -> jsstring) (text : jsstring) :
  occursI marker text = false -> extractFiles rnd text = ([], text).
Proof.
  intros H. apply (extractFiles_render rnd [] text).
  simpl. unfold plain. rewrite H. reflexivity.
Qed.

(** Without a match, whatever the text holds, nothing is extracted and the
    text comes back verbatim. *)
Lemma extractFiles_no_match (rnd : nat -> jsstring) (text : jsstring) :
  matchAll fileRegex 3 text = [] -> extractFiles rnd text = ([], text).
Proof. intros H. unfold extractFiles. rewrite H. reflexivity. Qed.

(** X1: on a text made of [N] well-formed file blocks between prose that holds
    no marker keyword, the parser returns exactly the [N] files in
    first-to-last source order, each with the path trimmed as name, the
    declared tag or "text" as language and the trimmed body as content,
    and the text with each block replaced by the notice of its file, the
    notices in the same order; the names need not even be distinct.  A
    text without the marker keyword comes back verbatim with an empty
    list. *)
Theorem extractFiles_reply (rnd : nat -> jsstring)
    (parts : list (jsstring * Block)) (closing text : jsstring) :
  (wellFormedReply parts closing = true ->
   extractFiles rnd (render parts closing)
   = (filesOf rnd 0 parts, cleanOf parts closing)
   /\ length (fst (extractFiles rnd (render parts closing))) = length parts)
  /\ (occursI marker text = false -> extractFiles rnd text = ([], text)).
Proof.
  split.
  - intros Hwf. rewrite (extractFiles_render rnd parts closing Hwf).
    split; [reflexivity|]. apply filesOf_length.
  - apply extractFiles_no_marker.
Qed.

Lemma extractFiles_reply_witness :
  extractFiles exIds
    (render [(lit "Here you go: ", exBlockA); (lit " and [the] styles ", exBlockB)]
            (lit " Done."))
  = ([mkFile (exIds 0) (lit "src/app.js") (lit "js") (lit "let a = 1;");
      mkFile (exIds 1) (lit "style.css") (lit "text") (lit "body { margin: 0 }")],
     lit "Here you go: " ++ notice (lit "src/app.js") ++ lit " and [the] styles "
     ++ notice (lit "style.css") ++ lit " Done.").
Proof.
  apply (proj1 (extractFiles_reply exIds
                  [(lit "Here you go: ", exBlockA);
                   (lit " and [the] styles ", exBlockB)]
                  (lit " Done.") [])).
  reflexivity.
Defined.

(** C8 at [exStray], a text with two well-formed blocks of distinct names
    and, in the prose before them, a marker that no fence line follows:
    the parser finds the two blocks in order, but the second [replace]
    hits the first textual occurrence of the second block's text, which
    starts at the stray marker and spans the notice already written.  The
    notices come out in the order b, a, and the matched span of [b.js] is
    not the one replaced. *)
Theorem extractFiles_stray_marker :
  map index (matchAll fileRegex 3 exStray) = [15; 41]%nat
  /\ map name (fst (extractFiles exIds exStray)) = [lit "a.js"; lit "b.js"]
  /\ snd (extractFiles exIds exStray)
     = notice (lit "b.js") ++ notice (lit "a.js") ++ lit "[FILE: b.js]```"
  /\ spansReplaced 0 exStray (matchAll fileRegex 3 exStray)
     = lit "[FILE: b.js]```" ++ notice (lit "a.js") ++ notice (lit "b.js").
Proof. vm_compute. repeat split. Qed.


(** *** Active selection when the first file is new *)

Lemma find_by_identity (a : jsstring) (l : list ProjectFile)
    (before : list ProjectFile) (target : jsstring * jsstring * jsstring)
    (behind : list (jsstring * jsstring * jsstring)) :
  map identity l = map identity before ++ target :: behind ->
  (forall f, In f before -> jseqb (id f) a = false) ->
  fst (fst target) = a ->
  exists g, find (fun f => jseqb (id f) a) l = Some g /\ identity g = target.
Proof.
  revert l. induction before as [|b before IH]; intros l E Hbefore Ha.
  - destruct l as [|g l]; [discriminate|]. simpl in E.
    assert (Eg : identity g = target) by congruence.
    exists g. split; [|exact Eg]. simpl.
    replace (id g) with a; [rewrite jseqb_refl; reflexivity|].
    rewrite <- Ha, <- Eg. reflexivity.
  - destruct l as [|g l]; [discriminate|]. simpl in E.
    assert (Eg : identity g = identity b) by congruence.
    assert (El : map identity l = map identity before ++ target :: behind)
      by congruence.
    destruct (IH l El) as [h [Hfind Hh]];
      [intros f Hf; apply Hbefore; right; exact Hf|exact Ha|].
    exists h. split; [|exact Hh]. simpl.
    replace (id g) with (id b) by (unfold identity in Eg; congruence).
    rewrite (Hbefore b (or_introl eq_refl)). exact Hfind.
Qed.

Lemma activeFile_shown (st : AppState) (a : jsstring) :
  activeFileId st = Some a ->
  activeFile st = if isEmpty a then None
                  else find (fun f => jseqb (id f) a) (projectFiles st).
Proof. intros H. unfold activeFile. rewrite H. destruct a; reflexivity. Qed.

(** X18: when the batch's first file takes a new name and its fresh id is
    not in use, the active identifier designates the entry appended for
    it, and the code pane shows this entry, provided the id is not the
    empty string; with the empty id the pane shows its placeholder. *)
Lemma active_after_append (rnd : nat -> jsstring) (text : jsstring)
    (st : AppState) (first : ProjectFile) (more : list ProjectFile)
    (clean : jsstring) :
  extractFiles rnd text = (first :: more, clean) ->
  (forall f, In f (projectFiles st) -> sameName f first = false) ->
  (forall f, In f (projectFiles st) -> jseqb (id f) (id first) = false) ->
  (isEmpty (id first) = false ->
   exists g, activeFile (handleResponse rnd text st) = Some g
             /\ identity g = identity first)
  /\ (isEmpty (id first) = true ->
      activeFile (handleResponse rnd text st) = None).
Proof.
  intros Hext Hname Hid.
  destruct (handleResponse_active rnd text st first more clean Hext)
    as [Hact Hfiles].
  rewrite (activeFile_shown _ _ Hact), Hfiles. split.
  - intros Hne. rewrite Hne.
    unfold mergeFiles. cbn [fold_left].
    assert (Hstep : mergeStep (projectFiles st) first = projectFiles st ++ [first]).
    { unfold mergeStep.
      rewrite (proj2 (findIndex_absent (fun f => sameName f first) (projectFiles st)) Hname).
      reflexivity. }
    rewrite Hstep.
    destruct (mergeFiles_identity (projectFiles st ++ [first]) more)
      as [added [_ Hident]].
    unfold mergeFiles in Hident. rewrite map_app, <- app_assoc in Hident.
    apply (find_by_identity (id first) _ (projectFiles st) (identity first)
             (map identity added) Hident Hid eq_refl).
  - intros He. rewrite He. reflexivity.
Qed.

(* ================================================================= *)
(** ** The scan of a text by [matchAll] *)

Lemma reaches_refl (x : MatchState) : reaches x x.
Proof. exists []. reflexivity. Qed.

Lemma reaches_trans (x y z : MatchState) :
  reaches x y -> reaches y z -> reaches x z.
Proof.
  intros [a Ha] [b Hb]. exists (a ++ b). rewrite Ha, Hb, app_assoc. reflexivity.
Qed.

Lemma RepeatMatcher_reaches
    (mr : MatchState -> Continuation -> option MatchState)
    (greedy : bool) (parens : list nat) (fuel : nat) :
  (forall x c z, mr x c = Some z -> exists y, c y = Some z /\ reaches x y) ->
  forall x c z, RepeatMatcher mr greedy parens fuel x c = Some z ->
  exists y, c y = Some z /\ reaches x y.
Proof.
  intros Hmr. induction fuel as [|fuel IH]; intros x c z H; simpl in H.
  - exists x. split; [exact H|apply reaches_refl].
  - assert (Hiter : forall z',
      mr (clearCaptures parens x)
         (fun y => if sameEnd x y then None
                   else RepeatMatcher mr greedy parens fuel y c) = Some z' ->
      exists y, c y = Some z' /\ reaches x y).
    { intros z' E. apply Hmr in E. destruct E as [y1 [E R1]].
      destruct (sameEnd x y1); [discriminate|].
      apply IH in E. destruct E as [y [E R2]].
      exists y. split; [exact E|].
      apply (reaches_trans x y1 y); [exact R1|exact R2]. }
    destruct greedy.
    + destruct (mr (clearCaptures parens x) _) as [z'|] eqn:E.
      * injection H as <-. apply Hiter. reflexivity.
      * exists x. split; [exact H|apply reaches_refl].
    + destruct (c x) as [z'|] eqn:E.
      * injection H as <-. exists x. split; [exact E|apply reaches_refl].
      * apply Hiter. exact H.
Qed.

(** The matcher only moves forward: the continuation is entered at a
    state further in the input. *)
Lemma matcher_reaches (r : regex) :
  forall x c z, matcher r x c = Some z ->
  exists y, c y = Some z /\ reaches x y.
Proof.
  induction r as [|p|r1 IH1 r2 IH2|greedy r IH|r IH|i r IH]; intros x c z H.
  - exists x. split; [exact H|apply reaches_refl].
  - simpl in H. destruct (rest x) as [|ch tl] eqn:E; [discriminate|].
    destruct (p ch); [|discriminate].
    exists (mkState tl (captures x)). split; [exact H|].
    exists [ch]. rewrite E. reflexivity.
  - simpl in H. apply IH1 in H. destruct H as [y1 [H R1]].
    apply IH2 in H. destruct H as [y2 [H R2]].
    exists y2. split; [exact H|]. apply (reaches_trans x y1 y2); assumption.
  - change (matcher (Star greedy r) x c)
      with (RepeatMatcher (matcher r) greedy (groupsOf r) (S (length (rest x))) x c)
      in H.
    apply (RepeatMatcher_reaches _ _ _ _ IH) in H. exact H.
  - rewrite matcher_opt in H.
    destruct (matcher r (clearCaptures (groupsOf r) x) _) as [z'|] eqn:E.
    + injection H as <-. apply IH in E. destruct E as [y [E R]].
      destruct (sameEnd x y); [discriminate|].
      exists y. split; [exact E|exact R].
    + exists x. split; [exact H|apply reaches_refl].
  - rewrite matcher_group in H. apply IH in H. destruct H as [y [H R]].
    eexists. split; [exact H|exact R].
Qed.

Lemma firstn_app_exact {A : Type} (a b : list A) : firstn (length a) (a ++ b) = a.
Proof. induction a as [|x a IH]; simpl; [reflexivity|rewrite IH; reflexivity]. Qed.

Lemma matcher_consumed (r : regex) (s : jsstring) cs (y : MatchState) :
  matcher r (mkState s cs) (fun y => Some y) = Some y ->
  exists consumed,
    s = consumed ++ rest y
    /\ firstn (length s - length (rest y)) s = consumed.
Proof.
  intros E. destruct (matcher_reaches r _ _ _ E) as [y' [Hy [consumed Hc]]].
  injection Hy as ->. cbn [rest] in Hc. exists consumed.
  split; [exact Hc|]. rewrite Hc. apply firstn_consumed.
Qed.

(** What [exec] returns: the leftmost position at which the pattern
    matches, the text it matched there and the text left. *)
Lemma exec_located (r : regex) (ncap : nat) (s : jsstring) :
  forall i m, exec r ncap i s = Some m ->
  exists pre,
    s = pre ++ m0 m ++ after m /\ index m = (i + length pre)%nat
    /\ matcher r (mkState (m0 m ++ after m) (repeat None ncap)) (fun y => Some y)
       = Some (mkState (after m) (groups m))
    /\ forall a b, pre = a ++ b -> b <> [] ->
         matcher r (mkState (b ++ m0 m ++ after m) (repeat None ncap))
                 (fun y => Some y) = None.
Proof.
  assert (Hhere : forall i t y,
    matcher r (mkState t (repeat None ncap)) (fun y => Some y) = Some y ->
    let m := mkMatch i (firstn (length t - length (rest y)) t) (captures y)
                     (rest y) in
    t = [] ++ m0 m ++ after m /\ index m = (i + length (@nil Z))%nat
    /\ matcher r (mkState (m0 m ++ after m) (repeat None ncap)) (fun y => Some y)
       = Some (mkState (after m) (groups m))
    /\ forall a b, @nil Z = a ++ b -> b <> [] ->
         matcher r (mkState (b ++ m0 m ++ after m) (repeat None ncap))
                 (fun y => Some y) = None).
  { intros i t y E m. unfold m. cbn [m0 after index groups].
    destruct (matcher_consumed r t _ y E) as [consumed [Ht Hf]].
    rewrite Hf. cbn [app length]. split; [exact Ht|]. split; [lia|]. split.
    - rewrite <- Ht, E. destruct y; reflexivity.
    - intros a b Hab Hb. destruct a; destruct b; simpl in Hab; congruence. }
  induction s as [|u s IH]; intros i m H; rewrite exec_unfold in H.
  - destruct (matcher r (mkState [] (repeat None ncap)) (fun y => Some y))
      as [y|] eqn:E; [|discriminate].
    injection H as <-. exists []. exact (Hhere i [] y E).
  - destruct (matcher r (mkState (u :: s) (repeat None ncap)) (fun y => Some y))
      as [y|] eqn:E.
    + injection H as <-. exists []. exact (Hhere i (u :: s) y E).
    + apply IH in H. destruct H as [pre [Hs [Hi [Hm Hleft]]]].
      exists (u :: pre). split; [simpl; rewrite <- Hs; reflexivity|].
      split; [simpl; lia|]. split; [exact Hm|].
      intros [|v a] b Hab Hb; simpl in Hab.
      * subst b. simpl. rewrite <- Hs. exact E.
      * injection Hab as -> Hab. apply (Hleft a b Hab Hb).
Qed.

Lemma exec_None_inv (r : regex) (ncap : nat) (s : jsstring) :
  forall i, exec r ncap i s = None ->
  forall j, matcher r (mkState (skipn j s) (repeat None ncap)) (fun y => Some y)
            = None.
Proof.
  induction s as [|u s IH]; intros i H j; rewrite exec_unfold in H.
  - destruct (matcher r (mkState [] (repeat None ncap)) (fun y => Some y))
      eqn:E; [discriminate|]. destruct j; exact E.
  - destruct (matcher r (mkState (u :: s) (repeat None ncap)) (fun y => Some y))
      eqn:E; [discriminate|].
    destruct j as [|j]; [exact E|]. simpl. apply (IH (S i) H).
Qed.

Lemma ordered_weaken (pos pos' : nat) (ms : list Match) :
  (pos' <= pos)%nat -> ordered pos ms = true -> ordered pos' ms = true.
Proof.
  destruct ms as [|m ms]; [reflexivity|]. simpl. intros Hle H.
  apply andb_true_iff in H. destruct H as [H1 H2].
  apply Nat.leb_le in H1. rewrite H2, andb_true_r. apply Nat.leb_le. lia.
Qed.

Lemma located_at (done pre : jsstring) (m : Match) :
  index m = length (done ++ pre) ->
  located ((done ++ pre) ++ m0 m ++ after m) m.
Proof.
  intros Hi. unfold located. rewrite Hi. split.
  - rewrite skipn_exact by reflexivity. apply firstn_app_exact.
  - rewrite app_assoc, <- length_app. apply skipn_exact. reflexivity.
Qed.

Lemma matchAllFrom_spans (r : regex) (ncap : nat) (fuel : nat) :
  forall i s done, length done = i ->
  ordered i (matchAllFrom fuel r ncap i s) = true
  /\ Forall (located (done ++ s)) (matchAllFrom fuel r ncap i s).
Proof.
  induction fuel as [|fuel IH]; intros i s done Hdone; simpl.
  - split; [reflexivity|constructor].
  - destruct (exec r ncap i s) as [m|] eqn:E; [|split; [reflexivity|constructor]].
    destruct (exec_located r ncap s i m E) as [pre [Hs [Hi _]]].
    assert (Hidx : index m = length (done ++ pre))
      by (rewrite length_app; lia).
    assert (Hloc : located (done ++ s) m).
    { rewrite Hs, app_assoc. apply located_at. exact Hidx. }
    assert (Hle : (i <=? index m)%nat = true) by (apply Nat.leb_le; lia).
    simpl. rewrite Hle. simpl.
    destruct (m0 m) as [|v mm] eqn:Em; [destruct (after m) as [|u s'] eqn:Ea|].
    + split; [reflexivity|]. constructor; [exact Hloc|constructor].
    + destruct (IH (S (index m + 0)) s' (done ++ pre ++ [u])) as [Ho Hl].
      { rewrite !length_app. simpl. rewrite length_app in Hidx. lia. }
      split.
      * apply (ordered_weaken (S (index m + 0))); [simpl; lia|]. exact Ho.
      * constructor; [exact Hloc|].
        replace (done ++ s) with ((done ++ pre ++ [u]) ++ s'); [exact Hl|].
        rewrite Hs. simpl. rewrite <- !app_assoc. reflexivity.
    + destruct (IH (index m + length (v :: mm))%nat (after m)
                   (done ++ pre ++ v :: mm)) as [Ho Hl].
      { rewrite !length_app. rewrite length_app in Hidx. lia. }
      split; [exact Ho|].
      constructor; [exact Hloc|].
      replace (done ++ s) with ((done ++ pre ++ v :: mm) ++ after m);
        [exact Hl|].
      rewrite Hs. rewrite <- !app_assoc. reflexivity.
Qed.

(** X2: whatever the pattern and the text, the matches [matchAll] reports
    come in increasing position without overlap, and each is where it
    says: its text is the text at its index and its remainder what
    follows. *)
Theorem matchAll_spans (r : regex) (ncap : nat) (text : jsstring) :
  ordered 0 (matchAll r ncap text) = true
  /\ Forall (located text) (matchAll r ncap text).
Proof. apply (matchAllFrom_spans r ncap (S (length text)) 0%nat text []). reflexivity. Qed.

Lemma skipn_app_exact {A : Type} (a b : list A) (k : nat) :
  skipn (length a + k) (a ++ b) = skipn k b.
Proof. induction a as [|x a IH]; simpl; [reflexivity|exact IH]. Qed.

Lemma matchAllFrom_complete (r : regex) (ncap : nat) (fuel : nat) :
  forall i s, (length s < fuel)%nat ->
  forall k, (k <= length s)%nat ->
  matcher r (mkState (skipn k s) (repeat None ncap)) (fun y => Some y) <> None ->
  exists m, In m (matchAllFrom fuel r ncap i s) /\ covers m (i + k).
Proof.
  induction fuel as [|fuel IH]; intros i s Hfuel k Hk Hmatch; [lia|].
  simpl. destruct (exec r ncap i s) as [m|] eqn:E.
  - destruct (exec_located r ncap s i m E) as [pre [Hs [Hi [_ Hleft]]]].
    assert (Hlen : length s = (length pre + length (m0 m) + length (after m))%nat)
      by (rewrite Hs at 1; rewrite !length_app; lia).
    destruct (Nat.lt_ge_cases k (length pre)) as [Hlt|Hge].
    { exfalso. apply Hmatch.
      rewrite <- (firstn_skipn k pre) in Hs.
      assert (Hk' : length (firstn k pre) = k) by (apply firstn_length_le; lia).
      rewrite Hs. rewrite <- app_assoc.
      rewrite <- Hk' at 1. rewrite <- (Nat.add_0_r (length (firstn k pre))).
      rewrite skipn_app_exact. simpl.
      apply (Hleft (firstn k pre) (skipn k pre)).
      - symmetry. apply firstn_skipn.
      - intros Hnil. apply (f_equal (@length Z)) in Hnil.
        rewrite length_skipn in Hnil. simpl in Hnil. lia. }
    destruct (Nat.lt_ge_cases k (length pre + length (m0 m))) as [Hin|Hout].
    { exists m. split; [left; reflexivity|]. unfold covers. lia. }
    destruct (Nat.eq_dec k (length pre)) as [Heq|Hne].
    { exists m. split; [left; reflexivity|]. unfold covers. lia. }
    destruct (m0 m) as [|v mm] eqn:Em; [destruct (after m) as [|u s'] eqn:Ea|].
    + simpl in *. lia.
    + simpl in Hlen, Hout.
      destruct (IH (S (index m + 0)) s') with (k := (k - length pre - 1)%nat)
        as [m' [Hin' Hcov]].
      * lia.
      * lia.
      * replace (skipn (k - length pre - 1) s') with (skipn k s); [exact Hmatch|].
        rewrite Hs. simpl.
        replace k with (length (pre ++ [u]) + (k - length pre - 1))%nat at 1
          by (rewrite length_app; simpl; lia).
        replace (pre ++ u :: s') with ((pre ++ [u]) ++ s')
          by (rewrite <- app_assoc; reflexivity).
        apply skipn_app_exact.
      * exists m'. split; [right; exact Hin'|].
        replace (i + k)%nat with (S (index m + 0) + (k - length pre - 1))%nat by lia.
        exact Hcov.
    + destruct (IH (index m + length (v :: mm))%nat (after m))
        with (k := (k - length pre - length (v :: mm))%nat)
        as [m' [Hin' Hcov]].
      * simpl in *. lia.
      * lia.
      * replace (skipn (k - length pre - length (v :: mm)) (after m))
          with (skipn k s); [exact Hmatch|].
        rewrite Hs.
        replace k with (length (pre ++ v :: mm)
                        + (k - length pre - length (v :: mm)))%nat at 1
          by (rewrite length_app; lia).
        rewrite app_assoc. apply skipn_app_exact.
      * exists m'. split; [right; exact Hin'|].
        replace (i + k)%nat
          with (index m + length (v :: mm)
                + (k - length pre - length (v :: mm)))%nat by lia.
        exact Hcov.
  - exfalso. apply Hmatch. apply (exec_None_inv r ncap s i E).
Qed.

(* ================================================================= *)
(** ** What a successful match looks like *)

Lemma greedyClass_None_inv (p : Z -> bool) (c : Continuation) cs (s : jsstring) :
  greedyClass p c cs s = None ->
  forall run t, s = run ++ t -> forallb p run = true ->
    c (mkState t cs) = None.
Proof.
  induction s as [|u s IH]; simpl; intros H run t E Hrun.
  - destruct run; [|discriminate]. simpl in E. subst t. exact H.
  - destruct run as [|v run]; simpl in E.
    + subst t. destruct (p u); [|exact H].
      destruct (greedyClass p c cs s); [discriminate|exact H].
    + injection E as <- E. simpl in Hrun. apply andb_true_iff in Hrun.
      destruct Hrun as [Hv Hrun]. rewrite Hv in H.
      destruct (greedyClass p c cs s) eqn:G; [discriminate|].
      apply (IH eq_refl run t E Hrun).
Qed.

(** A greedy class repetition that succeeds handed over after some run of
    members, every longer run having failed. *)
Lemma greedyClass_inv (p : Z -> bool) (c : Continuation) cs (s : jsstring)
    (z : MatchState) :
  greedyClass p c cs s = Some z ->
  exists run t,
    s = run ++ t /\ forallb p run = true /\ c (mkState t cs) = Some z
    /\ forall run' t', s = run' ++ t' -> forallb p run' = true ->
         (length run < length run')%nat -> c (mkState t' cs) = None.
Proof.
  revert z. induction s as [|u s IH]; simpl; intros z H.
  - exists [], []. repeat split; auto.
    intros run' t' E _ Hlen. destruct run'; [simpl in Hlen; lia|discriminate].
  - destruct (p u) eqn:Hu.
    + destruct (greedyClass p c cs s) as [z'|] eqn:G.
      * injection H as <-. destruct (IH z' eq_refl) as [run [t [E [Hrun [Hc Hmax]]]]].
        exists (u :: run), t. split; [simpl; rewrite E; reflexivity|].
        split; [simpl; rewrite Hu, Hrun; reflexivity|]. split; [exact Hc|].
        intros run' t' E' Hrun' Hlen.
        destruct run' as [|v run']; [simpl in Hlen; lia|].
        simpl in E'. injection E' as <- E'. simpl in Hrun'.
        apply andb_true_iff in Hrun'. destruct Hrun' as [_ Hrun'].
        apply (Hmax run' t' E' Hrun'). simpl in Hlen. lia.
      * exists [], (u :: s). repeat split; auto.
        intros run' t' E' Hrun' Hlen.
        destruct run' as [|v run']; [simpl in Hlen; lia|].
        simpl in E'. injection E' as <- E'. simpl in Hrun'.
        apply andb_true_iff in Hrun'. destruct Hrun' as [_ Hrun'].
        apply (greedyClass_None_inv p c cs s G run' t' E' Hrun').
    + exists [], (u :: s). repeat split; auto.
      intros run' t' E' Hrun' Hlen.
      destruct run' as [|v run']; [simpl in Hlen; lia|].
      simpl in E'. injection E' as <- E'. simpl in Hrun'.
      rewrite Hu in Hrun'. discriminate.
Qed.

(** A lazy class repetition that succeeds handed over after the shortest
    run of members at which the continuation accepts. *)
Lemma lazyClass_inv (p : Z -> bool) (c : Continuation) cs (s : jsstring)
    (z : MatchState) :
  lazyClass p c cs s = Some z ->
  exists run t,
    s = run ++ t /\ forallb p run = true /\ c (mkState t cs) = Some z
    /\ forall run' t', s = run' ++ t' ->
         (length run' < length run)%nat -> c (mkState t' cs) = None.
Proof.
  revert z. induction s as [|u s IH]; intros z H.
  - simpl in H. destruct (c (mkState [] cs)) as [z'|] eqn:E; [|discriminate].
    injection H as <-. exists [], []. repeat split; auto.
    intros run' t' _ Hlen. simpl in Hlen. lia.
  - simpl in H. destruct (c (mkState (u :: s) cs)) as [z'|] eqn:E.
    + injection H as <-. exists [], (u :: s). repeat split; auto.
      intros run' t' _ Hlen. simpl in Hlen. lia.
    + destruct (p u) eqn:Hu; [|discriminate].
      destruct (IH z H) as [run [t [Es [Hrun [Hc Hmin]]]]].
      exists (u :: run), t. split; [simpl; rewrite Es; reflexivity|].
      split; [simpl; rewrite Hu, Hrun; reflexivity|]. split; [exact Hc|].
      intros run' t' E' Hlen. destruct run' as [|v run']; simpl in E'.
      * subst t'. exact E.
      * injection E' as <- E'. apply (Hmin run' t' E'). simpl in Hlen. lia.
Qed.

Lemma lazyClass_some (p : Z -> bool) (c : Continuation) cs (run t : jsstring) :
  forallb p run = true -> c (mkState t cs) <> None ->
  lazyClass p c cs (run ++ t) <> None.
Proof.
  intros Hrun Hc. induction run as [|u run IH].
  - simpl. destruct t as [|v t]; simpl; destruct (c _); congruence.
  - simpl in Hrun. apply andb_true_iff in Hrun. destruct Hrun as [Hu Hrun].
    simpl. destruct (c (mkState (u :: run ++ t) cs)); [discriminate|].
    rewrite Hu. apply IH. exact Hrun.
Qed.

(** One or more members of a class inside capturing parentheses. *)
Lemma group_plus_inv (i : nat) (p : Z -> bool) (s : jsstring) cs
    (c : Continuation) (z : MatchState) :
  matcher (Group i (Plus (Chr p))) (mkState s cs) c = Some z ->
  exists u run t,
    s = u :: run ++ t /\ p u = true /\ forallb p run = true
    /\ c (mkState t (setCapture i (Some (u :: run)) cs)) = Some z.
Proof.
  intros H. unfold Plus in H. rewrite matcher_group, matcher_seq in H.
  destruct s as [|u s']; [rewrite matcher_chr_nil in H; discriminate|].
  rewrite matcher_chr in H. destruct (p u) eqn:Hu; [|discriminate].
  rewrite matcher_star_class in H.
  apply greedyClass_inv in H. destruct H as [run [t [Es [Hrun [H _]]]]].
  cbn [rest captures] in H. subst s'.
  change (u :: run ++ t) with ((u :: run) ++ t) in H.
  rewrite firstn_consumed in H.
  exists u, run, t. auto.
Qed.

Lemma Canonicalize_inv (u c : Z) :
  Canonicalize u = c -> (c <? 65) || (90 <? c) = true -> u = c.
Proof.
  unfold Canonicalize. intros H Hc.
  destruct ((97 <=? u) && (u <=? 122)) eqn:E; [|exact H].
  apply andb_true_iff in E. destruct E as [E1 E2].
  apply Z.leb_le in E1, E2. apply orb_true_iff in Hc.
  destruct Hc as [Hc|Hc]; apply Z.ltb_lt in Hc; lia.
Qed.

Lemma prefixI_keyword (p s : jsstring) :
  prefixI p s = true ->
  exists kw t, s = kw ++ t /\ map Canonicalize kw = map Canonicalize p
               /\ t = skipn (length p) s.
Proof.
  revert s. induction p as [|x p IH]; intros s H.
  - exists [], s. auto.
  - destruct s as [|y s]; [discriminate|]. simpl in H.
    apply andb_true_iff in H. destruct H as [Hy H].
    apply Z.eqb_eq in Hy. destruct (IH s H) as [kw [t [Es [Hk Ht]]]].
    exists (y :: kw), t. split; [simpl; rewrite <- Es; reflexivity|].
    split; [simpl; rewrite Hy, Hk; reflexivity|exact Ht].
Qed.

Lemma prefixI_backticks (t : jsstring) :
  prefixI backticks t = true -> t = backticks ++ skipn 3 t.
Proof.
  destruct t as [|a [|b [|c t]]]; try discriminate.
  - simpl. destruct (Canonicalize a =? Canonicalize 96); discriminate.
  - simpl. destruct (Canonicalize a =? Canonicalize 96);
      destruct (Canonicalize b =? Canonicalize 96); discriminate.
  - simpl. intros H.
    apply andb_true_iff in H. destruct H as [Ha H].
    apply andb_true_iff in H. destruct H as [Hb H].
    apply andb_true_iff in H. destruct H as [Hc _].
    apply Z.eqb_eq in Ha, Hb, Hc.
    apply Canonicalize_inv in Ha; [|reflexivity].
    apply Canonicalize_inv in Hb; [|reflexivity].
    apply Canonicalize_inv in Hc; [|reflexivity].
    subst. reflexivity.
Qed.

Lemma prefixI_app_true (p x y : jsstring) :
  prefixI p x = true -> prefixI p (x ++ y) = true.
Proof.
  revert x. induction p as [|a p IH]; intros x H; [reflexivity|].
  destruct x as [|b x]; [discriminate|]. simpl in *.
  apply andb_true_iff in H. destruct H as [-> H]. apply IH. exact H.
Qed.

Lemma firstOccI_at (p pre t : jsstring) :
  prefixI p t = true ->
  (forall a b, pre = a ++ b -> b <> [] -> prefixI p (b ++ t) = false) ->
  firstOccI p (pre ++ t) = Some (length pre).
Proof.
  intros Ht. induction pre as [|u pre IH]; intros Hpre.
  - simpl. destruct t as [|v t]; simpl; simpl in Ht; rewrite Ht; reflexivity.
  - pose proof (Hpre [] (u :: pre) eq_refl) as H0.
    cbn [app] in H0. cbn [app length firstOccI]. rewrite H0 by discriminate.
    rewrite IH; [reflexivity|].
    intros a b E Hb. apply (Hpre (u :: a) b); [|exact Hb].
    simpl. rewrite E. reflexivity.
Qed.

Lemma trimStart_split (s : jsstring) :
  exists w, s = w ++ trimStart s /\ forallb isWhiteSpace w = true
            /\ headNot isWhiteSpace (trimStart s) = true.
Proof.
  induction s as [|u s IH]; simpl.
  - exists []. auto.
  - destruct (isWhiteSpace u) eqn:Hu.
    + destruct IH as [w [E [Hw Hh]]]. exists (u :: w).
      split; [simpl; rewrite <- E; reflexivity|].
      split; [simpl; rewrite Hu, Hw; reflexivity|exact Hh].
    + exists []. split; [reflexivity|]. split; [reflexivity|].
      simpl. rewrite Hu. reflexivity.
Qed.

(** From the end of the language tag on, read backwards from a success:
    whitespace, a line break, the body up to the first closing fence. *)
Lemma fence_tail_inv (t : jsstring) c1 c2 (z : MatchState) :
  matcher
    (Seq (Star true (Chr isWhiteSpace))
       (Seq (Chr isNewline)
          (Seq (Group 3 (Star false (Chr anyUnit))) (litI backticks))))
    (mkState t [c1; c2; None]) (fun y => Some y) = Some z ->
  exists g3 nlc ind cd more,
    t = g3 ++ nlc :: ind ++ cd ++ backticks ++ more
    /\ forallb isWhiteSpace g3 = true /\ isNewline nlc = true
    /\ forallb isBlank ind = true /\ headNot isWhiteSpace cd = true
    /\ closesAt (ind ++ cd) = true
    /\ z = mkState more [c1; c2; Some (ind ++ cd)].
Proof.
  intros H. rewrite matcher_seq, matcher_star_class in H.
  apply greedyClass_inv in H. destruct H as [g3 [t1 [Et [Hg3 [H Hmax]]]]].
  rewrite matcher_seq in H.
  destruct t1 as [|nlc t2]; [rewrite matcher_chr_nil in H; discriminate|].
  rewrite matcher_chr in H. destruct (isNewline nlc) eqn:Hnl; [|discriminate].
  rewrite matcher_seq, matcher_group, matcher_star_class in H.
  apply lazyClass_inv in H. destruct H as [body [t3 [Et2 [_ [H Hmin]]]]].
  cbn [rest captures] in H. rewrite Et2, firstn_consumed in H.
  cbn [setCapture] in H. rewrite matcher_litI in H.
  destruct (prefixI backticks t3) eqn:Hfence; [|discriminate].
  injection H as <-. apply prefixI_backticks in Hfence.
  set (more := skipn 3 t3) in *.
  destruct (trimStart_split body) as [ind [Ebody [Hind Hcd]]].
  set (cd := trimStart body) in *.
  assert (Hclose : closesAt body = true).
  { unfold closesAt. rewrite (firstOccI_at backticks body backticks eq_refl).
    - apply Nat.eqb_refl.
    - intros a b Eb Hb.
      destruct (prefixI backticks (b ++ backticks)) eqn:Hp; [|reflexivity].
      assert (Hlen : (length a < length body)%nat).
      { rewrite Eb, length_app. destruct b; [congruence|simpl; lia]. }
      assert (Esplit : t2 = a ++ b ++ t3)
        by (rewrite Et2, Eb, <- app_assoc; reflexivity).
      pose proof (Hmin a (b ++ t3) Esplit Hlen) as Hfail.
      cbn [rest captures] in Hfail.
      rewrite matcher_litI in Hfail. rewrite Hfence in Hfail.
      rewrite app_assoc in Hfail.
      rewrite (prefixI_app_true backticks (b ++ backticks) more Hp) in Hfail.
      discriminate. }
  assert (Hblank : forallb isBlank ind = true).
  { apply forallb_forall. intros v Hv.
    pose proof (proj1 (forallb_forall _ _) Hind v Hv) as Hws.
    unfold isBlank. rewrite Hws. simpl.
    destruct (isNewline v) eqn:Hv'; [|reflexivity]. exfalso.
    apply in_split in Hv. destruct Hv as [a [b Eind]].
    assert (Hrun : forallb isWhiteSpace (g3 ++ nlc :: a) = true).
    { rewrite forallb_app, Hg3. simpl.
      rewrite (newline_is_space nlc Hnl). simpl.
      rewrite Eind, forallb_app in Hind. apply andb_true_iff in Hind.
      apply Hind. }
    pose proof (Hmax (g3 ++ nlc :: a) (v :: b ++ cd ++ t3)) as Hfail.
    assert (Esplit : t = (g3 ++ nlc :: a) ++ v :: b ++ cd ++ t3).
    { rewrite Et, Et2, Ebody, Eind.
      repeat (rewrite <- app_assoc; cbn [app]). reflexivity. }
    specialize (Hfail Esplit Hrun).
    rewrite length_app in Hfail. cbn [length] in Hfail.
    assert (Hlen : (length g3 < length g3 + S (length a))%nat) by lia.
    specialize (Hfail Hlen).
    rewrite matcher_seq, matcher_chr, Hv' in Hfail.
    rewrite matcher_seq, matcher_group, matcher_star_class in Hfail.
    rewrite app_assoc in Hfail.
    revert Hfail. apply lazyClass_some; [apply anyUnit_all|].
    cbn [rest captures]. rewrite matcher_litI.
    rewrite Hfence at 1.
    rewrite (prefixI_self backticks backticks more eq_refl). discriminate. }
  exists g3, nlc, ind, cd, more.
  split; [rewrite Et, Et2, Ebody, Hfence, <- !app_assoc; reflexivity|].
  rewrite <- Ebody. repeat split; assumption.
Qed.

(** Read backwards from a success of the whole pattern: the text starts
    with a well-formed block, and the captures are its path, tag and
    body. *)
Lemma fileRegex_inv (s : jsstring) (z : MatchState) :
  matcher fileRegex (mkState s [None; None; None]) (fun y => Some y) = Some z ->
  exists b,
    wellFormedBlock b = true /\ s = blockText b ++ rest z
    /\ captures z = [Some (path b); tagCapture b; Some (indent b ++ code b)].
Proof.
  intros H. unfold fileRegex in H. fold marker in H.
  rewrite matcher_seq, matcher_litI in H.
  destruct (prefixI marker s) eqn:Hkw; [|discriminate].
  destruct (prefixI_keyword marker s Hkw) as [kw [s1 [Es [Hkw' Es1]]]].
  rewrite <- Es1 in H. clear Es1.
  rewrite matcher_seq, matcher_star_class in H.
  apply greedyClass_inv in H. destruct H as [g1 [s2 [Es1 [Hg1 [H _]]]]].
  rewrite matcher_seq in H.
  apply group_plus_inv in H.
  destruct H as [n1 [pth [s3 [Es2 [Hn1 [Hpth H]]]]]].
  cbn [setCapture] in H.
  rewrite matcher_seq in H. unfold chI in H.
  destruct s3 as [|rb s4]; [rewrite matcher_chr_nil in H; discriminate|].
  rewrite matcher_chr in H.
  destruct (Canonicalize rb =? Canonicalize 93) eqn:Hrb; [|discriminate].
  apply Z.eqb_eq in Hrb. apply Canonicalize_inv in Hrb; [|reflexivity].
  change (Canonicalize 93) with 93 in Hrb. subst rb.
  rewrite matcher_seq, matcher_star_class in H.
  apply greedyClass_inv in H. destruct H as [g2 [s5 [Es4 [Hg2 [H _]]]]].
  rewrite matcher_seq, matcher_star_class in H.
  apply greedyClass_inv in H. destruct H as [nls [s6 [Es5 [Hnls [H _]]]]].
  rewrite matcher_seq, matcher_litI in H.
  destruct (prefixI backticks s6) eqn:Hfence; [|discriminate].
  apply prefixI_backticks in Hfence.
  change (length backticks) with 3%nat in H.
  set (s7 := skipn 3 s6) in *.
  assert (Htag : exists tg s8,
    s7 = tg ++ s8 /\ forallb isWord tg = true
    /\ matcher
         (Seq (Star true (Chr isWhiteSpace))
            (Seq (Chr isNewline)
               (Seq (Group 3 (Star false (Chr anyUnit))) (litI backticks))))
         (mkState s8 [Some (n1 :: pth);
                      match tg with [] => None | _ :: _ => Some tg end; None])
         (fun y => Some y) = Some z).
  { rewrite matcher_seq, matcher_opt in H.
    unfold clearCaptures in H.
    cbn [groupsOf fold_left rest captures app setCapture] in H.
    match type of H with
    | match ?M with _ => _ end = _ => destruct M as [z'|] eqn:Eopt
    end.
    - injection H as <-. apply group_plus_inv in Eopt.
      destruct Eopt as [t1 [tg [s8 [Es7 [Ht1 [Htg Hc]]]]]].
      destruct (sameEnd _ _); [discriminate|].
      cbn [setCapture] in Hc.
      exists (t1 :: tg), s8. split; [exact Es7|].
      split; [simpl; rewrite Ht1, Htg; reflexivity|exact Hc].
    - exists [], s7. split; [reflexivity|]. split; [reflexivity|exact H]. }
  destruct Htag as [tg [s8 [Es7 [Htg Htail]]]].
  apply fence_tail_inv in Htail.
  destruct Htail as [g3 [nlc [ind [cd [more [Es8 [Hg3 [Hnl [Hind [Hcd [Hcl Hz]]]]]]]]]]].
  exists (mkBlock kw g1 (n1 :: pth) (g2 ++ nls) tg g3 nlc ind cd).
  split; [|split].
  - unfold wellFormedBlock.
    cbn [keyword gap1 path gap2 tag gap3 eol indent code].
    rewrite (proj2 (jseqb_spec _ _) Hkw'), Hg1, Htg, Hg3, Hnl, Hind, Hcd, Hcl.
    cbn [forallb isEmpty negb andb]. rewrite Hn1, Hpth.
    rewrite forallb_app, Hg2. cbn [andb].
    replace (forallb isWhiteSpace nls) with true; [reflexivity|].
    symmetry. apply forallb_forall. intros v Hv.
    apply newline_is_space.
    apply (proj1 (forallb_forall _ _) Hnls v Hv).
  - subst z. cbn [rest]. unfold blockText.
    cbn [keyword gap1 path gap2 tag gap3 eol indent code].
    rewrite Es, Es1, Es2, Es4, Es5, Hfence. fold s7. rewrite Es7, Es8.
    repeat (rewrite <- app_assoc; cbn [app]). reflexivity.
  - subst z. cbn [captures]. unfold tagCapture. cbn [tag path indent code].
    reflexivity.
Qed.

Lemma matchAllFrom_exec (r : regex) (ncap : nat) (fuel : nat) :
  forall i s m, In m (matchAllFrom fuel r ncap i s) ->
  exists i' s', exec r ncap i' s' = Some m.
Proof.
  induction fuel as [|fuel IH]; intros i s m H; simpl in H; [destruct H|].
  destruct (exec r ncap i s) as [m'|] eqn:E; [|destruct H].
  destruct H as [<-|H]; [exists i, s; exact E|].
  destruct (m0 m') as [|v mm]; [destruct (after m') as [|u s']|].
  - destruct H.
  - apply IH in H. exact H.
  - apply IH in H. exact H.
Qed.

Lemma exec_block (i : nat) (s : jsstring) (m : Match) :
  exec fileRegex 3 i s = Some m -> isBlockMatch m.
Proof.
  intros E. destruct (exec_located fileRegex 3 s i m E) as [pre [_ [_ [Hm _]]]].
  apply fileRegex_inv in Hm. destruct Hm as [b [Hwf [Hs Hcaps]]].
  cbn [rest captures] in Hs, Hcaps. apply app_inv_tail in Hs.
  exists b. auto.
Qed.

(** X4: every match the parser works from is a well-formed block: its
    text is the keyword, a path of path characters, the bracket, a fence
    with an optional tag of word characters, a line break and a body
    running to the first closing fence, and its three captures are the
    path, the tag and the body. *)
Theorem fileRegex_blocks (text : jsstring) :
  Forall isBlockMatch (matchAll fileRegex 3 text).
Proof.
  apply Forall_forall. intros m Hm.
  apply matchAllFrom_exec in Hm. destruct Hm as [i [s E]].
  apply (exec_block i s m E).
Qed.

Lemma trim_idem (s : jsstring) : trim (trim s) = trim s.
Proof.
  unfold trim, trimEnd.
  destruct (trimStart_split s) as [w0 [_ [_ Hhead]]].
  set (t := trimStart s) in *.
  destruct (trimStart_split (rev t)) as [w [E [_ Hr]]].
  set (r := trimStart (rev t)) in *.
  assert (Hrev : headNot isWhiteSpace (rev r) = true).
  { assert (Et : t = rev r ++ rev w).
    { rewrite <- (rev_involutive t), E, rev_app_distr. reflexivity. }
    destruct (rev r) as [|u q]; [reflexivity|].
    rewrite Et in Hhead. exact Hhead. }
  rewrite (trimStart_head (rev r) Hrev), rev_involutive.
  rewrite (trimStart_head r Hr). reflexivity.
Qed.

Lemma extractLoop_files (rnd : nat -> jsstring) (ms : list Match) :
  forall k files clean,
  fst (extractLoop rnd k ms files clean) = files ++ filesFrom rnd k ms.
Proof.
  induction ms as [|m ms IH]; intros k files clean; simpl.
  - rewrite app_nil_r. reflexivity.
  - rewrite IH, <- app_assoc. reflexivity.
Qed.

Lemma filesFrom_ids (rnd : nat -> jsstring) (ms : list Match) :
  forall k, map id (filesFrom rnd k ms) = map rnd (seq k (length ms)).
Proof.
  induction ms as [|m ms IH]; intros k; simpl; [reflexivity|].
  rewrite IH. reflexivity.
Qed.

Lemma filesFrom_length (rnd : nat -> jsstring) (ms : list Match) :
  forall k, length (filesFrom rnd k ms) = length ms.
Proof.
  induction ms as [|m ms IH]; intros k; simpl; [reflexivity|].
  rewrite IH. reflexivity.
Qed.

Lemma fileOfMatch_tidy (newId : jsstring) (m : Match) :
  isBlockMatch m -> tidyFile (fileOfMatch newId m).
Proof.
  intros [b [Hwf [_ Hg]]].
  assert (Efile : fileOfMatch newId m = fileOfBlock newId b).
  { unfold fileOfMatch, fileOfBlock, capStr, capOr, cap. rewrite Hg.
    cbn [nth pred]. unfold tagCapture.
    destruct (tag b) as [|t1 tg]; reflexivity. }
  rewrite Efile.
  destruct (fileOfBlock_fields newId b Hwf) as [Hname [Hpath Hlang]].
  unfold wellFormedBlock in Hwf.
  repeat (apply andb_true_iff in Hwf; destruct Hwf as [Hwf ?]).
  unfold tidyFile. split; [|split; [exact Hpath|split; [|split]]].
  - rewrite Hname. destruct (path b); [discriminate|discriminate].
  - rewrite Hlang. destruct (tag b); discriminate.
  - rewrite Hlang. destruct (tag b) as [|t1 tg] eqn:Et; [reflexivity|].
    assumption.
  - unfold fileOfBlock. cbn [content]. apply trim_idem.
Qed.

Lemma filesFrom_tidy (rnd : nat -> jsstring) (ms : list Match) :
  (forall m, In m ms -> isBlockMatch m) ->
  forall k, Forall tidyFile (filesFrom rnd k ms).
Proof.
  induction ms as [|m ms IH]; intros Hall k; simpl; constructor.
  - apply fileOfMatch_tidy, Hall. left. reflexivity.
  - apply IH. intros m' Hm'. apply Hall. right. exact Hm'.
Qed.

Lemma extractFiles_tidy (rnd : nat -> jsstring) (text : jsstring) :
  Forall tidyFile (fst (extractFiles rnd text)).
Proof.
  unfold extractFiles. rewrite extractLoop_files. cbn [app].
  apply filesFrom_tidy. intros m Hm.
  apply matchAllFrom_exec in Hm. destruct Hm as [i [s E]].
  apply (exec_block i s m E).
Qed.

(** X5: whatever the reply, the files the parser returns are as many as
    the matches, carry the identifiers drawn in order, and are tidy: the
    name is a non-empty run of word characters, dots, slashes and hyphens,
    the language a non-empty run of word characters, and the content has
    no whitespace left at either end. *)
Theorem extractFiles_fields (rnd : nat -> jsstring) (text : jsstring) :
  length (fst (extractFiles rnd text)) = length (matchAll fileRegex 3 text)
  /\ map id (fst (extractFiles rnd text))
     = map rnd (seq 0 (length (matchAll fileRegex 3 text)))
  /\ Forall tidyFile (fst (extractFiles rnd text)).
Proof.
  unfold extractFiles. rewrite extractLoop_files. cbn [app].
  split; [apply filesFrom_length|]. split; [apply filesFrom_ids|].
  pose proof (extractFiles_tidy rnd text) as H.
  unfold extractFiles in H. rewrite extractLoop_files in H. exact H.
Qed.

Lemma blockText_nonempty (b : Block) : blockText b <> [].
Proof.
  unfold blockText. intros H. apply (f_equal (@length Z)) in H.
  rewrite !length_app in H. simpl in H. lia.
Qed.

Lemma noBlock_matchAll (text : jsstring) :
  noBlock text <-> matchAll fileRegex 3 text = [].
Proof.
  split.
  - intros Hno. destruct (matchAll fileRegex 3 text) as [|m ms] eqn:E;
      [reflexivity|]. exfalso.
    assert (Hin : In m (matchAll fileRegex 3 text)) by (rewrite E; left; reflexivity).
    unfold matchAll in Hin. apply matchAllFrom_exec in Hin.
    destruct Hin as [i [s Hex]].
    pose proof (exec_block i s m Hex) as [b [Hwf [Hm0 _]]].
    destruct (matchAllFrom_spans fileRegex 3 (S (length text)) 0%nat text []
                eq_refl) as [_ Hloc].
    fold (matchAll fileRegex 3 text) in Hloc. rewrite E in Hloc.
    inversion Hloc as [|? ? [Hfirst Hafter] _]; subst.
    assert (Hsplit : skipn (index m) text = blockText b ++ after m).
    { rewrite <- Hm0, <- Hafter, <- Hfirst at 1.
      rewrite Nat.add_comm, <- skipn_skipn.
      symmetry. apply firstn_skipn. }
    rewrite (Hno (index m) b (after m) Hsplit) in Hwf. discriminate.
  - intros Hnil j b more Hs.
    destruct (wellFormedBlock b) eqn:Hwf; [|reflexivity]. exfalso.
    assert (Hj : (j <= length text)%nat).
    { destruct (Nat.le_gt_cases j (length text)) as [Hle|Hgt]; [exact Hle|].
      rewrite skipn_all2 in Hs by lia.
      destruct (blockText b) eqn:Eb; [|discriminate].
      destruct (blockText_nonempty b Eb). }
    destruct (matchAllFrom_complete fileRegex 3 (S (length text)) 0%nat text)
      with (k := j) as [m [Hin _]]; [lia|exact Hj| |].
    + rewrite Hs. change (repeat None 3) with [@None jsstring; None; None].
      rewrite (fileRegex_at_block b more Hwf). discriminate.
    + fold (matchAll fileRegex 3 text) in Hin. rewrite Hnil in Hin.
      destruct Hin.
Qed.

(** X3: no block is missed.  Wherever a well-formed block starts in the
    reply, the parser reports a match that starts there or that spans
    this position: the scan runs over the whole reply, and a block goes
    unreported only when it lies inside a reported one. *)
Theorem blocks_covered (text : jsstring) (j : nat) (b : Block)
    (more : jsstring) :
  skipn j text = blockText b ++ more -> wellFormedBlock b = true ->
  exists m, In m (matchAll fileRegex 3 text) /\ covers m j.
Proof.
  intros Hs Hwf.
  assert (Hj : (j <= length text)%nat).
  { destruct (Nat.le_gt_cases j (length text)) as [Hle|Hgt]; [exact Hle|].
    rewrite skipn_all2 in Hs by lia.
    destruct (blockText b) eqn:Eb; [|discriminate].
    destruct (blockText_nonempty b Eb). }
  apply (matchAllFrom_complete fileRegex 3 (S (length text)) 0%nat text);
    [lia|exact Hj|].
  rewrite Hs. change (repeat None 3) with [@None jsstring; None; None].
  rewrite (fileRegex_at_block b more Hwf). discriminate.
Qed.

Lemma blocks_covered_witness :
  exists m, In m (matchAll fileRegex 3 exReply) /\ covers m 9.
Proof.
  apply (blocks_covered exReply 9 exBlockReply []).
  - reflexivity.
  - reflexivity.
Defined.

(** X6: a reply yields no file exactly when no well-formed block starts
    anywhere in it, and then its text comes back verbatim. *)
Theorem extractFiles_none_iff (rnd : nat -> jsstring) (text : jsstring) :
  (fst (extractFiles rnd text) = [] <-> noBlock text)
  /\ (fst (extractFiles rnd text) = [] -> snd (extractFiles rnd text) = text).
Proof.
  assert (Hiff : fst (extractFiles rnd text) = []
                 <-> matchAll fileRegex 3 text = []).
  { unfold extractFiles. rewrite extractLoop_files. cbn [app].
    destruct (matchAll fileRegex 3 text); simpl; split; congruence. }
  split.
  - rewrite Hiff. symmetry. apply noBlock_matchAll.
  - intros H. apply Hiff in H. unfold extractFiles. rewrite H. reflexivity.
Qed.

Lemma isPrefix_split (p s : jsstring) :
  isPrefix p s = true -> s = p ++ skipn (length p) s.
Proof.
  revert s. induction p as [|x p IH]; intros s H; [reflexivity|].
  destruct s as [|y s]; [discriminate|]. simpl in H.
  apply andb_true_iff in H. destruct H as [Hxy H].
  apply Z.eqb_eq in Hxy. subst y. simpl. rewrite <- (IH s H). reflexivity.
Qed.

Lemma block_notice_literal (m : Match) (before behind : jsstring) :
  isBlockMatch m ->
  GetSubstitution (m0 m) before behind (notice (capStr m 1))
  = notice (capStr m 1).
Proof.
  intros [b [Hwf [_ Hg]]].
  assert (Hcap : capStr m 1 = path b).
  { unfold capStr, cap. rewrite Hg. reflexivity. }
  rewrite Hcap. apply GetSubstitution_plain.
  apply fileOfBlock_fields with (newId := []) in Hwf.
  destruct Hwf as [Hname [Hpath _]]. rewrite Hname in Hpath.
  apply (notice_plain (path b) Hpath).
Qed.

(** The first match is replaced where it was found: no earlier place of
    the text holds the same block. *)
Lemma first_replacement (text : jsstring) (m : Match) (ms : list Match) :
  matchAll fileRegex 3 text = m :: ms ->
  replace text (m0 m) (notice (capStr m 1))
  = firstn (index m) text ++ notice (capStr m 1) ++ after m.
Proof.
  intros Hall.
  assert (E : exec fileRegex 3 0 text = Some m).
  { unfold matchAll in Hall. cbn [matchAllFrom] in Hall.
    destruct (exec fileRegex 3 0 text) as [m'|]; [|discriminate].
    injection Hall as -> _. reflexivity. }
  destruct (exec_located fileRegex 3 text 0%nat m E) as [pre [Hs [Hi [_ Hleft]]]].
  pose proof (exec_block 0%nat text m E) as Hblock.
  destruct Hblock as [b [Hwf [Hm0 Hg]]].
  assert (Hsplit : splitFirst (m0 m) text = Some (pre, after m)).
  { rewrite Hs at 1. apply splitFirst_at. intros a y Ea Hy.
    destruct (isPrefix (m0 m) (y ++ m0 m ++ after m)) eqn:Ep; [|reflexivity].
    exfalso. apply isPrefix_split in Ep.
    pose proof (Hleft a y Ea Hy) as Hnone.
    rewrite Ep, Hm0 in Hnone.
    change (repeat None 3) with [@None jsstring; None; None] in Hnone.
    rewrite (fileRegex_at_block b _ Hwf) in Hnone. discriminate. }
  unfold replace. rewrite Hsplit.
  rewrite (block_notice_literal m pre (after m));
    [|exists b; auto].
  rewrite Hs, Hi. cbn [Nat.add].
  rewrite firstn_app_exact. reflexivity.
Qed.

(** X7: a reply in which the parser finds exactly one block is always
    handled as intended, whatever surrounds the block: one file, and the
    text with the block, at the place where it was found, replaced by
    the notice. *)
Theorem extractFiles_single (rnd : nat -> jsstring) (text : jsstring)
    (m : Match) :
  matchAll fileRegex 3 text = [m] ->
  extractFiles rnd text
  = ([fileOfMatch (rnd 0%nat) m],
     firstn (index m) text ++ notice (capStr m 1) ++ after m).
Proof.
  intros H. unfold extractFiles. rewrite H. cbn [extractLoop app].
  rewrite (first_replacement text m [] H). reflexivity.
Qed.

Lemma extractFiles_single_witness :
  extractFiles exIds exReply
  = ([mkFile (exIds 0) (lit "A.JS") (lit "javascript") (lit "let a = 2;")],
     lit "Updated. " ++ notice (lit "A.JS")).
Proof.
  apply (extractFiles_single exIds exReply
           (nth 0 (matchAll fileRegex 3 exReply) (mkMatch 0 [] [] []))).
  vm_compute. reflexivity.
Defined.

(** X8: the notice is always inserted as written.  The name the pattern
    captures holds no dollar sign, so whatever text the replacement runs
    on, none of the patterns of [String.prototype.replace] is expanded: the
    result is the text itself when the block does not occur in it, and
    otherwise the text with the first occurrence of the block replaced by
    the notice. *)
Theorem replacement_literal (text : jsstring) :
  Forall (fun m => forall clean,
            replace clean (m0 m) (notice (capStr m 1))
            = match splitFirst (m0 m) clean with
              | None => clean
              | Some (before, behind) => before ++ notice (capStr m 1) ++ behind
              end)
         (matchAll fileRegex 3 text).
Proof.
  apply Forall_forall. intros m Hm clean.
  apply matchAllFrom_exec in Hm. destruct Hm as [i [s E]].
  apply exec_block in E. unfold replace.
  destruct (splitFirst (m0 m) clean) as [[before behind]|]; [|reflexivity].
  rewrite (block_notice_literal m before behind E). reflexivity.
Qed.

(* ================================================================= *)
(** ** The merge as an upsert: lookup, frame, repetition *)

Lemma findIndex_existsb {A : Type} (p : A -> bool) (l : list A) :
  (findIndex p l >? -1) = existsb p l.
Proof.
  induction l as [|a l IH]; simpl; [reflexivity|].
  destruct (p a); [reflexivity|]. simpl. rewrite <- IH.
  destruct (findIndex_range p l) as [E|E].
  - rewrite E. reflexivity.
  - destruct (Z.gtb_spec (findIndex p l) (-1)); [|lia].
    destruct (Z.gtb_spec (findIndex p l + 1) (-1)); [reflexivity|lia].
Qed.

Lemma updateAt_overwrite (nf : ProjectFile) (l : list ProjectFile) :
  existsb (fun f => sameName f nf) l = true ->
  updateAt (Z.to_nat (findIndex (fun f => sameName f nf) l))
           (setContent (content nf)) l
  = overwrite nf l.
Proof.
  induction l as [|a l IH]; simpl; [discriminate|].
  destruct (sameName a nf) eqn:Ha; [reflexivity|]. simpl. intros H.
  rewrite <- findIndex_existsb in H. rewrite H.
  assert (Hpos : -1 < findIndex (fun f => sameName f nf) l)
    by (apply Z.gtb_lt in H; lia).
  replace (Z.to_nat (findIndex (fun f => sameName f nf) l + 1))
    with (S (Z.to_nat (findIndex (fun f => sameName f nf) l))) by lia.
  simpl. rewrite IH; [reflexivity|]. rewrite <- findIndex_existsb. exact H.
Qed.

(** A merge step without indices: an in-place rewrite when the name is
    known, an append otherwise. *)
Lemma mergeStep_overwrite (l : list ProjectFile) (nf : ProjectFile) :
  mergeStep l nf
  = if existsb (fun f => sameName f nf) l then overwrite nf l else l ++ [nf].
Proof.
  unfold mergeStep. rewrite findIndex_existsb.
  destruct (existsb (fun f => sameName f nf) l) eqn:E; [|reflexivity].
  apply updateAt_overwrite. exact E.
Qed.

Lemma sameName_refl (a : ProjectFile) : sameName a a = true.
Proof. apply jseqb_refl. Qed.

Lemma sameName_sym (a b : ProjectFile) : sameName a b = sameName b a.
Proof.
  destruct (sameName a b) eqn:E1; destruct (sameName b a) eqn:E2;
    try reflexivity.
  - apply sameName_key in E1. symmetry in E1. apply sameName_key in E1. congruence.
  - apply sameName_key in E2. symmetry in E2. apply sameName_key in E2. congruence.
Qed.

Lemma sameName_same (g nf f : ProjectFile) :
  sameName g nf = true -> sameName f g = sameName f nf.
Proof.
  intros H. apply sameName_key in H.
  destruct (sameName f g) eqn:E1; destruct (sameName f nf) eqn:E2;
    try reflexivity.
  - apply sameName_key in E1.
    assert (E : nameKey f = nameKey nf) by congruence.
    apply sameName_key in E. congruence.
  - apply sameName_key in E2.
    assert (E : nameKey f = nameKey g) by congruence.
    apply sameName_key in E. congruence.
Qed.

Lemma find_overwrite_same (g nf : ProjectFile) (l : list ProjectFile) :
  sameName g nf = true ->
  existsb (fun f => sameName f g) l = true ->
  exists f, find (fun f => sameName f nf) (overwrite g l) = Some f
            /\ content f = content g /\ sameName f nf = true.
Proof.
  intros Hg. induction l as [|a l IH]; simpl; [discriminate|].
  pose proof (sameName_same g nf a Hg) as Hsame.
  destruct (sameName a g) eqn:Ha.
  - intros _. cbn [find].
    change (sameName (setContent (content g) a) nf) with (sameName a nf).
    rewrite <- Hsame.
    eexists. split; [reflexivity|]. split; [reflexivity|].
    change (sameName (setContent (content g) a) nf) with (sameName a nf).
    symmetry. exact Hsame.
  - cbn [find orb]. rewrite <- Hsame. exact IH.
Qed.

Lemma find_overwrite_other (g nf : ProjectFile) (l : list ProjectFile) :
  sameName g nf = false ->
  find (fun f => sameName f nf) (overwrite g l)
  = find (fun f => sameName f nf) l.
Proof.
  intros Hg. induction l as [|a l IH]; simpl; [reflexivity|].
  destruct (sameName a g) eqn:Ha.
  - simpl. change (sameName (setContent (content g) a) nf) with (sameName a nf).
    assert (Hn : sameName a nf = false).
    { rewrite (sameName_sym a nf), (sameName_same a g nf Ha), (sameName_sym nf g).
      exact Hg. }
    rewrite Hn. reflexivity.
  - simpl. rewrite IH. reflexivity.
Qed.

Lemma entryFor_mergeStep_same (g nf : ProjectFile) (l : list ProjectFile) :
  sameName g nf = true ->
  exists f, entryFor nf (mergeStep l g) = Some f
            /\ content f = content g /\ sameName f nf = true.
Proof.
  intros Hg. unfold entryFor. rewrite mergeStep_overwrite.
  destruct (existsb (fun f => sameName f g) l) eqn:E.
  - apply find_overwrite_same; assumption.
  - exists g. split; [|split; [reflexivity|exact Hg]].
    induction l as [|a l IH]; simpl in *; [rewrite Hg; reflexivity|].
    apply orb_false_iff in E. destruct E as [Ea E].
    rewrite <- (sameName_same g nf a Hg), Ea. apply IH, E.
Qed.

Lemma entryFor_mergeStep_other (g nf : ProjectFile) (l : list ProjectFile) :
  sameName g nf = false ->
  entryFor nf (mergeStep l g) = entryFor nf l.
Proof.
  intros Hg. unfold entryFor. rewrite mergeStep_overwrite.
  destruct (existsb (fun f => sameName f g) l).
  - apply find_overwrite_other, Hg.
  - induction l as [|a l IH]; simpl; [rewrite Hg; reflexivity|].
    destruct (sameName a nf); [reflexivity|exact IH].
Qed.

(** X9: a lookup after the merge finds what the batch said last.  When
    [nf] is the last entry of its name in the batch, the first entry of
    the merged set that bears this name, up to case, holds the content of
    [nf], whatever the set held before. *)
Theorem merge_last_wins (prev before behind : list ProjectFile)
    (nf : ProjectFile) :
  forallb (fun g => negb (sameName g nf)) behind = true ->
  exists f, entryFor nf (mergeFiles prev (before ++ nf :: behind)) = Some f
            /\ content f = content nf /\ sameName f nf = true.
Proof.
  intros Hbehind. unfold mergeFiles. rewrite fold_left_app. cbn [fold_left].
  destruct (entryFor_mergeStep_same nf nf (fold_left mergeStep before prev)
              (sameName_refl nf)) as [f [Hf Hc]].
  exists f. split; [|exact Hc]. rewrite <- Hf. clear Hf Hc.
  generalize (mergeStep (fold_left mergeStep before prev) nf). intros l.
  revert l. induction behind as [|g behind IH]; intros l; [reflexivity|].
  simpl in Hbehind. apply andb_true_iff in Hbehind.
  destruct Hbehind as [Hg Hbehind]. apply negb_true_iff in Hg.
  cbn [fold_left]. rewrite (IH Hbehind).
  apply entryFor_mergeStep_other, Hg.
Qed.

Lemma merge_last_wins_witness :
  exists f, entryFor exRedeclared
              (mergeFiles [exFileA; exFileB] ([exFileC] ++ exRedeclared :: [exFileB]))
            = Some f
            /\ content f = content exRedeclared /\ sameName f exRedeclared = true.
Proof.
  apply (merge_last_wins [exFileA; exFileB] [exFileC] [exFileB] exRedeclared).
  reflexivity.
Defined.

Lemma filter_overwrite (keep : ProjectFile -> bool) (nf : ProjectFile)
    (l : list ProjectFile) :
  (forall f, keep f = true -> sameName f nf = false) ->
  (forall c f, keep (setContent c f) = keep f) ->
  filter keep (overwrite nf l) = filter keep l.
Proof.
  intros Hkeep Hset. induction l as [|a l IH]; simpl; [reflexivity|].
  destruct (sameName a nf) eqn:Ha; simpl.
  - rewrite Hset. destruct (keep a) eqn:Hk; [|reflexivity].
    rewrite (Hkeep a Hk) in Ha. discriminate.
  - rewrite IH. reflexivity.
Qed.

Lemma filter_mergeStep (keep : ProjectFile -> bool) (nf : ProjectFile)
    (l : list ProjectFile) :
  (forall f, keep f = true -> sameName f nf = false) ->
  (forall c f, keep (setContent c f) = keep f) ->
  filter keep (mergeStep l nf) = filter keep l.
Proof.
  intros Hkeep Hset. rewrite mergeStep_overwrite.
  destruct (existsb (fun f => sameName f nf) l).
  - apply filter_overwrite; assumption.
  - rewrite filter_app. simpl.
    destruct (keep nf) eqn:Hk; [|apply app_nil_r].
    pose proof (Hkeep nf Hk) as Hno. rewrite sameName_refl in Hno.
    discriminate.
Qed.

Lemma untouched_spec (batch : list ProjectFile) (f g : ProjectFile) :
  untouched batch f = true -> In g batch -> sameName f g = false.
Proof.
  unfold untouched. intros H Hg. apply negb_true_iff in H.
  destruct (sameName f g) eqn:E; [|reflexivity].
  assert (Hex : existsb (fun g => sameName f g) batch = true)
    by (apply existsb_exists; exists g; auto).
  congruence.
Qed.

(** X10: the merge touches nothing but the names of the batch.  The
    entries that bear no name of the batch, up to case, come out of the
    merge as they went in: same fields, same order, none lost and none
    added. *)
Theorem merge_frame (prev batch : list ProjectFile) :
  filter (untouched batch) (mergeFiles prev batch)
  = filter (untouched batch) prev.
Proof.
  unfold mergeFiles.
  assert (Hgen : forall todo l,
    (forall g, In g todo -> In g batch) ->
    filter (untouched batch) (fold_left mergeStep todo l)
    = filter (untouched batch) l).
  { induction todo as [|g todo IH]; intros l Hsub; [reflexivity|].
    cbn [fold_left]. rewrite IH by (intros h Hh; apply Hsub; right; exact Hh).
    apply filter_mergeStep.
    - intros f Hf. apply (untouched_spec batch f g Hf).
      apply Hsub. left. reflexivity.
    - intros c f. reflexivity. }
  apply Hgen. auto.
Qed.

Lemma mergeStep_absent (l : list ProjectFile) (nf : ProjectFile) :
  ~ In (nameKey nf) (map nameKey l) -> mergeStep l nf = l ++ [nf].
Proof.
  intros H. rewrite mergeStep_overwrite.
  destruct (existsb (fun f => sameName f nf) l) eqn:E; [|reflexivity].
  exfalso. apply H. apply existsb_exists in E. destruct E as [f [Hf Hs]].
  apply sameName_key in Hs. rewrite <- Hs. apply in_map. exact Hf.
Qed.

(** X11: files under new names are appended as they are.  When the names
    of the set and of the batch are pairwise distinct up to case, the
    merged set is the old set followed by the batch, in batch order. *)
Theorem merge_fresh (prev batch : list ProjectFile) :
  uniqueNames (prev ++ batch) -> mergeFiles prev batch = prev ++ batch.
Proof.
  unfold mergeFiles, uniqueNames. revert prev.
  induction batch as [|nf batch IH]; intros prev H.
  - rewrite app_nil_r. reflexivity.
  - cbn [fold_left]. rewrite mergeStep_absent.
    + rewrite IH; [rewrite <- app_assoc; reflexivity|].
      rewrite <- app_assoc. exact H.
    + rewrite map_app in H. cbn [map] in H.
      apply NoDup_remove_2 in H. intros Hin. apply H.
      apply in_or_app. left. exact Hin.
Qed.

Lemma merge_fresh_witness :
  mergeFiles [exFileA] [exFileB; exFileC] = [exFileA] ++ [exFileB; exFileC].
Proof.
  apply (merge_fresh [exFileA] [exFileB; exFileC]).
  unfold uniqueNames. vm_compute.
  constructor; [intros [H|[H|[]]]; discriminate H|].
  constructor; [intros [H|[]]; discriminate H|].
  constructor; [intros []|constructor].
Defined.

(** *** Merging the same batch again *)

Lemma overwrite_same (x g : ProjectFile) (l : list ProjectFile) :
  sameName x g = true -> overwrite x (overwrite g l) = overwrite x l.
Proof.
  intros Hxg. induction l as [|a l IH]; simpl; [reflexivity|].
  pose proof (sameName_same x g a Hxg) as Hsame.
  destruct (sameName a g) eqn:Ha; simpl.
  - change (sameName (setContent (content g) a) x) with (sameName a x).
    rewrite Hsame. reflexivity.
  - rewrite Hsame. rewrite IH. reflexivity.
Qed.

Lemma overwrite_comm (x g : ProjectFile) (l : list ProjectFile) :
  sameName x g = false ->
  overwrite x (overwrite g l) = overwrite g (overwrite x l).
Proof.
  intros Hxg. induction l as [|a l IH]; simpl; [reflexivity|].
  destruct (sameName a g) eqn:Ha; destruct (sameName a x) eqn:Hx; simpl.
  - exfalso. pose proof (sameName_same a x g Hx) as Hs.
    rewrite (sameName_sym g a), Ha, (sameName_sym g x), Hxg in Hs.
    discriminate.
  - change (sameName (setContent (content g) a) x) with (sameName a x).
    rewrite Hx, Ha. reflexivity.
  - change (sameName (setContent (content x) a) g) with (sameName a g).
    rewrite Hx, Ha. reflexivity.
  - rewrite Hx, Ha, IH. reflexivity.
Qed.

Lemma existsb_overwrite (g nf : ProjectFile) (l : list ProjectFile) :
  existsb (fun f => sameName f nf) (overwrite g l)
  = existsb (fun f => sameName f nf) l.
Proof.
  induction l as [|a l IH]; simpl; [reflexivity|].
  destruct (sameName a g); simpl; [reflexivity|]. rewrite IH. reflexivity.
Qed.

Lemma overwrite_fold (b : list ProjectFile) :
  forall (g : ProjectFile) (l : list ProjectFile),
  fold_left (fun l x => overwrite x l) b (overwrite g l)
  = if existsb (fun x => sameName x g) b
    then fold_left (fun l x => overwrite x l) b l
    else overwrite g (fold_left (fun l x => overwrite x l) b l).
Proof.
  induction b as [|x b IH]; intros g l; [reflexivity|].
  cbn [fold_left existsb]. destruct (sameName x g) eqn:Hx.
  - rewrite (overwrite_same x g l Hx). reflexivity.
  - rewrite (overwrite_comm x g l Hx). cbn [orb]. apply IH.
Qed.

Lemma overwrite_snoc (x g : ProjectFile) (l : list ProjectFile) :
  sameName g x = false -> overwrite x (l ++ [g]) = overwrite x l ++ [g].
Proof.
  intros Hg. induction l as [|a l IH]; simpl.
  - rewrite Hg. reflexivity.
  - destruct (sameName a x); [reflexivity|]. rewrite IH. reflexivity.
Qed.

Lemma overwrite_fold_snoc (b : list ProjectFile) (g : ProjectFile) :
  (forall x, In x b -> sameName g x = false) ->
  forall l,
  fold_left (fun l x => overwrite x l) b (l ++ [g])
  = fold_left (fun l x => overwrite x l) b l ++ [g].
Proof.
  induction b as [|x b IH]; intros Hb l; [reflexivity|].
  cbn [fold_left]. rewrite overwrite_snoc by (apply Hb; left; reflexivity).
  apply IH. intros y Hy. apply Hb. right. exact Hy.
Qed.

Lemma overwrite_own (g : ProjectFile) (l : list ProjectFile) :
  existsb (fun f => sameName f g) l = false ->
  overwrite g (l ++ [g]) = l ++ [g].
Proof.
  induction l as [|a l IH]; simpl.
  - intros _. rewrite sameName_refl. destruct g; reflexivity.
  - intros H. apply orb_false_iff in H. destruct H as [-> H].
    rewrite (IH H). reflexivity.
Qed.

Lemma present_mergeStep (g x : ProjectFile) (l : list ProjectFile) :
  existsb (fun f => sameName f g) l = true ->
  existsb (fun f => sameName f g) (mergeStep l x) = true.
Proof.
  intros H. rewrite mergeStep_overwrite.
  destruct (existsb (fun f => sameName f x) l).
  - rewrite existsb_overwrite. exact H.
  - rewrite existsb_app, H. reflexivity.
Qed.

Lemma present_after (g : ProjectFile) (l : list ProjectFile) :
  existsb (fun f => sameName f g) (mergeStep l g) = true.
Proof.
  rewrite mergeStep_overwrite.
  destruct (existsb (fun f => sameName f g) l) eqn:E.
  - rewrite existsb_overwrite. exact E.
  - rewrite existsb_app. simpl. rewrite sameName_refl. apply orb_true_r.
Qed.

Lemma present_fold (b : list ProjectFile) (g : ProjectFile) :
  forall l,
  existsb (fun f => sameName f g) l = true ->
  existsb (fun f => sameName f g) (fold_left mergeStep b l) = true.
Proof.
  induction b as [|x b IH]; intros l H; [exact H|].
  cbn [fold_left]. apply IH, present_mergeStep, H.
Qed.

Lemma present_batch (b : list ProjectFile) :
  forall l g, In g b ->
  existsb (fun f => sameName f g) (fold_left mergeStep b l) = true.
Proof.
  induction b as [|x b IH]; intros l g Hg; [destruct Hg|].
  cbn [fold_left]. destruct Hg as [<-|Hg].
  - apply present_fold, present_after.
  - apply IH, Hg.
Qed.

Lemma merge_known (b : list ProjectFile) :
  forall l,
  (forall g, In g b -> existsb (fun f => sameName f g) l = true) ->
  fold_left mergeStep b l = fold_left (fun l x => overwrite x l) b l.
Proof.
  induction b as [|x b IH]; intros l H; [reflexivity|].
  cbn [fold_left]. rewrite mergeStep_overwrite.
  rewrite (H x) by (left; reflexivity).
  apply IH. intros g Hg. rewrite existsb_overwrite. apply H. right. exact Hg.
Qed.

Lemma overwrite_settled (b : list ProjectFile) (l : list ProjectFile) :
  fold_left (fun l x => overwrite x l) b (fold_left mergeStep b l)
  = fold_left mergeStep b l.
Proof.
  induction b as [|g b IH] using rev_ind; [reflexivity|].
  rewrite !fold_left_app. cbn [fold_left].
  set (r := fold_left mergeStep b l) in *.
  rewrite mergeStep_overwrite.
  destruct (existsb (fun f => sameName f g) r) eqn:E.
  - rewrite overwrite_fold, IH.
    destruct (existsb (fun x => sameName x g) b); [reflexivity|].
    apply overwrite_same, sameName_refl.
  - assert (Hb : forall x, In x b -> sameName g x = false).
    { intros x Hx. destruct (sameName g x) eqn:Hgx; [|reflexivity].
      pose proof (present_batch b l x Hx) as Hp. fold r in Hp.
      apply existsb_exists in Hp. destruct Hp as [f [Hf Hfx]].
      rewrite <- (sameName_same g x f Hgx) in Hfx.
      assert (Hex : existsb (fun f => sameName f g) r = true)
        by (apply existsb_exists; exists f; auto).
      congruence. }
    rewrite (overwrite_fold_snoc b g Hb), IH.
    apply overwrite_own, E.
Qed.

(** X12: merging a batch a second time changes nothing.  After a reply
    has been merged, merging the same files again leaves every entry, its
    content and the order as they are. *)
Theorem merge_idempotent (prev batch : list ProjectFile) :
  mergeFiles (mergeFiles prev batch) batch = mergeFiles prev batch.
Proof.
  unfold mergeFiles.
  rewrite (merge_known batch (fold_left mergeStep batch prev)).
  - apply overwrite_settled.
  - intros g Hg. apply present_batch, Hg.
Qed.

(** *** The merge in one equation *)

Lemma refreshed_snoc (b : list ProjectFile) (g f : ProjectFile) :
  refreshed (b ++ [g]) f
  = if sameName g f then mkFile (id f) (name f) (language f) (content g)
    else refreshed b f.
Proof.
  unfold refreshed, lastNamed. rewrite rev_app_distr. cbn [rev app find].
  change (jseqb (nameKey g) (nameKey f)) with (sameName g f).
  destruct (sameName g f); reflexivity.
Qed.

Lemma refreshed_identity (b : list ProjectFile) (f : ProjectFile) :
  identity (refreshed b f) = identity f.
Proof. unfold refreshed. destruct (lastNamed f b); reflexivity. Qed.

Lemma refreshed_sameName (b : list ProjectFile) (f g : ProjectFile) :
  sameName (refreshed b f) g = sameName f g.
Proof.
  unfold sameName. replace (name (refreshed b f)) with (name f); [reflexivity|].
  pose proof (refreshed_identity b f) as H. unfold identity in H. congruence.
Qed.

Lemma existsb_refreshed (b l : list ProjectFile) (g : ProjectFile) :
  existsb (fun f => sameName f g) (map (refreshed b) l)
  = existsb (fun f => sameName f g) l.
Proof.
  induction l as [|f l IH]; simpl; [reflexivity|].
  rewrite refreshed_sameName, IH. reflexivity.
Qed.

Lemma newcomers_snoc (b : list ProjectFile) (g : ProjectFile) :
  forall known,
  newcomers known (b ++ [g])
  = newcomers known b
    ++ (if existsb (fun f => sameName f g) (known ++ newcomers known b)
        then [] else [g]).
Proof.
  induction b as [|x b IH]; intros known; cbn [app newcomers].
  - rewrite app_nil_r.
    change (fun f => jseqb (nameKey f) (nameKey g)) with (fun f => sameName f g).
    destruct (existsb (fun f => sameName f g) known); reflexivity.
  - destruct (existsb (fun f => jseqb (nameKey f) (nameKey x)) known).
    + apply IH.
    + rewrite IH. cbn [app]. rewrite <- app_assoc. reflexivity.
Qed.

Lemma unique_snoc (known : list ProjectFile) (g : ProjectFile) :
  uniqueNames known -> existsb (fun f => sameName f g) known = false ->
  uniqueNames (known ++ [g]).
Proof.
  intros Hu Habs. pose proof (mergeStep_unique known g Hu) as H.
  rewrite mergeStep_overwrite, Habs in H. exact H.
Qed.

Lemma unique_newcomers (b : list ProjectFile) :
  forall known, uniqueNames known -> uniqueNames (known ++ newcomers known b).
Proof.
  induction b as [|x b IH]; intros known Hu; cbn [newcomers].
  - rewrite app_nil_r. exact Hu.
  - change (fun f => jseqb (nameKey f) (nameKey x)) with (fun f => sameName f x).
    destruct (existsb (fun f => sameName f x) known) eqn:E.
    + apply IH, Hu.
    + replace (known ++ x :: newcomers (known ++ [x]) b)
        with ((known ++ [x]) ++ newcomers (known ++ [x]) b)
        by (rewrite <- app_assoc; reflexivity).
      apply IH, unique_snoc; assumption.
Qed.

Lemma refreshed_others (b l : list ProjectFile) (g : ProjectFile) :
  existsb (fun f => sameName f g) l = false ->
  map (refreshed (b ++ [g])) l = map (refreshed b) l.
Proof.
  intros Habs. apply map_ext_in. intros f Hf. rewrite refreshed_snoc.
  destruct (sameName g f) eqn:E; [|reflexivity].
  rewrite sameName_sym in E.
  assert (Hex : existsb (fun f => sameName f g) l = true)
    by (apply existsb_exists; exists f; auto).
  congruence.
Qed.

Lemma overwrite_refreshed (b : list ProjectFile) (g : ProjectFile) :
  forall l, uniqueNames l ->
  overwrite g (map (refreshed b) l) = map (refreshed (b ++ [g])) l.
Proof.
  induction l as [|f l IH]; intros Hu; [reflexivity|].
  unfold uniqueNames in Hu. cbn [map] in Hu.
  inversion Hu as [|? ? Hf Hl]; subst.
  cbn [map overwrite]. rewrite refreshed_sameName, refreshed_snoc.
  rewrite (sameName_sym g f).
  destruct (sameName f g) eqn:E.
  - f_equal.
    + pose proof (refreshed_identity b f) as Hid. unfold identity in Hid.
      unfold setContent. congruence.
    + symmetry. apply refreshed_others.
      destruct (existsb (fun f' => sameName f' g) l) eqn:Ex; [|reflexivity].
      exfalso. apply Hf. apply existsb_exists in Ex.
      destruct Ex as [f' [Hin Hs]]. apply sameName_key in E, Hs.
      rewrite E, <- Hs. apply in_map. exact Hin.
  - f_equal. apply IH. exact Hl.
Qed.

(** C1 (amended): the merge is an upsert keyed by the lower-cased name.
    On a working set without two equal keys, the merged set is the old
    set followed by the batch files that bring a new name, each name at
    its first occurrence and in batch order; every entry, old or new,
    keeps its identifier, name, language and position, and holds the
    content of the last batch file of its name, its own content when the
    batch names it not.  The merged set has no two equal keys either. *)
Theorem merge_upsert (prev batch : list ProjectFile) :
  uniqueNames prev ->
  mergeFiles prev batch = map (refreshed batch) (prev ++ newcomers prev batch)
  /\ uniqueNames (mergeFiles prev batch).
Proof.
  intros Hu. split; [|apply mergeFiles_unique, Hu].
  unfold mergeFiles.
  induction batch as [|g b IH] using rev_ind.
  - cbn [fold_left newcomers]. rewrite app_nil_r.
    symmetry. apply map_id.
  - rewrite fold_left_app. cbn [fold_left]. rewrite IH.
    rewrite mergeStep_overwrite, existsb_refreshed, newcomers_snoc.
    pose proof (unique_newcomers b prev Hu) as Hall.
    destruct (existsb (fun f => sameName f g) (prev ++ newcomers prev b)) eqn:E.
    + rewrite app_nil_r. apply overwrite_refreshed, Hall.
    + rewrite (app_assoc prev), (map_app (refreshed (b ++ [g]))),
        (refreshed_others b _ g E).
      cbn [map]. rewrite refreshed_snoc, sameName_refl.
      destruct g; reflexivity.
Qed.

Lemma merge_upsert_witness :
  mergeFiles [exFileA; exFileB] [exRedeclared; exFileC]
  = map (refreshed [exRedeclared; exFileC])
        ([exFileA; exFileB] ++ newcomers [exFileA; exFileB] [exRedeclared; exFileC])
  /\ uniqueNames (mergeFiles [exFileA; exFileB] [exRedeclared; exFileC]).
Proof.
  apply (merge_upsert [exFileA; exFileB] [exRedeclared; exFileC]).
  unfold uniqueNames. vm_compute.
  constructor; [intros [H|[]]; discriminate H|].
  constructor; [intros []|constructor].
Defined.


(* ================================================================= *)
(** ** Sending a prompt *)

Lemma handleResponse_messages (rnd : nat -> jsstring) (text : jsstring)
    (st : AppState) :
  messages (handleResponse rnd text st)
  = messages st ++ [mkMessage model (snd (extractFiles rnd text))].
Proof.
  unfold handleResponse. destruct (extractFiles rnd text) as [[|f fs] clean];
    reflexivity.
Qed.

Lemma handleResponse_files (rnd : nat -> jsstring) (text : jsstring)
    (st : AppState) :
  projectFiles (handleResponse rnd text st)
  = mergeFiles (projectFiles st) (fst (extractFiles rnd text)).
Proof.
  unfold handleResponse. destruct (extractFiles rnd text) as [[|f fs] clean];
    reflexivity.
Qed.

(** X13: a send that passes the guard and runs to its end adds exactly
    two messages to the transcript, whatever the model does: the prompt
    as typed, then either the reply as cleaned by the parser or the error
    text; it leaves the input box empty and the in-flight flag down. *)
Theorem send_transcript (rnd : nat -> jsstring)
    (generate : jsstring -> outcome (option jsstring)) (s : Session) :
  isEmpty (trim (inputText s)) = false -> isGenerating s = false ->
  messages (appState (handleSendMessage rnd generate s))
  = messages (appState s)
    ++ [mkMessage user (inputText s);
        mkMessage model
          match generate (inputText s) with
          | Returns t => snd (extractFiles rnd (textOf t))
          | Throws e => errorReply e
          end]
  /\ inputText (handleSendMessage rnd generate s) = []
  /\ isGenerating (handleSendMessage rnd generate s) = false.
Proof.
  intros Hin Hgen. unfold handleSendMessage, sendStart. rewrite Hin, Hgen.
  cbn [orb]. unfold sendFinish.
  destruct (generate (inputText s)) as [t|e]; cbn [appState inputText isGenerating].
  - rewrite handleResponse_messages. unfold pushMessage. cbn [messages].
    rewrite <- app_assoc. auto.
  - unfold pushMessage. cbn [messages]. rewrite <- app_assoc. auto.
Qed.

Lemma send_transcript_witness :
  messages (appState (handleSendMessage exIds (fun _ => Returns (Some exReply))
                        (mkSession exApp (lit " add a.js ") false)))
  = messages exApp
    ++ [mkMessage user (lit " add a.js ");
        mkMessage model (snd (extractFiles exIds exReply))]
  /\ inputText (handleSendMessage exIds (fun _ => Returns (Some exReply))
                  (mkSession exApp (lit " add a.js ") false)) = []
  /\ isGenerating (handleSendMessage exIds (fun _ => Returns (Some exReply))
                     (mkSession exApp (lit " add a.js ") false)) = false.
Proof.
  apply (send_transcript exIds (fun _ => Returns (Some exReply))
           (mkSession exApp (lit " add a.js ") false)).
  - reflexivity.
  - reflexivity.
Defined.

(** X14: a call that brings no file changes neither the working set nor
    the selection.  When the call to the model fails, or its reply holds
    no file block, the files and the active identifier stay as they were
    and the transcript gains the error text, or the reply verbatim. *)
Theorem send_without_files (rnd : nat -> jsstring)
    (result : outcome (option jsstring)) (s : Session) :
  match result with
  | Returns t => matchAll fileRegex 3 (textOf t) = []
  | Throws _ => True
  end ->
  projectFiles (appState (sendFinish rnd result s)) = projectFiles (appState s)
  /\ activeFileId (appState (sendFinish rnd result s)) = activeFileId (appState s)
  /\ messages (appState (sendFinish rnd result s))
     = messages (appState s)
       ++ [mkMessage model match result with
                           | Returns t => textOf t
                           | Throws e => errorReply e
                           end].
Proof.
  destruct result as [t|e]; intros H; unfold sendFinish; cbn [appState].
  - unfold handleResponse, extractFiles. rewrite H. cbn [extractLoop].
    auto.
  - auto.
Qed.

Lemma send_without_files_witness :
  projectFiles (appState (sendFinish exIds (Returns (Some (lit "[FILE: a.js] soon")))
                            (mkSession exApp [] true)))
  = projectFiles exApp
  /\ activeFileId (appState (sendFinish exIds (Returns (Some (lit "[FILE: a.js] soon")))
                               (mkSession exApp [] true)))
     = activeFileId exApp
  /\ messages (appState (sendFinish exIds (Returns (Some (lit "[FILE: a.js] soon")))
                           (mkSession exApp [] true)))
     = messages exApp ++ [mkMessage model (lit "[FILE: a.js] soon")].
Proof.
  apply (send_without_files exIds (Returns (Some (lit "[FILE: a.js] soon")))
           (mkSession exApp [] true)).
  vm_compute. reflexivity.
Defined.

(** *** Runs of chat events *)

Lemma merged_names (prev batch : list ProjectFile) (f : ProjectFile) :
  In f (mergeFiles prev batch) ->
  exists g, (In g prev \/ In g batch) /\ name f = name g.
Proof.
  intros Hf. destruct (mergeFiles_identity prev batch) as [added [Hsub Heq]].
  apply (in_map identity) in Hf. rewrite Heq in Hf.
  apply in_app_or in Hf. destruct Hf as [Hf|Hf];
    apply in_map_iff in Hf; destruct Hf as [g [Hg Hin]]; exists g.
  - split; [left; exact Hin|]. unfold identity in Hg. congruence.
  - split; [right; apply Hsub; exact Hin|]. unfold identity in Hg. congruence.
Qed.

Lemma sendFinish_wellNamed (rnd : nat -> jsstring)
    (result : outcome (option jsstring)) (s : Session) :
  wellNamed (projectFiles (appState s)) ->
  wellNamed (projectFiles (appState (sendFinish rnd result s))).
Proof.
  intros [Hu Hn]. destruct result as [t|e]; [|split; assumption].
  unfold sendFinish. cbn [appState]. rewrite handleResponse_files. split.
  - apply mergeFiles_unique, Hu.
  - apply Forall_forall. intros f Hf.
    apply merged_names in Hf. destruct Hf as [g [[Hg|Hg] ->]].
    + apply (proj1 (Forall_forall _ _) Hn g Hg).
    + pose proof (proj1 (Forall_forall _ _) (extractFiles_tidy rnd (textOf t)) g Hg)
        as [H1 [H2 _]]. split; assumption.
Qed.

Lemma step_wellNamed (s : Session) (e : Event) :
  wellNamed (projectFiles (appState s)) ->
  wellNamed (projectFiles (appState (step s e))).
Proof.
  intros H. destruct e as [text| |rnd result|i]; cbn [step].
  - exact H.
  - unfold sendStart. destruct (isEmpty (trim (inputText s)) || isGenerating s);
      exact H.
  - destruct (isGenerating s); [apply sendFinish_wellNamed|]; exact H.
  - destruct (nth_error (projectFiles (appState s)) i); exact H.
Qed.

(** X15: in every state the chat can reach, whatever the user types and
    whatever the model answers, no two files of the working set bear the
    same name up to case, and every name is a non-empty run of word
    characters, dots, slashes and hyphens. *)
Theorem run_wellNamed (es : list Event) :
  wellNamed (projectFiles (appState (run initialSession es))).
Proof.
  unfold run.
  assert (Hgen : forall s, wellNamed (projectFiles (appState s)) ->
                           wellNamed (projectFiles (appState (fold_left step es s)))).
  { induction es as [|e es IH]; intros s H; [exact H|].
    cbn [fold_left]. apply IH, step_wellNamed, H. }
  apply Hgen. split; [constructor|constructor].
Qed.

Lemma step_history (s : Session) (e : Event) :
  exists more added,
    messages (appState (step s e)) = messages (appState s) ++ more
    /\ map identity (projectFiles (appState (step s e)))
       = map identity (projectFiles (appState s)) ++ added.
Proof.
  assert (Hsame : exists more added,
    messages (appState s) = messages (appState s) ++ more
    /\ map identity (projectFiles (appState s))
       = map identity (projectFiles (appState s)) ++ added).
  { exists [], []. rewrite !app_nil_r. auto. }
  destruct e as [text| |rnd result|i]; cbn [step].
  - exact Hsame.
  - unfold sendStart. destruct (isEmpty (trim (inputText s)) || isGenerating s);
      [exact Hsame|].
    cbn [appState]. exists [mkMessage user (inputText s)], [].
    rewrite app_nil_r. auto.
  - destruct (isGenerating s); [|exact Hsame].
    destruct result as [t|e]; unfold sendFinish; cbn [appState].
    + rewrite handleResponse_messages, handleResponse_files.
      destruct (mergeFiles_identity (projectFiles (appState s))
                  (fst (extractFiles rnd (textOf t)))) as [added [_ Heq]].
      eexists. exists (map identity added). split; [reflexivity|exact Heq].
    + exists [mkMessage model (errorReply e)], [].
      rewrite app_nil_r. split; reflexivity.
  - destruct (nth_error (projectFiles (appState s)) i); exact Hsame.
Qed.

(** X16: the chat only ever adds.  Along any run of events the
    transcript grows at its end, and the working set keeps every entry
    with its identifier, name and language at its place: files are never
    removed, renamed or reordered, only appended. *)
Theorem run_history (s : Session) (es : list Event) :
  exists more added,
    messages (appState (run s es)) = messages (appState s) ++ more
    /\ map identity (projectFiles (appState (run s es)))
       = map identity (projectFiles (appState s)) ++ added.
Proof.
  unfold run. revert s. induction es as [|e es IH]; intros s.
  - exists [], []. rewrite !app_nil_r. auto.
  - cbn [fold_left]. destruct (IH (step s e)) as [more [added [Hm Hf]]].
    destruct (step_history s e) as [more0 [added0 [Hm0 Hf0]]].
    exists (more0 ++ more), (added0 ++ added).
    rewrite Hm, Hf, Hm0, Hf0, !app_assoc. auto.
Qed.

Lemma prompts_bound (es : list Event) :
  forall s,
  (length (prompts s es)
   <= length (filter isSettled es) + (if isGenerating s then 0 else 1))%nat
  /\ Forall (fun p => trim p <> []) (prompts s es).
Proof.
  induction es as [|e es IH]; intros s.
  - split; [simpl; lia|constructor].
  - destruct e as [text| |rnd result|i].
    + cbn [prompts filter isSettled]. apply (IH (step s (Typed text))).
    + cbn [prompts filter isSettled step]. unfold sendStart.
      destruct (isEmpty (trim (inputText s))) eqn:Hblank; cbn [orb].
      * destruct (IH s) as [H1 H2]. split; assumption.
      * destruct (isGenerating s) eqn:Hgen.
        -- destruct (IH s) as [H1 H2]. rewrite Hgen in H1. split; assumption.
        -- match goal with
           | |- context [prompts ?s1 es] => destruct (IH s1) as [H1 H2]
           end.
           cbn [isGenerating] in H1. split.
           ++ cbn [length]. lia.
           ++ constructor; [|exact H2].
              destruct (trim (inputText s)); [discriminate|discriminate].
    + cbn [prompts filter isSettled step length].
      assert (Hp : prompts s (Settled rnd result :: es)
                   = prompts (step s (Settled rnd result)) es).
      { cbn [prompts]. destruct (sendStart s) as [[p s1]|]; reflexivity. }
      destruct (isGenerating s) eqn:Hgen.
      * destruct (IH (sendFinish rnd result s)) as [H1 H2].
        assert (Hdown : isGenerating (sendFinish rnd result s) = false)
          by (destruct result; reflexivity).
        rewrite Hdown in H1.
        destruct (sendStart s) as [[p s1]|]; split; try assumption; lia.
      * destruct (IH s) as [H1 H2]. rewrite Hgen in H1.
        destruct (sendStart s) as [[p s1]|]; split; try assumption; lia.
    + cbn [prompts filter isSettled].
      assert (Hflag : isGenerating (step s (Selected i)) = isGenerating s).
      { cbn [step]. destruct (nth_error (projectFiles (appState s)) i);
          reflexivity. }
      destruct (IH (step s (Selected i))) as [H1 H2]. rewrite Hflag in H1.
      destruct (sendStart s) as [[p s1]|]; split; assumption.
Qed.

(** X17: the guard serialises the calls to the model.  In any run of
    events from the mounted state, the prompts handed to the model are at
    most one more than the calls that have settled, so no call starts
    while another is in flight, and none of them is blank. *)
Theorem run_prompts (es : list Event) :
  (length (prompts initialSession es) <= S (length (filter isSettled es)))%nat
  /\ Forall (fun p => trim p <> []) (prompts initialSession es).
Proof.
  destruct (prompts_bound es initialSession) as [H1 H2].
  cbn [initialSession isGenerating] in H1. split; [lia|exact H2].
Qed.

(* ================================================================= *)
(** ** The synchronizer over whole runs *)

Section SyncRuns.

Variable encode : jsstring -> outcome (list Z).
Variable b2a : jsstring -> outcome jsstring.
Variable remote : list Request -> Request -> outcome Response.
Variables githubToken repoName : jsstring.

Local Abbreviation pushIt := (pushFile encode b2a remote githubToken repoName).
Local Abbreviation requestsIn :=
  (requestsOf encode b2a remote githubToken repoName).

(** However the loop ends, it has gone through a prefix of the files and
    issued the lookup and the write of each. *)
Lemma forOf_run (files : list ProjectFile) :
  forall w, exists k,
    (k <= length files)%nat
    /\ snd (forOf files pushIt w) = logged w (requestsIn (firstn k files) w).
Proof.
  induction files as [|f files IH]; intros w.
  - exists 0%nat. split; [reflexivity|]. simpl. symmetry. apply logged_nil.
  - cbn [forOf]. unfold bind. rewrite pushFile_run.
    destruct (writeVerdict f _) as [[]|e].
    + destruct (IH (logged w [getRequest githubToken repoName f;
                              writeOf encode b2a remote githubToken repoName f w]))
        as [k [Hk Hrun]].
      exists (S k). split; [simpl; lia|].
      rewrite Hrun, logged_logged. reflexivity.
    + exists 1%nat. split; [simpl; lia|]. reflexivity.
Qed.




Lemma forOf_accepted (files : list ProjectFile) :
  (forall log req, method req = PUT ->
     exists resp, remote log req = Returns resp /\ ok resp = true) ->
  forall w, forOf files pushIt w = (Returns tt, logged w (requestsIn files w)).
Proof.
  intros Hacc. induction files as [|f files IH]; intros w.
  - simpl. unfold ret. rewrite logged_nil. reflexivity.
  - cbn [forOf]. unfold bind. rewrite pushFile_run.
    destruct (Hacc (netlog w ++ [getRequest githubToken repoName f])
                   (writeOf encode b2a remote githubToken repoName f w) eq_refl)
      as [resp [Hresp Hok]].
    rewrite Hresp. cbn [writeVerdict]. rewrite Hok.
    rewrite IH, logged_logged. reflexivity.
Qed.

End SyncRuns.



(** X20: when the remote accepts every write, the sync goes through the
    whole working set: it issues the lookup and then the write of each
    file, in list order, shows the success notice once, after the last
    write, and leaves the in-flight flag down. *)
Theorem sync_success encode b2a remote (tok repo : jsstring)
    (files : list ProjectFile) (w : World) :
  (forall log req, method req = PUT ->
     exists resp, remote log req = Returns resp /\ ok resp = true) ->
  isEmpty tok = false -> isEmpty repo = false -> files <> [] ->
  exists reqs,
    syncToGithub encode b2a remote tok repo files w
    = (Returns tt,
       mkWorld (netlog w ++ reqs) (alerts w ++ [successNotice])
               (showSettings w) false)
    /\ map requestKey reqs
       = flat_map (fun g => [(GET, fileUrl repo g); (PUT, fileUrl repo g)]) files.
Proof.
  intros Hacc Ht Hr Hfiles.
  exists (requestsOf encode b2a remote tok repo files (pushing w)).
  split; [|apply requestsOf_keys].
  rewrite sync_nonempty by assumption.
  rewrite (forOf_accepted encode b2a remote tok repo files Hacc). reflexivity.
Qed.

Lemma sync_success_witness :
  exists reqs,
    syncToGithub TextEncoder_encode btoa
      (fun _ _ => Returns (mkResponse true (Returns (mkJson None None))))
      exToken exRepo [exFileA; exFileB] exWorld
    = (Returns tt,
       mkWorld (netlog exWorld ++ reqs) (alerts exWorld ++ [successNotice])
               (showSettings exWorld) false)
    /\ map requestKey reqs
       = flat_map (fun g => [(GET, fileUrl exRepo g); (PUT, fileUrl exRepo g)])
                  [exFileA; exFileB].
Proof.
  apply (sync_success TextEncoder_encode btoa
           (fun _ _ => Returns (mkResponse true (Returns (mkJson None None))))
           exToken exRepo [exFileA; exFileB] exWorld).
  - intros log req _. eexists. split; reflexivity.
  - reflexivity.
  - reflexivity.
  - discriminate.
Defined.

(* ================================================================= *)
(** ** The encoder on the host functions, for every string *)

Lemma encodedContent_host (s : jsstring) :
  Forall isScalar (toScalars s) ->
  encodedContent TextEncoder_encode btoa s
  = b64Encode (flat_map utf8Bytes (toScalars s)).
Proof.
  intros H. pose proof (toBase64_host s H) as Hhost.
  rewrite toBase64_returns in Hhost. injection Hhost as ->. reflexivity.
Qed.

Lemma write_decodes remote (tok repo : jsstring) (f : ProjectFile) (w : World) :
  wellFormed (content f) = true ->
  decodedContent (writeOf TextEncoder_encode btoa remote tok repo f w)
  = Some (content f).
Proof.
  intros Hwf. destruct (toScalars_roundtrip (content f) Hwf) as [Hsc Hback].
  unfold decodedContent, writeOf, putRequest. cbn [body content64].
  rewrite (encodedContent_host (content f) Hsc). unfold decodeTransport.
  rewrite b64_roundtrip by (apply utf8_bytes_all, Hsc).
  rewrite utf8_roundtrip by exact Hsc.
  rewrite Hback. reflexivity.
Qed.

Lemma requestsOf_decode remote (tok repo : jsstring)
    (files : list ProjectFile) :
  (forall f, In f files -> wellFormed (content f) = true) ->
  forall w,
  Forall (fun r => method r = PUT ->
            exists f, In f files /\ url r = fileUrl repo f
                      /\ decodedContent r = Some (content f))
         (requestsOf TextEncoder_encode btoa remote tok repo files w).
Proof.
  induction files as [|f files IH]; intros H w; [constructor|].
  cbn [requestsOf]. constructor; [discriminate|]. constructor.
  - intros _. exists f. split; [left; reflexivity|]. split; [reflexivity|].
    apply write_decodes, H. left. reflexivity.
  - eapply Forall_impl; [|apply IH; intros g Hg; apply H; right; exact Hg].
    intros r Hr Hput. destruct (Hr Hput) as [g [Hg Hrest]].
    exists g. split; [right; exact Hg|exact Hrest].
Qed.

(** What a sync adds to the log of requests, whatever its outcome: the
    lookup and the write of each file of a prefix of the working set. *)
Lemma sync_log encode b2a remote (tok repo : jsstring)
    (files : list ProjectFile) (w : World) :
  exists k,
    netlog (snd (syncToGithub encode b2a remote tok repo files w))
    = netlog w
      ++ requestsOf encode b2a remote tok repo (firstn k files) (pushing w).
Proof.
  destruct (isEmpty tok) eqn:Ht; [|destruct (isEmpty repo) eqn:Hr].
  - exists 0%nat. unfold syncToGithub. rewrite Ht. cbn. symmetry. apply app_nil_r.
  - exists 0%nat. unfold syncToGithub. rewrite Ht, Hr. cbn. symmetry. apply app_nil_r.
  - destruct files as [|f files].
    + exists 0%nat. unfold syncToGithub. rewrite Ht, Hr. cbn. symmetry. apply app_nil_r.
    + rewrite sync_nonempty by (auto; discriminate).
      destruct (forOf_run encode b2a remote tok repo (f :: files) (pushing w))
        as [k [_ Hrun]].
      exists k.
      destruct (forOf (f :: files) (pushFile encode b2a remote tok repo) (pushing w))
        as [[[]|e] w']; cbn [snd] in Hrun |- *; subst w'; reflexivity.
Qed.

(** X21: what a sync writes can be read back.  With the host encoders,
    whatever the remote answers, every write request that a run of
    [syncToGithub] over files with well-formed contents adds to the log
    is addressed to a file of the working set and carries a content whose
    base64 and UTF-8 decoding is the content of that file. *)
Theorem sync_writes_decode remote (tok repo : jsstring)
    (files : list ProjectFile) (w : World) :
  forallb (fun f => wellFormed (content f)) files = true ->
  exists reqs,
    netlog (snd (syncToGithub TextEncoder_encode btoa remote tok repo files w))
    = netlog w ++ reqs
    /\ Forall (fun r => method r = PUT ->
                 exists f, In f files /\ url r = fileUrl repo f
                           /\ decodedContent r = Some (content f))
              reqs.
Proof.
  intros Hwf.
  destruct (sync_log TextEncoder_encode btoa remote tok repo files w) as [k Hlog].
  exists (requestsOf TextEncoder_encode btoa remote tok repo (firstn k files)
            (pushing w)).
  split; [exact Hlog|].
  eapply Forall_impl; [|apply requestsOf_decode].
  - intros r Hr Hput. destruct (Hr Hput) as [f [Hf Hrest]].
    exists f. split; [|exact Hrest].
    rewrite <- (firstn_skipn k files). apply in_or_app. left. exact Hf.
  - intros f Hf. apply (proj1 (forallb_forall _ files) Hwf).
    rewrite <- (firstn_skipn k files). apply in_or_app. left. exact Hf.
Qed.

Lemma sync_writes_decode_witness :
  exists reqs,
    netlog (snd (syncToGithub TextEncoder_encode btoa exRemote exToken exRepo
                   [exFileA; mkFile (lit "u1") (lit "n.txt") (lit "text") exUnicode;
                    exFileC]
                   exWorld))
    = netlog exWorld ++ reqs
    /\ Forall (fun r => method r = PUT ->
                 exists f,
                   In f [exFileA; mkFile (lit "u1") (lit "n.txt") (lit "text") exUnicode;
                         exFileC]
                   /\ url r = fileUrl exRepo f
                   /\ decodedContent r = Some (content f))
              reqs.
Proof.
  apply (sync_writes_decode exRemote exToken exRepo
           [exFileA; mkFile (lit "u1") (lit "n.txt") (lit "text") exUnicode; exFileC]
           exWorld).
  reflexivity.
Defined.

Lemma toScalars_total (s : jsstring) :
  Forall isCodeUnit s -> Forall isScalar (toScalars s).
Proof.
  remember (length s) as n eqn:Hn. revert s Hn.
  induction n as [n IH] using lt_wf_ind. intros s Hn Hall.
  destruct s as [|u s]; [constructor|].
  inversion Hall as [|? ? Hu Hs]; subst. cbn [toScalars].
  assert (Hrep : isScalar 65533) by (right; lia).
  assert (Hrest : Forall isScalar (toScalars s))
    by (apply (IH (length s)); [simpl; lia|reflexivity|exact Hs]).
  destruct (isHighSurrogate u) eqn:Hhigh.
  - destruct s as [|v s]; [constructor; [exact Hrep|constructor]|].
    destruct (isLowSurrogate v) eqn:Hlow.
    + constructor; [apply (surrogate_pair u v Hhigh Hlow)|].
      inversion Hs; subst.
      apply (IH (length s)); [simpl; lia|reflexivity|assumption].
    + constructor; assumption.
  - destruct (isLowSurrogate u) eqn:Hlow; constructor; try assumption.
    unfold isHighSurrogate, isLowSurrogate in Hhigh, Hlow.
    unfold isCodeUnit in Hu. unfold isScalar.
    destruct (Z.leb_spec 55296 u), (Z.leb_spec u 56319),
      (Z.leb_spec 56320 u), (Z.leb_spec u 57343);
      simpl in Hhigh, Hlow; try discriminate; lia.
Qed.

Lemma b64Char_ok (i : Z) : 0 <= i < 64 -> isBase64Char (b64Char i).
Proof.
  intros H. left. rewrite (proj1 (b64Index_char i H)). discriminate.
Qed.

Lemma b64Encode_shape (bs : list Z) :
  Forall isByte bs ->
  length (b64Encode bs) = (4 * ((length bs + 2) / 3))%nat
  /\ Forall isBase64Char (b64Encode bs).
Proof.
  remember (length bs) as n eqn:Hn. revert bs Hn.
  induction n as [n IH] using lt_wf_ind. intros bs Hn Hall.
  assert (Hpad : isBase64Char 61) by (right; reflexivity).
  destruct bs as [|a [|b [|c bs]]].
  - subst n. split; [reflexivity|constructor].
  - inversion Hall as [|? ? Ha _]; subst.
    destruct (sextets_bounds a 0 0 Ha) as [E1 [_ [_ [_ [E5 _]]]]];
      [unfold isByte; lia|unfold isByte; lia|].
    split; [reflexivity|]. cbn [b64Encode]. rewrite E1, E5.
    unfold isByte in Ha.
    repeat (constructor; [first [exact Hpad|apply b64Char_ok; divmod]|]).
    constructor.
  - inversion Hall as [|? ? Ha Hall']; subst.
    inversion Hall' as [|? ? Hb _]; subst.
    destruct (sextets_bounds a b 0 Ha Hb) as [E1 [E2 [_ [_ [_ E6]]]]];
      [unfold isByte; lia|].
    split; [reflexivity|]. cbn [b64Encode]. rewrite E1, E2, E6.
    unfold isByte in Ha, Hb.
    repeat (constructor; [first [exact Hpad|apply b64Char_ok; divmod]|]).
    constructor.
  - inversion Hall as [|? ? Ha Hall']; subst.
    inversion Hall' as [|? ? Hb Hall'']; subst.
    inversion Hall'' as [|? ? Hc Hrest]; subst.
    destruct (sextets_bounds a b c Ha Hb Hc) as [E1 [E2 [E3 [E4 _]]]].
    destruct (IH (length bs) ltac:(simpl; lia) bs eq_refl Hrest) as [Hlen Hchars].
    cbn [b64Encode]. rewrite E1, E2, E3, E4. split.
    + cbn [length app]. rewrite Hlen.
      replace (S (S (S (length bs))) + 2)%nat with (1 * 3 + (length bs + 2))%nat
        by lia.
      rewrite Nat.div_add_l by lia. lia.
    + unfold isByte in Ha, Hb, Hc. cbn [app].
      repeat (constructor; [apply b64Char_ok; divmod|]). exact Hchars.
Qed.

Lemma flat_map_nil_inv {A B : Type} (f : A -> list B) (l : list A) :
  (forall a, f a <> []) -> flat_map f l = [] -> l = [].
Proof.
  intros Hf. destruct l as [|a l]; [reflexivity|]. simpl. intros H.
  apply app_eq_nil in H. destruct (Hf a (proj1 H)).
Qed.

Lemma toScalars_units (s : jsstring) :
  Forall isCodeUnit s -> flat_map utf16Units (toScalars s) = toWellFormed s.
Proof.
  remember (length s) as n eqn:Hn. revert s Hn.
  induction n as [n IH] using lt_wf_ind. intros s Hn Hall.
  destruct s as [|u s]; [reflexivity|].
  inversion Hall as [|? ? Hu Hs]; subst. cbn [toScalars toWellFormed].
  assert (Hrest : flat_map utf16Units (toScalars s) = toWellFormed s)
    by (apply (IH (length s)); [simpl; lia|reflexivity|exact Hs]).
  destruct (isHighSurrogate u) eqn:Hhigh.
  - destruct s as [|v s]; [reflexivity|].
    destruct (isLowSurrogate v) eqn:Hlow.
    + cbn [flat_map]. rewrite (proj2 (surrogate_pair u v Hhigh Hlow)).
      inversion Hs; subst. cbn [app]. f_equal. f_equal.
      apply (IH (length s)); [simpl; lia|reflexivity|assumption].
    + cbn [flat_map]. rewrite Hrest. reflexivity.
  - destruct (isLowSurrogate u) eqn:Hlow; cbn [flat_map]; rewrite Hrest.
    + reflexivity.
    + unfold utf16Units. unfold isCodeUnit in Hu.
      rewrite (proj2 (Z.ltb_lt u 65536)) by lia. reflexivity.
Qed.

(** X22: on the host encoders the transport encoder never falls back.
    For every string, well-formed or not, it returns the base64 text of
    the UTF-8 bytes of the string: decoded as base64 and then as UTF-8,
    the text gives the string back with U+FFFD in place of every unpaired
    surrogate.  It holds only characters of the base64 alphabet and
    padding, four for every three bytes started, and it is empty for
    the empty string alone. *)
Theorem toBase64_shape (s : jsstring) :
  Forall isCodeUnit s ->
  exists encoded bytes,
    toBase64 TextEncoder_encode btoa s = Returns encoded
    /\ b64Decode encoded = Some bytes
    /\ decodeTransport encoded = Some (toWellFormed s)
    /\ length encoded = (4 * ((length bytes + 2) / 3))%nat
    /\ Forall isBase64Char encoded
    /\ (encoded = [] <-> s = []).
Proof.
  intros Hs. pose proof (toScalars_total s Hs) as Hsc.
  pose proof (utf8_bytes_all _ Hsc) as Hbytes.
  destruct (b64Encode_shape _ Hbytes) as [Hlen Hchars].
  exists (b64Encode (flat_map utf8Bytes (toScalars s))),
         (flat_map utf8Bytes (toScalars s)).
  split; [apply toBase64_host, Hsc|].
  split; [apply b64_roundtrip, Hbytes|].
  split.
  { unfold decodeTransport.
    rewrite (b64_roundtrip _ Hbytes), (utf8_roundtrip _ Hsc).
    rewrite (toScalars_units s Hs). reflexivity. }
  split; [exact Hlen|].
  split; [exact Hchars|]. split.
  - intros He. rewrite He in Hlen. cbn [length] in Hlen.
    assert (Hnil : flat_map utf8Bytes (toScalars s) = []).
    { destruct (flat_map utf8Bytes (toScalars s)) as [|b bs]; [reflexivity|].
      exfalso. cbn [length] in Hlen.
      assert (1 <= (S (length bs) + 2) / 3)%nat
        by (apply Nat.div_le_lower_bound; lia).
      lia. }
    apply flat_map_nil_inv in Hnil.
    + destruct s as [|u [|v s]]; [reflexivity| |]; cbn [toScalars] in Hnil.
      * destruct (isHighSurrogate u); [discriminate|].
        destruct (isLowSurrogate u); discriminate.
      * destruct (isHighSurrogate u).
        -- destruct (isLowSurrogate v); discriminate.
        -- destruct (isLowSurrogate u); discriminate.
    + intros cp. unfold utf8Bytes.
      destruct (cp <? 128); [discriminate|].
      destruct (cp <? 2048); [discriminate|].
      destruct (cp <? 65536); discriminate.
  - intros ->. reflexivity.
Qed.

Lemma toBase64_shape_witness :
  exists encoded bytes,
    toBase64 TextEncoder_encode btoa exLone = Returns encoded
    /\ b64Decode encoded = Some bytes
    /\ decodeTransport encoded = Some (toWellFormed exLone)
    /\ length encoded = (4 * ((length bytes + 2) / 3))%nat
    /\ Forall isBase64Char encoded
    /\ (encoded = [] <-> exLone = []).
Proof.
  apply (toBase64_shape exLone).
  repeat constructor; unfold isCodeUnit; lia.
Defined.

(* ================================================================= *)
(** ** Message rendering *)

Lemma exec_lineFeed (i : nat) (u : Z) (t : jsstring) :
  exec lineFeed 0 i (u :: t)
  = if u =? 10 then Some (mkMatch i [u] [] t) else exec lineFeed 0 (S i) t.
Proof.
  rewrite exec_unfold. unfold lineFeed at 1. cbn [repeat].
  rewrite matcher_chr. destruct (u =? 10); [|reflexivity].
  cbn [rest captures]. change (u :: t) with ([u] ++ t).
  rewrite firstn_consumed. reflexivity.
Qed.

Lemma replaceMatches_skip (whole : jsstring) (i : nat) (u : Z) (t : jsstring)
    (ms : list Match) (repl : jsstring) :
  ordered (S i) ms = true ->
  replaceMatches whole i (u :: t) ms repl
  = u :: replaceMatches whole (S i) t ms repl.
Proof.
  destruct ms as [|m ms]; [reflexivity|]. cbn [ordered replaceMatches].
  intros H. apply andb_true_iff in H. destruct H as [H _].
  apply Nat.leb_le in H.
  replace (index m - i)%nat with (S (index m - S i)) by lia.
  reflexivity.
Qed.

Lemma lineFeed_scan (whole : jsstring) (s : jsstring) :
  forall fuel i, (length s < fuel)%nat ->
  replaceMatches whole i s (matchAllFrom fuel lineFeed 0 i s) (lit "<br/>")
  = flat_map lineBreak s.
Proof.
  induction s as [|u t IH]; intros fuel i Hfuel.
  - destruct fuel; reflexivity.
  - destruct fuel as [|fuel]; [simpl in Hfuel; lia|].
    cbn [flat_map]. unfold lineBreak at 1.
    destruct (u =? 10) eqn:Hu.
    + cbn [matchAllFrom]. rewrite exec_lineFeed, Hu.
      cbn [m0 after index length replaceMatches].
      rewrite Nat.sub_diag. cbn [firstn Nat.add skipn app].
      rewrite (IH fuel) by (simpl in Hfuel; lia). reflexivity.
    + assert (Hsame : matchAllFrom (S fuel) lineFeed 0 i (u :: t)
                      = matchAllFrom (S fuel) lineFeed 0 (S i) t).
      { cbn [matchAllFrom]. rewrite exec_lineFeed, Hu. reflexivity. }
      rewrite Hsame. rewrite replaceMatches_skip.
      * rewrite (IH (S fuel)) by (simpl in Hfuel; lia). reflexivity.
      * apply (matchAllFrom_spans lineFeed 0 (S fuel) (S i) t (repeat 0 (S i))).
        apply repeat_length.
Qed.

Lemma lineBreak_clean (s : jsstring) : ~ In 10 (flat_map lineBreak s).
Proof.
  induction s as [|u s IH]; simpl; [auto|].
  intros H. apply in_app_or in H. destruct H as [H|H]; [|exact (IH H)].
  unfold lineBreak in H. destruct (u =? 10) eqn:Hu.
  - simpl in H. repeat (destruct H as [H|H]; [discriminate H|]). exact H.
  - destruct H as [H|[]]. subst u. discriminate.
Qed.

(** X23: without a renderer, messages are shown with their line feeds
    turned into break tags and nothing else changed.  When the markdown
    library is absent, or its parser throws on the text, [safeMarkdown]
    returns the text with [<br/>] in place of every line feed, every other
    code unit as it was: no line feed is left, and the function never
    throws. *)
Theorem safeMarkdown_fallback
    (marked : option (jsstring -> outcome jsstring)) (text : jsstring) :
  marked = None \/ (exists parse e, marked = Some parse /\ parse text = Throws e) ->
  safeMarkdown marked text = flat_map lineBreak text
  /\ ~ In 10 (safeMarkdown marked text).
Proof.
  intros H.
  assert (E : safeMarkdown marked text = flat_map lineBreak text).
  { assert (Hfall : replaceAllRegex lineFeed text (lit "<br/>")
                    = flat_map lineBreak text).
    { unfold replaceAllRegex, matchAll. apply lineFeed_scan. lia. }
    destruct H as [->|[parse [e [-> Hp]]]]; unfold safeMarkdown.
    - exact Hfall.
    - rewrite Hp. exact Hfall. }
  rewrite E. split; [reflexivity|apply lineBreak_clean].
Qed.

Lemma safeMarkdown_fallback_witness :
  safeMarkdown None (lit "a" ++ [10; 10] ++ lit "b")
  = flat_map lineBreak (lit "a" ++ [10; 10] ++ lit "b")
  /\ ~ In 10 (safeMarkdown None (lit "a" ++ [10; 10] ++ lit "b")).
Proof.
  apply (safeMarkdown_fallback None (lit "a" ++ [10; 10] ++ lit "b")).
  left. reflexivity.
Defined.

(* ================================================================= *)
(** ** Stored credentials *)

(** X24: the credentials survive a reload.  After the effect has stored
    the token and the repository name, the initial values read back from
    the storage are the two strings, empty ones included, and no other key
    of the storage has changed. *)
Theorem credentials_roundtrip (tok repo : jsstring) (st : Storage) :
  initialCredentials (persistCredentials tok repo st) = (tok, repo)
  /\ forall key, jseqb key (lit "gh_token") = false ->
                 jseqb key (lit "gh_repo") = false ->
                 getItem key (persistCredentials tok repo st) = getItem key st.
Proof.
  split.
  - unfold initialCredentials, storedOr, getItem, persistCredentials, setItem.
    change (jseqb (lit "gh_token") (lit "gh_repo")) with false.
    rewrite !jseqb_refl. destruct tok, repo; reflexivity.
  - intros key H1 H2. unfold getItem, persistCredentials, setItem.
    rewrite H1, H2. reflexivity.
Qed.

(* ================================================================= *)
(** ** The preview: what it reads *)

Lemma html_not_asset (f : ProjectFile) :
  hasExt ".html" f = true -> hasExt ".css" f = false /\ hasExt ".js" f = false.
Proof.
  unfold hasExt, endsWith.
  destruct (rev (toLowerCase (name f))) as [|c r]; [discriminate|].
  change (rev (lit ".html")) with [108; 109; 116; 104; 46].
  change (rev (lit ".css")) with [115; 115; 99; 46].
  change (rev (lit ".js")) with [115; 106; 46].
  cbn [isPrefix]. intros H. apply andb_true_iff in H. destruct H as [H _].
  apply Z.eqb_eq in H. subst c. split; reflexivity.
Qed.

Lemma filter_within {A : Type} (p q : A -> bool) (l : list A) :
  (forall a, p a = true -> q a = true) ->
  filter p (filter q l) = filter p l.
Proof.
  intros Hpq. induction l as [|a l IH]; simpl; [reflexivity|].
  destruct (q a) eqn:Hq; simpl.
  - rewrite IH. reflexivity.
  - destruct (p a) eqn:Hp; [|exact IH].
    rewrite (Hpq a Hp) in Hq. discriminate.
Qed.

(** X25: the preview is made of the first HTML file and of the style and
    script files, and of nothing else.  Every other file of the working
    set, later HTML files included, can be dropped without changing the
    document. *)
Theorem previewDoc_reads (files : list ProjectFile) (h : ProjectFile) :
  find (hasExt ".html") files = Some h ->
  previewDoc files = previewDoc (h :: filter isAsset files).
Proof.
  intros H. pose proof (find_some _ _ H) as [_ Hh].
  destruct (html_not_asset h Hh) as [Hcss Hjs].
  unfold previewDoc. rewrite H. cbn [find filter]. rewrite Hh, Hcss, Hjs.
  rewrite (filter_within (hasExt ".css") isAsset files)
    by (intros a Ha; unfold isAsset; rewrite Ha; reflexivity).
  rewrite (filter_within (hasExt ".js") isAsset files)
    by (intros a Ha; unfold isAsset; rewrite Ha; apply orb_true_r).
  reflexivity.
Qed.

Lemma previewDoc_reads_witness :
  previewDoc [exFileA; exFileC; exRedeclared; exFileB; exFileC]
  = previewDoc (exFileC :: filter isAsset
                  [exFileA; exFileC; exRedeclared; exFileB; exFileC]).
Proof.
  apply (previewDoc_reads [exFileA; exFileC; exRedeclared; exFileB; exFileC]
           exFileC).
  reflexivity.
Defined.

Lemma bodyRegex_inv (s : jsstring) (z : MatchState) :
  matcher bodyRegex (mkState s [None]) (fun y => Some y) = Some z ->
  exists opening attrs inner closing,
    s = opening ++ attrs ++ 62 :: inner ++ closing ++ rest z
    /\ map Canonicalize opening = map Canonicalize openTag
    /\ forallb notGt attrs = true
    /\ map Canonicalize closing = map Canonicalize closeTag
    /\ captures z = [Some inner]
    /\ forall a b, closing ++ rest z = a ++ b -> a <> [] ->
         prefixI closeTag b = false.
Proof.
  intros H. unfold bodyRegex in H. fold openTag closeTag in H.
  rewrite matcher_seq, matcher_litI in H.
  destruct (prefixI openTag s) eqn:Hopen; [|discriminate].
  destruct (prefixI_keyword openTag s Hopen) as [opening [s1 [Es [Hop Es1]]]].
  rewrite <- Es1 in H. clear Es1.
  rewrite matcher_seq, matcher_star_class in H.
  apply greedyClass_inv in H. destruct H as [attrs [s2 [Es1 [Hattrs [H _]]]]].
  rewrite matcher_seq in H. unfold chI in H.
  destruct s2 as [|gt s3]; [rewrite matcher_chr_nil in H; discriminate|].
  rewrite matcher_chr in H.
  destruct (Canonicalize gt =? Canonicalize 62) eqn:Hgt; [|discriminate].
  apply Z.eqb_eq in Hgt. apply Canonicalize_inv in Hgt; [|reflexivity].
  change (Canonicalize 62) with 62 in Hgt. subst gt.
  rewrite matcher_seq, matcher_group, matcher_star_class in H.
  apply greedyClass_inv in H. destruct H as [inner [s4 [Es3 [_ [H Hmax]]]]].
  cbn [rest captures] in H. rewrite Es3, firstn_consumed in H.
  cbn [setCapture] in H. rewrite matcher_litI in H.
  destruct (prefixI closeTag s4) eqn:Hclose; [|discriminate].
  destruct (prefixI_keyword closeTag s4 Hclose) as [closing [post [Es4 [Hcl Epost]]]].
  rewrite <- Epost in H. injection H as <-. cbn [rest captures].
  exists opening, attrs, inner, closing.
  split; [rewrite Es, Es1, Es3, Es4; reflexivity|].
  split; [exact Hop|]. split; [exact Hattrs|]. split; [exact Hcl|].
  split; [reflexivity|].
  intros a b Eab Ha.
  assert (Esplit : s3 = (inner ++ a) ++ b)
    by (rewrite Es3, Es4, Eab, app_assoc; reflexivity).
  assert (Hlen : (length inner < length (inner ++ a))%nat).
  { rewrite length_app. destruct a; [congruence|simpl; lia]. }
  pose proof (Hmax (inner ++ a) b Esplit (anyUnit_all _) Hlen) as Hfail.
  cbn [rest captures] in Hfail. rewrite matcher_litI in Hfail.
  destruct (prefixI closeTag b); [discriminate|reflexivity].
Qed.

(** X26: the body put into the preview is always a piece of the HTML
    file.  Either the file holds no opening body tag that a closing one
    follows, and it is used whole; or the body is the text that stands
    between the end of an opening tag and a closing tag after which no
    further closing tag starts.  It is never longer than the file. *)
Theorem bodyContent_shape (html : jsstring) :
  ((matchFirst bodyRegex 1 html = None /\ bodyContent html = html)
   \/ exists pre opening attrs closing post,
        html = pre ++ opening ++ attrs ++ 62 :: bodyContent html ++ closing ++ post
        /\ map Canonicalize opening = map Canonicalize openTag
        /\ forallb notGt attrs = true
        /\ map Canonicalize closing = map Canonicalize closeTag
        /\ forall a b, closing ++ post = a ++ b -> a <> [] ->
             prefixI closeTag b = false)
  /\ (length (bodyContent html) <= length html)%nat.
Proof.
  unfold bodyContent, matchFirst.
  destruct (exec bodyRegex 1 0 html) as [m|] eqn:E; [|split; [left; auto|lia]].
  destruct (exec_located bodyRegex 1 html 0%nat m E) as [pre [Hs [_ [Hm _]]]].
  change (repeat None 1) with [@None jsstring] in Hm.
  apply bodyRegex_inv in Hm.
  destruct Hm as [opening [attrs [inner [closing [Ht [Hop [Hat [Hcl [Hcap Hlast]]]]]]]]].
  cbn [rest captures] in Ht, Hcap, Hlast.
  assert (Hinner : capStr m 1 = inner).
  { unfold capStr, cap. rewrite Hcap. reflexivity. }
  rewrite Hinner.
  assert (Hhtml : html = pre ++ opening ++ attrs ++ 62 :: inner ++ closing ++ after m).
  { rewrite Hs at 1. rewrite Ht. reflexivity. }
  split.
  - right. exists pre, opening, attrs, closing, (after m). auto.
  - rewrite Hhtml. rewrite !length_app. cbn [length].
    rewrite !length_app. lia.
Qed.

(* ================================================================= *)
(** ** The sidebar *)

Lemma find_present {A : Type} (p : A -> bool) (l : list A) (a : A) :
  In a l -> p a = true -> exists b, find p l = Some b /\ In b l /\ p b = true.
Proof.
  induction l as [|x l IH]; intros Hin Hp; [destruct Hin|].
  simpl. destruct (p x) eqn:Hx.
  - exists x. split; [reflexivity|]. split; [left; reflexivity|exact Hx].
  - destruct Hin as [->|Hin]; [congruence|].
    destruct (IH Hin Hp) as [b [Hb [Hbl Hpb]]].
    exists b. split; [exact Hb|]. split; [right; exact Hbl|exact Hpb].
Qed.

Lemma NoDup_map_same {A B : Type} (h : A -> B) (l : list A) (a b : A) :
  NoDup (map h l) -> In a l -> In b l -> h a = h b -> a = b.
Proof.
  induction l as [|x l IH]; intros Hnd Ha Hb E; [destruct Ha|].
  simpl in Hnd. inversion Hnd as [|? ? Hx Hl]; subst.
  destruct Ha as [->|Ha]; destruct Hb as [->|Hb].
  - reflexivity.
  - exfalso. apply Hx. rewrite E. apply in_map. exact Hb.
  - exfalso. apply Hx. rewrite <- E. apply in_map. exact Ha.
  - apply IH; assumption.
Qed.

(** X27: a click in the sidebar selects the entry clicked.  When the
    identifier of the entry is not the empty string, the code pane then
    shows a file of the working set that carries this identifier, the
    entry itself when the identifiers of the set are pairwise distinct;
    for an entry whose identifier is the empty string the pane shows its
    placeholder. *)
Theorem select_shows (s : Session) (i : nat) (f : ProjectFile) :
  nth_error (projectFiles (appState s)) i = Some f ->
  (isEmpty (id f) = false ->
   exists g,
     activeFile (appState (step s (Selected i))) = Some g
     /\ In g (projectFiles (appState s))
     /\ id g = id f
     /\ (NoDup (map id (projectFiles (appState s))) -> g = f))
  /\ (isEmpty (id f) = true ->
      activeFile (appState (step s (Selected i))) = None).
Proof.
  intros Hn. cbn [step]. rewrite Hn.
  rewrite (activeFile_shown _ (id f)) by reflexivity.
  cbn [appState projectFiles]. split.
  - intros Hne. rewrite Hne.
    pose proof (nth_error_In _ _ Hn) as Hin.
    destruct (find_present (fun x => jseqb (id x) (id f))
                (projectFiles (appState s)) f Hin (jseqb_refl _))
      as [g [Hfind [Hg Hid]]].
    apply jseqb_spec in Hid.
    exists g. split; [exact Hfind|]. split; [exact Hg|]. split; [exact Hid|].
    intros Hnd. apply (NoDup_map_same id _ g f Hnd Hg Hin Hid).
  - intros He. rewrite He. reflexivity.
Qed.

Lemma select_shows_witness :
  exists g,
    activeFile (appState (step (mkSession (mkApp [] [exFileA; exFileB] None) [] false)
                               (Selected 1)))
    = Some g
    /\ In g (projectFiles (appState (mkSession (mkApp [] [exFileA; exFileB] None) [] false)))
    /\ id g = id exFileB
    /\ (NoDup (map id (projectFiles
                         (appState (mkSession (mkApp [] [exFileA; exFileB] None) [] false))))
        -> g = exFileB).
Proof.
  apply (proj1 (select_shows (mkSession (mkApp [] [exFileA; exFileB] None) [] false)
                  1%nat exFileB eq_refl)).
  reflexivity.
Defined.

(* ================================================================= *)
(** ** Active selection after a reply *)

Lemma active_after_append_witness :
  exists g,
    activeFile (handleResponse exIds exReply (mkApp [] [exFileB] None)) = Some g
    /\ identity g
       = identity (mkFile (exIds 0) (lit "A.JS") (lit "javascript") (lit "let a = 2;")).
Proof.
  apply (proj1 (active_after_append exIds exReply (mkApp [] [exFileB] None)
           (mkFile (exIds 0) (lit "A.JS") (lit "javascript") (lit "let a = 2;"))
           [] (lit "Updated. " ++ notice (lit "A.JS"))
           ltac:(vm_compute; reflexivity)
           ltac:(intros f [<-|[]]; reflexivity)
           ltac:(intros f [<-|[]]; reflexivity))).
  reflexivity.
Defined.
